(** * DeepSpeedCPUAdam: the lazy kernel loader and the CPU Adam driver

    A shallow embedding of [deepspeed/ops/adam/cpu_adam.py].  The class
    attributes, the build-cache directory, the caller's parameter objects
    and the native kernel's own state are threaded explicitly; library and
    kernel calls are recorded in a log, in call order. *)

From Stdlib Require Import QArith Ascii String.
From stdpp Require Import gmap strings list functions.

Local Open Scope string_scope.
Local Open Scope list_scope.
Local Open Scope nat_scope.

(** ** Paths: [os.path.join] on a POSIX system *)

Module Path.

Definition starts_with_slash (s : string) : bool :=
  match s with
  | String c _ => bool_decide (c = "/"%char)
  | EmptyString => false
  end.

Fixpoint ends_with_slash (s : string) : bool :=
  match s with
  | EmptyString => false
  | String c EmptyString => bool_decide (c = "/"%char)
  | String _ rest => ends_with_slash rest
  end.

(** One round of the loop in [posixpath.join]: an absolute component
    restarts the path, otherwise it is appended after a single slash. *)
Definition join1 (path b : string) : string :=
  if starts_with_slash b then b
  else if bool_decide (path = "") || ends_with_slash path then path +:+ b
  else path +:+ "/" +:+ b.

Definition join (a : string) (p : list string) : string := fold_left join1 p a.

End Path.

(** ** Tensors and parameter objects *)

Inductive Dtype := float16 | bfloat16 | float32 | float64.
Inductive Device := cpu | cuda (index : nat).

(** Element values are rationals; the driver never computes on them. *)
Record Tensor := mkTensor {
  shape : list nat;
  dtype : Dtype;
  device : Device;
  values : list Q
}.

Definition numel (t : Tensor) : nat := foldr Nat.mul 1%nat (shape t).

(** [torch.zeros_like(t, device=dev)] *)
Definition zeros_like (t : Tensor) (dev : Device) : Tensor :=
  {| shape := shape t; dtype := dtype t; device := dev;
     values := replicate (numel t) 0%Q |}.

(** An in-place write through the buffer: contents change, the shape,
    dtype and device descriptors stay. *)
Definition overwrite (t : Tensor) (vs : list Q) : Tensor :=
  {| shape := shape t; dtype := dtype t; device := device t; values := vs |}.

Definition all_zero (t : Tensor) : bool :=
  forallb (fun q => Qeq_bool q 0) (values t).

Definition same_layout (a b : Tensor) : Prop :=
  shape a = shape b ∧ dtype a = dtype b.

(** A parameter object, referred to by identity. *)
Record Param := mkParam {
  data : Tensor;
  grad : option Tensor
}.

Definition has_grad (x : Param) : bool :=
  match grad x with Some _ => true | None => false end.

Abbreviation Heap := (nat → Param).

Definition set_data (hp : Heap) (p : nat) (vs : list Q) : Heap :=
  <[p := {| data := overwrite (data (hp p)) vs; grad := grad (hp p) |}]> hp.

(** ** Optimizer objects *)

Record PState := mkPState {
  step_count : nat;
  exp_avg : Tensor;
  exp_avg_sq : Tensor
}.

Definition bumped (st : PState) : PState :=
  {| step_count := step_count st + 1;
     exp_avg := exp_avg st;
     exp_avg_sq := exp_avg_sq st |}.

Record Group := mkGroup {
  params : list nat;
  lr : Q;
  betas : Q * Q;
  eps : Q;
  weight_decay : Q;
  amsgrad : bool
}.

Record Optimizer := mkOptimizer {
  opt_id : nat;
  param_groups : list Group;
  state : gmap nat PState
}.

(** ** The outside world *)

Definition Handle := nat.

Record LoadCall := mkLoadCall {
  name : string;
  sources : list string;
  extra_include_paths : list string;
  extra_cflags : list string;
  extra_cuda_cflags : list string;
  verbose : bool
}.

Inductive Event :=
| Makedirs (path : string)
| Touch (path : string)
| JitLoad (call : LoadCall)
| Printed (group_id param_id n : nat)
| ZerosLike (like : Tensor) (dev : Device)
| CreateAdam (h : Handle) (id : nat) (a b1 b2 e wd : Q)
| AdamUpdate (h : Handle) (id p : nat) (d g m v : Tensor)
| AdamUpdateCopy (h : Handle) (id p : nat) (d g m v : Tensor)
    (p_fp16 : nat) (shadow : Tensor).

Inductive Exn :=
| FileExistsError | NotADirectoryError | TypeError | ValueError | BuildError
| IndexError | KernelError.

(** What the process cannot control: its environment variables, the CUDA
    installation torch found, where the module file lives, what other
    processes do to the build cache in each second, and the JIT loader. *)
Record Platform := mkPlatform {
  environ : gmap string string;
  CUDA_HOME : option string;
  module_dir : string;
  others : nat → gset string → gset string;
  load : LoadCall → nat → gset string → option Handle
}.

(** The native module: [None] is a raised error. *)
Record Kernel (KState : Type) := mkKernel {
  create_adam :
    Handle → KState → nat → Q → Q → Q → Q → Q → option KState;
  adam_update :
    Handle → KState → nat → Tensor → Tensor → Tensor → Tensor →
    option (KState * (list Q * list Q * list Q));
  adam_update_copy :
    Handle → KState → nat → Tensor → Tensor → Tensor → Tensor → Tensor →
    option (KState * (list Q * list Q * list Q * list Q))
}.
Arguments create_adam {KState}.
Arguments adam_update {KState}.
Arguments adam_update_copy {KState}.

Record World (KState : Type) := mkWorld {
  optimizer_id : nat;
  ds_opt_adam : option Handle;
  fs : gset string;
  now : nat;
  heap : Heap;
  kstate : KState;
  log : list Event
}.
Arguments mkWorld {KState}.
Arguments optimizer_id {KState}.
Arguments ds_opt_adam {KState}.
Arguments fs {KState}.
Arguments now {KState}.
Arguments heap {KState}.
Arguments kstate {KState}.
Arguments log {KState}.

(** The class body, [optimizer_id = 0] and [ds_opt_adam = None]: the
    process when the module has just been imported. *)
Definition at_import {KState : Type} (f : gset string) (t : nat) (hp : Heap)
    (ks : KState) : World KState :=
  mkWorld 0 None f t hp ks [].

(** ** Results of a call: it returns, it raises, or it is still blocked
    when the polling budget is used up. *)

Inductive Outcome (S A : Type) :=
| Returns (a : A) (s : S)
| Raises (e : Exn) (s : S)
| Blocked.
Arguments Returns {S A}.
Arguments Raises {S A}.
Arguments Blocked {S A}.

Definition M (S A : Type) := S → Outcome S A.

Definition ret {S A} (a : A) : M S A := fun s => Returns a s.
Definition raise {S A} (e : Exn) : M S A := fun s => Raises e s.
Definition bind {S A B} (c : M S A) (k : A → M S B) : M S B :=
  fun s =>
    match c s with
    | Returns a s' => k a s'
    | Raises e s' => Raises e s'
    | Blocked => Blocked
    end.

Notation "'do' x <- c ; k" := (bind c (fun x => k))
  (at level 10, x name, c at level 100, k at level 200).
Notation "c ;; k" := (bind c (fun _ => k))
  (at level 100, k at level 200, right associativity).

Section Driver.

Context (P : Platform) {KState : Type} (K : Kernel KState).

Abbreviation W := (World KState).

Definition emit (e : Event) : M W unit :=
  fun w => Returns tt
    (mkWorld (optimizer_id w) (ds_opt_adam w) (fs w) (now w) (heap w)
             (kstate w) (log w ++ [e])).

Definition with_fs (w : W) (t : nat) (f : gset string) : W :=
  mkWorld (optimizer_id w) (ds_opt_adam w) f t (heap w) (kstate w) (log w).

(** ** File system calls *)

Definition isfile (f : gset string) (path : string) : bool :=
  bool_decide (path ∈ f).

(** The path [x] lies below the directory [d]. *)
Definition below (d x : string) : bool := String.prefix (d +:+ "/") x.

(** Only regular files are tracked.  A directory is known to exist when a
    tracked file lies below it, and a component of a path is known to be a
    regular file when the path lies below a tracked file. *)
Definition holds_file (f : gset string) (d : string) : bool :=
  existsb (below d) (elements f).

Definition file_on_path (f : gset string) (path : string) : bool :=
  existsb (fun g => below g path) (elements f).

(** What [os.makedirs(path, exist_ok=True)] raises: [FileExistsError] when
    [path] is a regular file (the [mkdir] of the leaf fails and the leaf is
    no directory), nothing when the directory exists, and
    [NotADirectoryError] when a component above it is a regular file. *)
Definition makedirs_error (f : gset string) (path : string) : option Exn :=
  if isfile f path then Some FileExistsError
  else if holds_file f path then None
  else if file_on_path f path then Some NotADirectoryError
  else None.

(** [os.makedirs(path, exist_ok=True)] *)
Definition makedirs (path : string) : M W unit :=
  emit (Makedirs path) ;;
  fun w => match makedirs_error (fs w) path with
           | Some e => Raises e w
           | None => Returns tt w
           end.

(** [Path(path).touch()] *)
Definition touch (path : string) : M W unit :=
  emit (Touch path) ;;
  fun w => Returns tt (with_fs w (now w) ({[path]} ∪ fs w)).

(** One second passes: the other processes act on the directory. *)
Definition tick (w : W) : W := with_fs w (S (now w)) (others P (now w) (fs w)).

(** [time.sleep(secs)] *)
Fixpoint sleep (secs : nat) (w : W) : W :=
  match secs with
  | O => w
  | S k => sleep k (tick w)
  end.

(** ** [wait_if_build_started] *)

(** The [while] loop; [polls] bounds the number of times its condition is
    evaluated. *)
Fixpoint wait_done (polls : nat) (ext_path : string) : M W unit :=
  fun w =>
    match polls with
    | O => Blocked
    | S k =>
        if negb (isfile (fs w) (Path.join ext_path ["done"]))
        then wait_done k ext_path (sleep 1000 w)
        else Returns tt w
    end.

Definition wait_if_build_started (polls : nat) (ext_path : string) : M W unit :=
  fun w =>
    if isfile (fs w) (Path.join ext_path ["started"])
    then wait_done polls ext_path w
    else Returns tt w.

(** ** [load_op] *)

Definition ext_dir : string :=
  Path.join (default "/tmp/torch-extensions" (environ P !! "TORCH_EXTENSIONS_DIR"))
            ["ds_cpu_adam"].

Definition load_call (home : string) : LoadCall :=
  let CUDA_INCLUDE := Path.join home ["include"] in
  let CUDA_LIB64 := Path.join home ["lib64"] in
  let DEEPSPEED_SRC_PATH := module_dir P in
  {| name := "ds_cpu_adam";
     sources := [Path.join DEEPSPEED_SRC_PATH [".."; "csrc/adam/cpu_adam.cpp"];
                 Path.join DEEPSPEED_SRC_PATH [".."; "csrc/adam/custom_cuda_kernel.cu"]];
     extra_include_paths := [Path.join DEEPSPEED_SRC_PATH [".."; "csrc/includes/"];
                             CUDA_INCLUDE];
     extra_cflags := ["-O3"; "-march=native"; "-std=c++14"; "-L" +:+ CUDA_LIB64;
                      "-lcudart"; "-lcublas"; "-g"; "-Wno-reorder"; "-fopenmp";
                      "-D__AVX256__"];
     extra_cuda_cflags := ["-O3"; "--use_fast_math"; "-gencode";
                           "arch=compute_61,code=compute_61"; "-gencode";
                           "arch=compute_70,code=compute_70"; "-std=c++14";
                           "-U__CUDA_NO_HALF_OPERATORS__";
                           "-U__CUDA_NO_HALF_CONVERSIONS__";
                           "-U__CUDA_NO_HALF2_OPERATORS__"];
     verbose := true |}.

(** [torch.utils.cpp_extension.load(...)] *)
Definition jit_load (call : LoadCall) : M W Handle :=
  emit (JitLoad call) ;;
  fun w => match load P call (now w) (fs w) with
           | Some h => Returns h w
           | None => Raises BuildError w
           end.

Definition set_ds_opt_adam (h : Handle) : M W unit :=
  fun w => Returns tt
    (mkWorld (optimizer_id w) (Some h) (fs w) (now w) (heap w) (kstate w) (log w)).

Definition load_op (polls : nat) : M W Handle :=
  fun w =>
    match ds_opt_adam w with
    | Some h => Returns h w
    | None =>
        (let ext_path := ext_dir in
         makedirs ext_path ;;
         wait_if_build_started polls ext_path ;;
         touch (Path.join ext_path ["started"]) ;;
         match CUDA_HOME P with
         | None => raise TypeError
         | Some home =>
             do h <- jit_load (load_call home) ;
             set_ds_opt_adam h ;;
             touch (Path.join ext_path ["done"]) ;;
             ret h
         end) w
    end.

(** ** [__init__] *)

Abbreviation OW := (Optimizer * W)%type.

(** Run a loader or kernel action inside a method of [self]. *)
Definition in_world {A} (c : M W A) : M OW A :=
  fun s =>
    match c (snd s) with
    | Returns a w' => Returns a (fst s, w')
    | Raises e w' => Raises e (fst s, w')
    | Blocked => Blocked
    end.

(** The groups [torch.optim.Optimizer.__init__] builds: every group
    receives the defaults. *)
Definition groups_of (model_params : list (list nat))
    (a : Q) (bs : Q * Q) (e wd : Q) (ams : bool) : list Group :=
  map (fun ps => {| params := ps; lr := a; betas := bs; eps := e;
                    weight_decay := wd; amsgrad := ams |}) model_params.

(** [add_param_group] collects the parameters of the groups added so far
    and refuses a group that shares one with them; a parameter listed twice
    within one group only draws a warning. *)
Fixpoint groups_disjoint (seen : list nat) (model_params : list (list nat)) : bool :=
  match model_params with
  | [] => true
  | g :: rest =>
      forallb (fun p => negb (bool_decide (p ∈ seen))) g
      && groups_disjoint (seen ++ g) rest
  end.

(** The arguments the base class accepts: a list of groups that is not
    empty and in which no parameter stands in two groups.  [model_params]
    is the list of groups as the base class sees it: an iterable of tensors
    is one group, the empty iterable is the empty list, and a group given
    as a dictionary may be empty. *)
Definition accepted (model_params : list (list nat)) : bool :=
  negb (bool_decide (model_params = [])) && groups_disjoint [] model_params.

(** [torch.optim.Optimizer.__init__(model_params, default_args)]: it
    raises [ValueError] on an empty parameter list and on a parameter that
    appears in more than one group; otherwise every group receives the
    defaults (and the state dictionary starts empty).  The parameters are
    tensors here, so its type checks cannot fail. *)
Definition base_init (model_params : list (list nat))
    (a : Q) (bs : Q * Q) (e wd : Q) (ams : bool) : M W (list Group) :=
  if accepted model_params
  then ret (groups_of model_params a bs e wd ams)
  else raise ValueError.

Definition next_optimizer_id : M W nat :=
  fun w => Returns (optimizer_id w)
    (mkWorld (optimizer_id w + 1) (ds_opt_adam w) (fs w) (now w) (heap w)
             (kstate w) (log w)).

Definition call_create_adam (h : Handle) (id : nat) (a b1 b2 e wd : Q) : M W unit :=
  emit (CreateAdam h id a b1 b2 e wd) ;;
  fun w =>
    match create_adam K h (kstate w) id a b1 b2 e wd with
    | Some ks =>
        Returns tt (mkWorld (optimizer_id w) (ds_opt_adam w) (fs w) (now w)
                            (heap w) ks (log w))
    | None => Raises KernelError w
    end.

Definition init (polls : nat) (model_params : list (list nat))
    (a : Q) (bs : Q * Q) (e wd : Q) (ams : bool) : M W Optimizer :=
  do groups <- base_init model_params a bs e wd ams ;
  do id <- next_optimizer_id ;
  let self := {| opt_id := id; param_groups := groups; state := ∅ |} in
  do ds_opt_adam <- load_op polls ;
  call_create_adam ds_opt_adam (opt_id self) a (fst bs) (snd bs) e wd ;;
  ret self.

(** ** [step] *)

Definition init_state (t : Tensor) : PState :=
  {| step_count := 0;
     exp_avg := zeros_like t cpu;
     exp_avg_sq := zeros_like t cpu |}.

Definition set_state (self : Optimizer) (p : nat) (st : PState) : Optimizer :=
  {| opt_id := opt_id self; param_groups := param_groups self;
     state := <[p := st]> (state self) |}.

(** [state = self.state[p]] with the initialisation under
    [if len(state) == 0]; a key missing from the map is the empty
    dictionary the [defaultdict] hands out. *)
Definition state_of (group_id param_id p : nat) : M OW PState :=
  fun s =>
    match state (fst s) !! p with
    | Some st => Returns st s
    | None =>
        let t := data (heap (snd s) p) in
        (in_world (emit (Printed group_id param_id (numel t))) ;;
         in_world (emit (ZerosLike t cpu)) ;;
         in_world (emit (ZerosLike t cpu)) ;;
         fun s' => Returns (init_state t) (set_state (fst s') p (init_state t), snd s')) s
    end.

(** [state['step'] += 1] *)
Definition bump (p : nat) (st : PState) : M OW PState :=
  fun s => Returns (bumped st) (set_state (fst s) p (bumped st), snd s).

(** [fp16_param_groups[group_id][param_id]] *)
Definition index2 (groups : list (list nat)) (group_id param_id : nat) : M OW nat :=
  match groups !! group_id with
  | Some g => match g !! param_id with
              | Some x => ret x
              | None => raise IndexError
              end
  | None => raise IndexError
  end.

Definition written (st : PState) (m v : list Q) : PState :=
  {| step_count := step_count st;
     exp_avg := overwrite (exp_avg st) m;
     exp_avg_sq := overwrite (exp_avg_sq st) v |}.

Definition call_adam_update (h : Handle) (p : nat) (g : Tensor) (st : PState)
    : M OW unit :=
  fun s =>
    let self := fst s in
    (in_world (emit (AdamUpdate h (opt_id self) p (data (heap (snd s) p)) g
                                (exp_avg st) (exp_avg_sq st))) ;;
     fun s1 =>
       let w := snd s1 in
       match adam_update K h (kstate w) (opt_id self) (data (heap w p)) g
                         (exp_avg st) (exp_avg_sq st) with
       | Some (ks, (d', m', v')) =>
           Returns tt
             (set_state (fst s1) p (written st m' v'),
              mkWorld (optimizer_id w) (ds_opt_adam w) (fs w) (now w)
                      (set_data (heap w) p d') ks (log w))
       | None => Raises KernelError s1
       end) s.

Definition call_adam_update_copy (h : Handle) (p : nat) (g : Tensor) (st : PState)
    (p_fp16 : nat) : M OW unit :=
  fun s =>
    let self := fst s in
    (in_world (emit (AdamUpdateCopy h (opt_id self) p (data (heap (snd s) p)) g
                                    (exp_avg st) (exp_avg_sq st)
                                    p_fp16 (data (heap (snd s) p_fp16)))) ;;
     fun s1 =>
       let w := snd s1 in
       match adam_update_copy K h (kstate w) (opt_id self) (data (heap w p)) g
                              (exp_avg st) (exp_avg_sq st)
                              (data (heap w p_fp16)) with
       | Some (ks, (d', m', v', c')) =>
           Returns tt
             (set_state (fst s1) p (written st m' v'),
              mkWorld (optimizer_id w) (ds_opt_adam w) (fs w) (now w)
                      (set_data (set_data (heap w) p d') p_fp16 c') ks (log w))
       | None => Raises KernelError s1
       end) s.

(** The body of the inner [for] loop. *)
Definition step_param (polls : nat) (fp16_param_groups : option (list (list nat)))
    (group_id param_id p : nat) : M OW unit :=
  fun s =>
    match grad (heap (snd s) p) with
    | None => Returns tt s
    | Some g =>
        (do st0 <- state_of group_id param_id p ;
         do st <- bump p st0 ;
         do ds_opt_adam <- in_world (load_op polls) ;
         match fp16_param_groups with
         | Some groups =>
             do p_fp16 <- index2 groups group_id param_id ;
             call_adam_update_copy ds_opt_adam p g st p_fp16
         | None => call_adam_update ds_opt_adam p g st
         end) s
    end.

(** [for param_id, p in enumerate(group['params'])], from [param_id] on. *)
Fixpoint params_loop (polls : nat) (fp16 : option (list (list nat)))
    (group_id param_id : nat) (ps : list nat) : M OW unit :=
  match ps with
  | [] => ret tt
  | p :: rest =>
      step_param polls fp16 group_id param_id p ;;
      params_loop polls fp16 group_id (S param_id) rest
  end.

(** [for group_id, group in enumerate(self.param_groups)], from [group_id] on. *)
Fixpoint groups_loop (polls : nat) (fp16 : option (list (list nat)))
    (group_id : nat) (gs : list Group) : M OW unit :=
  match gs with
  | [] => ret tt
  | g :: rest =>
      params_loop polls fp16 group_id 0 (params g) ;;
      groups_loop polls fp16 (S group_id) rest
  end.

(** [loss = closure()]: the closure is the caller's code and may change the
    parameter objects (typically it fills in the gradients). *)
Definition run_closure (closure : option (Heap → Q * Heap)) : M OW (option Q) :=
  fun s =>
    match closure with
    | None => Returns None s
    | Some c =>
        let w := snd s in
        Returns (Some (fst (c (heap w))))
          (fst s, mkWorld (optimizer_id w) (ds_opt_adam w) (fs w) (now w)
                          (snd (c (heap w))) (kstate w) (log w))
    end.

Definition step (polls : nat) (closure : option (Heap → Q * Heap))
    (fp16_param_groups : option (list (list nat))) : M OW (option Q) :=
  do loss <- run_closure closure ;
  (fun s => groups_loop polls fp16_param_groups 0 (param_groups (fst s)) s) ;;
  ret loss.

End Driver.

(** ** A sequence of [step] calls on one instance *)

(** One call as the training loop makes it: what the caller did to the
    parameter objects since the previous call (backward pass, zeroing of
    gradients), then [step(closure, fp16_param_groups)]. *)
Record StepCall := mkStepCall {
  backward : Heap → Heap;
  closure : option (Heap → Q * Heap);
  fp16_param_groups : option (list (list nat))
}.

(** The arguments of [DeepSpeedCPUAdam(...)]. *)
Record InitArgs := mkInitArgs {
  a_model_params : list (list nat);
  a_lr : Q;
  a_betas : Q * Q;
  a_eps : Q;
  a_weight_decay : Q;
  a_amsgrad : bool
}.

(** What the program around the optimizer does in one process: it
    constructs instances, calls [step] on the [i]-th instance it has, and
    may call the static [load_op] itself. *)
Inductive Action :=
| Construct (a : InitArgs)
| StepOn (i : nat) (c : StepCall)
| CallLoadOp.

Section Runs.

Context (P : Platform) {KState : Type} (K : Kernel KState).

Abbreviation OW' := (Optimizer * World KState)%type.

Definition caller (f : Heap → Heap) : M OW' unit :=
  fun s =>
    let w := snd s in
    Returns tt (fst s, mkWorld (optimizer_id w) (ds_opt_adam w) (fs w) (now w)
                               (f (heap w)) (kstate w) (log w)).

(** The state in which the nested loops of a call start. *)
Definition at_loop_entry (c : StepCall) (s : OW') : OW' :=
  match (caller (backward c) ;; run_closure (closure c)) s with
  | Returns _ s' => s'
  | _ => s
  end.

Definition step_call (polls : nat) (c : StepCall) : M OW' (option Q) :=
  caller (backward c) ;; step P K polls (closure c) (fp16_param_groups c).

(** The calls in order; the first one that raises ends the run. *)
Fixpoint run_steps (polls : nat) (calls : list StepCall) : M OW' (list (option Q)) :=
  match calls with
  | [] => ret []
  | c :: rest =>
      do loss <- step_call polls c ;
      do losses <- run_steps polls rest ;
      ret (loss :: losses)
  end.

(** In how many of the calls the parameter [p] carried a gradient. *)
Fixpoint grad_calls (polls : nat) (p : nat) (calls : list StepCall) (s : OW') : nat :=
  match calls with
  | [] => 0
  | c :: rest =>
      match step_call polls c s with
      | Returns _ s' =>
          (if has_grad (heap (snd (at_loop_entry c s)) p) then 1 else 0)
          + grad_calls polls p rest s'
      | _ => 0
      end
  end.

Definition construct (polls : nat) (a : InitArgs) : M (World KState) Optimizer :=
  init P K polls (a_model_params a) (a_lr a) (a_betas a) (a_eps a)
       (a_weight_decay a) (a_amsgrad a).

(** A program that catches what is raised and goes on; [None] when a call
    is still blocked.  The state is the list of the instances constructed
    so far and the process. *)
Fixpoint run_script (polls : nat) (acts : list Action)
    (st : list Optimizer * World KState) : option (list Optimizer * World KState) :=
  match acts with
  | [] => Some st
  | Construct a :: rest =>
      match construct polls a (snd st) with
      | Returns self w' => run_script polls rest (fst st ++ [self], w')
      | Raises _ w' => run_script polls rest (fst st, w')
      | Blocked => None
      end
  | StepOn i c :: rest =>
      match fst st !! i with
      | None => run_script polls rest st
      | Some self =>
          match step_call polls c (self, snd st) with
          | Returns _ s' | Raises _ s' =>
              run_script polls rest (<[i := fst s']> (fst st), snd s')
          | Blocked => None
          end
      end
  | CallLoadOp :: rest =>
      match load_op P polls (snd st) with
      | Returns _ w' | Raises _ w' => run_script polls rest (fst st, w')
      | Blocked => None
      end
  end.

Definition is_construct (a : Action) : bool :=
  match a with Construct _ => true | _ => false end.

(** How many constructor calls a program makes. *)
Definition constructions (acts : list Action) : nat := length (filter is_construct acts).

Definition is_accepted (a : Action) : bool :=
  match a with Construct ia => accepted (a_model_params ia) | _ => false end.

(** How many of them the base class accepts, so that they reach the
    counter. *)
Definition accepted_constructions (acts : list Action) : nat :=
  length (filter is_accepted acts).

(** A sequence of [step] calls by a caller that catches what is raised and
    goes on with the next call; [None] when a call is still blocked. *)
Fixpoint run_calls (polls : nat) (calls : list StepCall) (s : OW') : option OW' :=
  match calls with
  | [] => Some s
  | c :: rest =>
      match step_call polls c s with
      | Returns _ s' | Raises _ s' => run_calls polls rest s'
      | Blocked => None
      end
  end.

(** In how many of these calls the parameter [p] carried a gradient,
    whether the call returned or raised. *)
Fixpoint gradient_calls (polls : nat) (p : nat) (calls : list StepCall) (s : OW') : nat :=
  match calls with
  | [] => 0
  | c :: rest =>
      (if has_grad (heap (snd (at_loop_entry c s)) p) then 1 else 0)
      + match step_call polls c s with
        | Returns _ s' | Raises _ s' => gradient_calls polls p rest s'
        | Blocked => 0
        end
  end.

End Runs.

(** ** Reading the log *)

(** The handle each kernel call went through. *)
Definition handle_of (e : Event) : option Handle :=
  match e with
  | CreateAdam h _ _ _ _ _ _ => Some h
  | AdamUpdate h _ _ _ _ _ _ => Some h
  | AdamUpdateCopy h _ _ _ _ _ _ _ _ => Some h
  | _ => None
  end.

Definition handles_of (l : list Event) : list Handle := omap handle_of l.

(** The kernel update calls, reduced to which objects they were given. *)
Inductive Sig :=
| SUpdate (p : nat)
| SUpdateCopy (p p_fp16 : nat).

Definition sig_of (e : Event) : option Sig :=
  match e with
  | AdamUpdate _ _ p _ _ _ _ => Some (SUpdate p)
  | AdamUpdateCopy _ _ p _ _ _ _ q _ => Some (SUpdateCopy p q)
  | _ => None
  end.

Definition sigs (l : list Event) : list Sig := omap sig_of l.

Definition sig_param (s : Sig) : nat :=
  match s with SUpdate p => p | SUpdateCopy p _ => p end.

(** How many kernel update calls were made for the parameter [p]. *)
Definition updates_of (p : nat) (l : list Event) : nat :=
  length (filter (fun s => sig_param s = p) (sigs l)).

Definition is_alloc (e : Event) : bool :=
  match e with ZerosLike _ _ => true | _ => false end.

(** How many buffers were allocated. *)
Definition allocations (l : list Event) : nat := length (filter is_alloc l).

Definition is_jit_load (e : Event) : bool :=
  match e with JitLoad _ => true | _ => false end.

(** How many times the JIT loader (the compiler invocation) was called. *)
Definition compiler_calls (l : list Event) : nat := length (filter is_jit_load l).

Definition is_kernel_call (e : Event) : bool :=
  match handle_of e with Some _ => true | None => false end.

(** Everything the native module was asked to do, in order. *)
Definition kernel_calls (l : list Event) : list Event := filter is_kernel_call l.

(** ** A reference kernel *)

Module RefKernel.

(** Modelled from the spec: the native module [ds_cpu_adam] (its C++ and
    CUDA sources) is not part of the Python sources.  The spec gives its
    contract: [create] registers per-id state, an update for an id that
    was never created fails, buffers that disagree in size are refused,
    and an update performs one bias-corrected Adam step in place on the
    parameter and on the two running averages (of the gradient and of the
    squared gradient); the copy variant also writes the updated parameter
    into the shadow buffer.  Rationals stand for the floats, with the
    square root taken to six decimal places. *)

Record Slot := mkSlot {
  alpha : Q;
  beta1 : Q;
  beta2 : Q;
  epsilon : Q;
  decay : Q;
  t : nat
}.

Definition KState := gmap nat Slot.

(** Modelled from the spec: [create_adam] of the native module, which
    registers the hyperparameters under the identifier. *)
Definition create (_ : Handle) (ks : KState) (id : nat) (a b1 b2 e wd : Q)
    : option KState :=
  Some (<[id := {| alpha := a; beta1 := b1; beta2 := b2; epsilon := e;
                   decay := wd; t := 0%nat |}]> ks).

Definition Qsqrt (q : Q) : Q :=
  Qmake (Z.sqrt (Qnum q * 10 ^ 12 / Zpos (Qden q))%Z) (10 ^ 6)%positive.

(** Modelled from the spec: the bias-corrected Adam step of the native
    module on one element, with decoupled weight decay. *)
Definition one_element (sl : Slot) (n : nat) (x : Q * (Q * (Q * Q))) : Q * (Q * Q) :=
  let '(p, (g, (m, v))) := x in
  let m' := Qred (beta1 sl * m + (1 - beta1 sl) * g)%Q in
  let v' := Qred (beta2 sl * v + (1 - beta2 sl) * g * g)%Q in
  let m_hat := (m' / (1 - beta1 sl ^ Z.of_nat n))%Q in
  let v_hat := (v' / (1 - beta2 sl ^ Z.of_nat n))%Q in
  let p' := Qred (p - alpha sl * decay sl * p
                    - alpha sl * m_hat / (Qsqrt v_hat + epsilon sl))%Q in
  (p', (m', v')).

Definition same_size (a b : Tensor) : bool :=
  bool_decide (shape a = shape b) && bool_decide (length (values a) = length (values b)).

(** Modelled from the spec: [adam_update] of the native module. *)
Definition update (_ : Handle) (ks : KState) (id : nat) (d g m v : Tensor)
    : option (KState * (list Q * list Q * list Q)) :=
  match ks !! id with
  | None => None
  | Some sl =>
      if same_size d g && same_size d m && same_size d v then
        let n := S (t sl) in
        let out := map (one_element sl n)
                       (zip (values d) (zip (values g) (zip (values m) (values v)))) in
        Some (<[id := {| alpha := alpha sl; beta1 := beta1 sl; beta2 := beta2 sl;
                         epsilon := epsilon sl; decay := decay sl; t := n |}]> ks,
              (map fst out, map (fun x => fst (snd x)) out,
               map (fun x => snd (snd x)) out))
      else None
  end.

(** Modelled from the spec: [adam_update_copy] of the native module. *)
Definition update_copy (h : Handle) (ks : KState) (id : nat) (d g m v c : Tensor)
    : option (KState * (list Q * list Q * list Q * list Q)) :=
  match update h ks id d g m v with
  | Some (ks', (d', m', v')) =>
      if bool_decide (length (values c) = length d')
      then Some (ks', (d', m', v', d'))
      else None
  | None => None
  end.

(** Modelled from the spec: the native module as a whole. *)
Definition kernel : Kernel KState :=
  {| create_adam := create; adam_update := update; adam_update_copy := update_copy |}.

End RefKernel.

(** ** A concrete process, for running the definitions *)

Module Demo.

(** A machine with CUDA installed on which the compiler succeeds; another
    process finishes its own build 1500 seconds after this one starts. *)
Definition platform : Platform :=
  {| environ := ∅;
     CUDA_HOME := Some "/usr/local/cuda";
     module_dir := "/opt/deepspeed/ops/adam";
     others := fun now f =>
       if now =? 1500
       then {["/tmp/torch-extensions/ds_cpu_adam/done"]} ∪ f else f;
     load := fun _ _ _ => Some 7 |}.

(** The same machine when the other builder has crashed: nothing ever
    changes in the build cache. *)
Definition stuck_platform : Platform :=
  {| environ := ∅;
     CUDA_HOME := Some "/usr/local/cuda";
     module_dir := "/opt/deepspeed/ops/adam";
     others := fun _ f => f;
     load := fun _ _ _ => Some 7 |}.

Definition vec (vs : list Q) : Tensor :=
  {| shape := [length vs]; dtype := float32; device := cpu; values := vs |}.

(** Object 1: a parameter of shape [1] with gradient 1/10.  Object 2: a
    parameter of shape [2] whose gradient has the wrong size.  Object 3: a
    parameter without a gradient.  Object 4: a half-precision shadow of
    object 1. *)
Definition objects : Heap :=
  fun p =>
    match p with
    | 1 => {| data := vec [1%Q]; grad := Some (vec [(1 # 10)%Q]) |}
    | 2 => {| data := vec [1%Q; 1%Q]; grad := Some (vec [(1 # 10)%Q]) |}
    | 4 => {| data := {| shape := [1]; dtype := float16; device := cuda 0;
                         values := [0%Q] |};
              grad := None |}
    | _ => {| data := vec [1%Q]; grad := None |}
    end.

Definition fresh (f : gset string) : World RefKernel.KState :=
  at_import f 0 objects ∅.

Definition hyper (ps : list (list nat)) : InitArgs :=
  {| a_model_params := ps; a_lr := 1 # 1000; a_betas := (9 # 10, 999 # 1000);
     a_eps := 1 # 100000000; a_weight_decay := 0; a_amsgrad := false |}.

(** The first instance of the process, over the given groups. *)
Definition instance (ps : list (list nat)) : Optimizer :=
  {| opt_id := 0;
     param_groups := groups_of ps (1 # 1000) (9 # 10, 999 # 1000) (1 # 100000000) 0 false;
     state := ∅ |}.

(** The process after it has constructed that instance. *)
Definition loaded : World RefKernel.KState :=
  {| optimizer_id := 1; ds_opt_adam := Some 7; fs := ∅; now := 0;
     heap := objects;
     kstate := {[ 0 := {| RefKernel.alpha := 1 # 1000; RefKernel.beta1 := 9 # 10;
                          RefKernel.beta2 := 999 # 1000;
                          RefKernel.epsilon := 1 # 100000000;
                          RefKernel.decay := 0; RefKernel.t := 0 |} ]};
     log := [] |}.

Definition started_only : gset string :=
  {["/tmp/torch-extensions/ds_cpu_adam/started"]}.

Definition plain_call : StepCall :=
  {| backward := fun hp => hp; closure := None; fp16_param_groups := None |}.


End Demo.

(** ** Vocabulary of the statements *)

(** What holds of the state a call leaves: [Qr] if it returns, [Qe] if it
    raises.  A call that is still blocked leaves nothing. *)
Definition sat {S A : Type} (o : Outcome S A) (Qr : A → S → Prop) (Qe : S → Prop)
    : Prop :=
  match o with
  | Returns a s => Qr a s
  | Raises _ s => Qe s
  | Blocked => True
  end.

(** Wherever the call stops, by returning or by raising, [R] relates the
    state it started in to the state it left. *)
Definition keeps {S A : Type} (R : S → S → Prop) (c : M S A) : Prop :=
  ∀ s, sat (c s) (fun _ s' => R s s') (fun s' => R s s').

(** The descriptor of a tensor: everything but its contents. *)
Definition descr (t : Tensor) : list nat * Dtype * Device :=
  (shape t, dtype t, device t).

Definition loader_event (e : Event) : bool :=
  match e with
  | Makedirs _ | Touch _ | JitLoad _ => true
  | _ => false
  end.

(** What the loader may do to the process besides filling its slot: act on
    the build cache, let time pass, and log its own calls. *)
Record loader_step {KState : Type} (w w' : World KState) : Prop := mkLoaderStep {
  ls_heap : heap w' = heap w;
  ls_kstate : kstate w' = kstate w;
  ls_id : optimizer_id w' = optimizer_id w;
  ls_log : ∃ l, log w' = log w ++ l ∧ Forall (fun e => loader_event e = true) l
}.

(** A loader step that leaves the class-level slot as it was. *)
Definition quiet {KState : Type} (w w' : World KState) : Prop :=
  loader_step w w' ∧ ds_opt_adam w' = ds_opt_adam w.

(** What no call of the driver changes in the process: which objects carry
    a gradient, the descriptors of their data, the counter of instances,
    a filled slot; and every kernel call it logs went through the handle
    in the slot. *)
Record wframe {KState : Type} (w w' : World KState) : Prop := mkWFrame {
  wf_grad : ∀ q, grad (heap w' q) = grad (heap w q);
  wf_descr : ∀ q, descr (data (heap w' q)) = descr (data (heap w q));
  wf_id : optimizer_id w' = optimizer_id w;
  wf_slot : ∀ h, ds_opt_adam w = Some h → ds_opt_adam w' = Some h;
  wf_log : ∃ l, log w' = log w ++ l ∧
                Forall (fun h => ds_opt_adam w' = Some h) (handles_of l)
}.

(** What a call of [step] leaves as it is: the process as in [wframe], the
    identity and the groups of the instance, and for every parameter that
    has a state entry, the entry's existence and the descriptors of its two
    buffers; its step counter does not decrease. *)
Record frame {KState : Type} (s s' : Optimizer * World KState) : Prop := mkFrame {
  fr_world : wframe (snd s) (snd s');
  fr_opt_id : opt_id (fst s') = opt_id (fst s);
  fr_groups : param_groups (fst s') = param_groups (fst s);
  fr_entries : ∀ q st, state (fst s) !! q = Some st →
    ∃ st', state (fst s') !! q = Some st' ∧
           descr (exp_avg st') = descr (exp_avg st) ∧
           descr (exp_avg_sq st') = descr (exp_avg_sq st) ∧
           step_count st ≤ step_count st'
}.

(** The state entry of [p], once there, stays, with the descriptors of
    its two buffers. *)
Definition entry_kept {KState : Type} (p : nat) (s s' : Optimizer * World KState)
    : Prop :=
  ∀ st, state (fst s) !! p = Some st →
    ∃ st', state (fst s') !! p = Some st' ∧
           descr (exp_avg st') = descr (exp_avg st) ∧
           descr (exp_avg_sq st') = descr (exp_avg_sq st).

(** The moment buffers a kernel update call was handed. *)
Definition event_buffers (e : Event) : option (Tensor * Tensor) :=
  match e with
  | AdamUpdate _ _ _ _ _ m v => Some (m, v)
  | AdamUpdateCopy _ _ _ _ _ m v _ _ => Some (m, v)
  | _ => None
  end.

(** The buffers of [p]'s state entry have the shape and dtype of [p]. *)
Definition congruent {KState : Type} (p : nat) (s : Optimizer * World KState) : Prop :=
  ∀ st, state (fst s) !! p = Some st →
    same_layout (exp_avg st) (data (heap (snd s) p)) ∧
    same_layout (exp_avg_sq st) (data (heap (snd s) p)).

(** The caller's code leaves the shape and dtype of [p] alone. *)
Definition keeps_layout (c : StepCall) (p : nat) : Prop :=
  (∀ hp, same_layout (data (backward c hp p)) (data (hp p))) ∧
  match closure c with
  | Some f => ∀ hp, same_layout (data (snd (f hp) p)) (data (hp p))
  | None => True
  end.

(** An instance with the AMSGrad flag of every group blanked. *)
Definition forget_group (g : Group) : Group :=
  {| params := params g; lr := lr g; betas := betas g; eps := eps g;
     weight_decay := weight_decay g; amsgrad := false |}.

Definition forget_amsgrad (self : Optimizer) : Optimizer :=
  {| opt_id := opt_id self;
     param_groups := map forget_group (param_groups self);
     state := state self |}.

Definition forget {KState : Type} (s : Optimizer * World KState)
    : Optimizer * World KState :=
  (forget_amsgrad (fst s), snd s).

(** An outcome with the flag blanked in the instance it leaves; the
    process, with its log of kernel calls, is kept as it is. *)
Definition blind {KState A : Type} (o : Outcome (Optimizer * World KState) A)
    : Outcome (Optimizer * World KState) A :=
  match o with
  | Returns a s => Returns a (forget s)
  | Raises e s => Raises e (forget s)
  | Blocked => Blocked
  end.

(** A method that does the same whatever the flag is. *)
Definition flag_blind {KState A : Type} (c : M (Optimizer * World KState) A) : Prop :=
  ∀ s, c (forget s) = blind (c s).

(** The reading of "the moment buffers are all-zero immediately after the
    parameter's first tracked [step] call". *)
Definition zero_after_first_step (P : Platform) {KState : Type} (K : Kernel KState)
    (polls : nat) (c : StepCall) (s : Optimizer * World KState) (p : nat) : Prop :=
  state (fst s) !! p = None →
  ∀ loss s' st,
    step_call P K polls c s = Returns loss s' →
    state (fst s') !! p = Some st →
    all_zero (exp_avg st) = true ∧ all_zero (exp_avg_sq st) = true.

(** The state entry the loop body works on: the stored one, or a fresh
    one when the parameter has none. *)
Definition entry_of {KState : Type} (s : Optimizer * World KState) (p : nat) : PState :=
  default (init_state (data (heap (snd s) p))) (state (fst s) !! p).

(** What the initialisation of a missing entry logs. *)
Definition init_events {KState : Type} (s : Optimizer * World KState)
    (group_id param_id p : nat) : list Event :=
  match state (fst s) !! p with
  | Some _ => []
  | None =>
      let t := data (heap (snd s) p) in
      [Printed group_id param_id (numel t); ZerosLike t cpu; ZerosLike t cpu]
  end.

Definition logged {KState : Type} (w : World KState) (l : list Event) : World KState :=
  mkWorld (optimizer_id w) (ds_opt_adam w) (fs w) (now w) (heap w) (kstate w)
          (log w ++ l).

(** The step counter of a parameter, 0 while it has no state entry. *)
Definition steps_of (self : Optimizer) (p : nat) : nat :=
  from_option step_count 0 (state self !! p).

(** The parameters of an instance, group after group. *)
Definition all_params (self : Optimizer) : list nat :=
  concat (map params (param_groups self)).

Definition occurrences (q : nat) (ps : list nat) : nat :=
  length (filter (fun x => x = q) ps).

(** The kernel update call a returning [step] makes for the parameter at
    a position, given the [fp16_param_groups] argument. *)
Definition sig_for (fp16 : option (list (list nat))) (group_id param_id p : nat)
    : list Sig :=
  match fp16 with
  | None => [SUpdate p]
  | Some groups =>
      match groups !! group_id ≫= (.!! param_id) with
      | Some q => [SUpdateCopy p q]
      | None => []
      end
  end.

(** The positions the nested loops visit, in order: group index,
    parameter index, parameter. *)
Fixpoint enum_params (group_id param_id : nat) (ps : list nat)
    : list (nat * nat * nat) :=
  match ps with
  | [] => []
  | p :: rest => (group_id, param_id, p) :: enum_params group_id (S param_id) rest
  end.

Fixpoint enum_groups (group_id : nat) (gs : list Group) : list (nat * nat * nat) :=
  match gs with
  | [] => []
  | g :: rest => enum_params group_id 0 (params g) ++ enum_groups (S group_id) rest
  end.

(** The loop body at each of a list of positions. *)
Fixpoint run_items (P : Platform) {KState : Type} (K : Kernel KState) (polls : nat)
    (fp16 : option (list (list nat))) (its : list (nat * nat * nat))
    : M (Optimizer * World KState) unit :=
  match its with
  | [] => ret tt
  | it :: rest =>
      step_param P K polls fp16 (fst (fst it)) (snd (fst it)) (snd it) ;;
      run_items P K polls fp16 rest
  end.

(** The kernel update calls a returning [step] makes, given which objects
    carry a gradient. *)
Definition expected_sigs (hp : Heap) (fp16 : option (list (list nat)))
    (its : list (nat * nat * nat)) : list Sig :=
  its ≫= (fun it => if has_grad (hp (snd it))
                    then sig_for fp16 (fst (fst it)) (snd (fst it)) (snd it)
                    else []).

(** Nothing happened to the parameter [q]: its state entry and the number
    of kernel updates made for it are as before. *)
Definition idle {KState : Type} (q : nat) (s s' : Optimizer * World KState) : Prop :=
  state (fst s') !! q = state (fst s) !! q ∧
  updates_of q (log (snd s')) = updates_of q (log (snd s)).

(** The state in which the loops of [step] start. *)
Definition after_closure {KState : Type} (closure : option (Heap → Q * Heap))
    (s : Optimizer * World KState) : Optimizer * World KState :=
  match closure with
  | None => s
  | Some c =>
      (fst s, mkWorld (optimizer_id (snd s)) (ds_opt_adam (snd s)) (fs (snd s))
                      (now (snd s)) (snd (c (heap (snd s)))) (kstate (snd s))
                      (log (snd s)))
  end.

(** Once the slot is filled, nothing builds any more: the slot, the build
    cache and the clock stay as they are, and the log grows by kernel
    calls through the slot's handle and by the driver's own prints and
    allocations only. *)
Definition settled {KState : Type} (w w' : World KState) : Prop :=
  ∀ h, ds_opt_adam w = Some h →
       ds_opt_adam w' = Some h ∧ fs w' = fs w ∧ now w' = now w ∧
       ∃ l, log w' = log w ++ l ∧
            Forall (fun e => loader_event e = false) l ∧
            Forall (eq h) (handles_of l).

(** A relation on processes, read on the states of a method call. *)
Definition on_world {KState : Type} (R : World KState → World KState → Prop)
    (s s' : Optimizer * World KState) : Prop :=
  R (snd s) (snd s').

(** The caller's code changed the parameter objects. *)
Definition with_heap {KState : Type} (s : Optimizer * World KState) (hp : Heap)
    : Optimizer * World KState :=
  (fst s, mkWorld (optimizer_id (snd s)) (ds_opt_adam (snd s)) (fs (snd s))
                  (now (snd s)) hp (kstate (snd s)) (log (snd s))).

(** A call of [step] changes neither the instance counter nor the
    identifier of its instance. *)
Definition same_ids {KState : Type} (s s' : Optimizer * World KState) : Prop :=
  optimizer_id (snd s') = optimizer_id (snd s) ∧ opt_id (fst s') = opt_id (fst s).

(** A filled slot stays as it is, and the kernel calls added to the log
    went through the handle in the slot. *)
Definition hframe {KState : Type} (w w' : World KState) : Prop :=
  (∀ h, ds_opt_adam w = Some h → ds_opt_adam w' = Some h) ∧
  ∃ l, log w' = log w ++ l ∧ Forall (fun h => ds_opt_adam w' = Some h) (handles_of l).

(** All kernel calls in the log went through the handle in the slot. *)
Definition one_handle {KState : Type} (w : World KState) : Prop :=
  match ds_opt_adam w with
  | Some h => Forall (eq h) (handles_of (log w))
  | None => handles_of (log w) = []
  end.

(** The instance counter covers the identifiers handed out, which grow
    along the list of instances; when no constructor call was lost, they
    are the positions in the list. *)
Record ids_ok {KState : Type} (base : nat) (st : list Optimizer * World KState)
    : Prop := mkIdsOk {
  io_le : base + length (fst st) ≤ optimizer_id (snd st);
  io_bound : Forall (fun o => opt_id o < optimizer_id (snd st)) (fst st);
  io_sorted : ∀ i j oi oj, fst st !! i = Some oi → fst st !! j = Some oj →
                           i < j → opt_id oi < opt_id oj;
  io_exact : base + length (fst st) = optimizer_id (snd st) →
             ∀ i o, fst st !! i = Some o → opt_id o = base + i
}.

(** The marker files of the build cache. *)
Definition started_marker (P : Platform) : string := Path.join (ext_dir P) ["started"].
Definition done_marker (P : Platform) : string := Path.join (ext_dir P) ["done"].

(** The reading of "with a started marker and no done marker the call
    blocks, and once a done marker is written it returns the handle
    without re-invoking the compiler": in that situation some bound on the
    polls lets the call return, and whenever it returns the JIT loader has
    not been called. *)
Definition reuses_prebuilt (P : Platform) {KState : Type} (w : World KState) : Prop :=
  ds_opt_adam w = None →
  isfile (fs w) (started_marker P) = true →
  isfile (fs w) (done_marker P) = false →
  (∃ n, isfile (fs (sleep P (1000 * n) w)) (done_marker P) = true) →
  (∃ polls h w', load_op P polls w = Returns h w') ∧
  ∀ polls h w', load_op P polls w = Returns h w' →
                compiler_calls (log w') = compiler_calls (log w).

(** ** [__setstate__] *)

(** A group dictionary as a pickle holds it: one written by a version of
    the class that knew no AMSGrad flag has no ['amsgrad'] key. *)
Record GroupDict := mkGroupDict {
  d_params : list nat;
  d_lr : Q;
  d_betas : Q * Q;
  d_eps : Q;
  d_weight_decay : Q;
  d_amsgrad : option bool
}.

(** The dictionary [__setstate__] receives, as far as the driver reads it. *)
Record StateDict := mkStateDict {
  s_state : gmap nat PState;
  s_param_groups : list GroupDict
}.

(** [group.setdefault('amsgrad', False)] *)
Definition setdefault_amsgrad (d : GroupDict) : Group :=
  {| params := d_params d; lr := d_lr d; betas := d_betas d; eps := d_eps d;
     weight_decay := d_weight_decay d;
     amsgrad := default false (d_amsgrad d) |}.

(** [__setstate__]: the base class replaces the attributes the dictionary
    names, here the state and the groups, and every group is then given
    the flag it lacks.  The identifier is no part of the dictionary. *)
Definition setstate (self : Optimizer) (st : StateDict) : Optimizer :=
  {| opt_id := opt_id self;
     param_groups := map setdefault_amsgrad (s_param_groups st);
     state := s_state st |}.

(** ** Vocabulary of the further statements *)

(** Two group dictionaries that differ in the ['amsgrad'] key at most. *)
Definition same_but_amsgrad (d1 d2 : GroupDict) : Prop :=
  d_params d1 = d_params d2 ∧ d_lr d1 = d_lr d2 ∧ d_betas d1 = d_betas d2 ∧
  d_eps d1 = d_eps d2 ∧ d_weight_decay d1 = d_weight_decay d2.

(** The identifier a [create_adam] call registers, and the identifier an
    update call is made for. *)
Definition create_id (e : Event) : option nat :=
  match e with
  | CreateAdam _ id _ _ _ _ _ => Some id
  | _ => None
  end.

Definition update_id (e : Event) : option nat :=
  match e with
  | AdamUpdate _ id _ _ _ _ _ => Some id
  | AdamUpdateCopy _ id _ _ _ _ _ _ _ => Some id
  | _ => None
  end.

Definition create_ids (l : list Event) : list nat := omap create_id l.
Definition update_ids (l : list Event) : list nat := omap update_id l.

(** Every update call in the log comes after a [create_adam] call for its
    identifier. *)
Definition created_before (l : list Event) : Prop :=
  ∀ l1 e l2 i, l = l1 ++ e :: l2 → update_id e = Some i → i ∈ create_ids l1.

(** A call on an instance registers nothing with the kernel and makes
    update calls for the identifier of its instance only. *)
Definition own_calls {KState : Type} (s s' : Optimizer * World KState) : Prop :=
  opt_id (fst s') = opt_id (fst s) ∧
  ∃ l, log (snd s') = log (snd s) ++ l ∧ create_ids l = [] ∧
       Forall (eq (opt_id (fst s))) (update_ids l).

(** What ties the log to the instances of a program: the registrations
    have pairwise different identifiers below the instance counter, every
    instance is registered, and no update precedes its registration. *)
Record registered {KState : Type} (st : list Optimizer * World KState) : Prop :=
  mkRegistered {
    rg_bound : Forall (fun i => i < optimizer_id (snd st)) (create_ids (log (snd st)));
    rg_nodup : NoDup (create_ids (log (snd st)));
    rg_insts : Forall (fun o => opt_id o ∈ create_ids (log (snd st))) (fst st);
    rg_order : created_before (log (snd st))
  }.

(** The reading of "for every parameter and any sequence of [step]
    calls, the step counter equals the number of those calls in which the
    parameter carried a gradient", on an instance without state. *)
Definition counts_every_gradient_call (P : Platform) {KState : Type} (K : Kernel KState)
    (polls : nat) (calls : list StepCall) (s : Optimizer * World KState) (p : nat)
    : Prop :=
  state (fst s) = ∅ →
  ∀ s', run_calls P K polls calls s = Some s' →
        steps_of (fst s') p = gradient_calls P K polls p calls s.

(** The reading of "each constructed instance receives an identifier
    equal to the number of instances constructed before it in the
    process": the [i]-th instance a program holds carries [i]. *)
Definition ids_count_instances (P : Platform) {KState : Type} (K : Kernel KState)
    (polls : nat) (acts : list Action) (w : World KState) : Prop :=
  ∀ st', run_script P K polls acts ([], w) = Some st' →
         ∀ i o, fst st' !! i = Some o → opt_id o = i.

(** The other processes never remove a file from the build cache. *)
Definition others_keep_files (P : Platform) : Prop :=
  ∀ t f, f ⊆ others P t f.

(** Nothing was removed from the build cache. *)
Definition files_kept {KState : Type} (w w' : World KState) : Prop :=
  fs w ⊆ fs w'.

(** An instance with its groups rewritten, as a learning-rate scheduler
    does between two calls of [step]. *)
Definition map_groups (f : Group → Group) (self : Optimizer) : Optimizer :=
  {| opt_id := opt_id self;
     param_groups := map f (param_groups self);
     state := state self |}.

(** An outcome with the groups of the instance it leaves rewritten; the
    process is kept as it is. *)
Definition through {KState A : Type} (f : Group → Group)
    (o : Outcome (Optimizer * World KState) A) : Outcome (Optimizer * World KState) A :=
  match o with
  | Returns a s => Returns a (map_groups f (fst s), snd s)
  | Raises e s => Raises e (map_groups f (fst s), snd s)
  | Blocked => Blocked
  end.

(** A method that does the same whatever [f] changes in the groups. *)
Definition groups_blind {KState A : Type} (f : Group → Group)
    (c : M (Optimizer * World KState) A) : Prop :=
  ∀ s, c (map_groups f (fst s), snd s) = through f (c s).

(** The counters of a call's end lie between those of its start and those
    plus the number of positions the parameter stands at. *)
Definition steps_within {KState : Type} (bound : nat → nat)
    (s s' : Optimizer * World KState) : Prop :=
  ∀ q, steps_of (fst s) q ≤ steps_of (fst s') q ∧
       steps_of (fst s') q ≤ steps_of (fst s) q + bound q.

(** The lines [step] prints. *)
Definition is_print (e : Event) : bool :=
  match e with Printed _ _ _ => true | _ => false end.

Definition prints (l : list Event) : nat := length (filter is_print l).

(** A call printed nothing and allocated nothing. *)
Definition no_announcement {KState : Type} (w w' : World KState) : Prop :=
  ∃ l, log w' = log w ++ l ∧ prints l = 0 ∧ allocations l = 0.

(** A call printed one line and allocated two buffers for every state
    entry it created, and nothing besides. *)
Definition entries_announced {KState : Type} (s s' : Optimizer * World KState) : Prop :=
  ∃ l, log (snd s') = log (snd s) ++ l ∧
       size (state (fst s')) = size (state (fst s)) + prints l ∧
       allocations l = 2 * prints l.

(** ** Further concrete processes *)

Module Cases.

(** A machine without a CUDA installation. *)
Definition no_cuda : Platform :=
  {| environ := ∅;
     CUDA_HOME := None;
     module_dir := "/opt/deepspeed/ops/adam";
     others := fun _ f => f;
     load := fun _ _ _ => Some 7 |}.

(** A machine on which the compiler fails. *)
Definition broken_compiler : Platform :=
  {| environ := ∅;
     CUDA_HOME := Some "/usr/local/cuda";
     module_dir := "/opt/deepspeed/ops/adam";
     others := fun _ f => f;
     load := fun _ _ _ => None |}.

(** A machine on which the compiler fails during the first 1000 seconds
    and works afterwards; another process finishes its own build 1500
    seconds after this one starts. *)
Definition flaky_compiler : Platform :=
  {| environ := ∅;
     CUDA_HOME := Some "/usr/local/cuda";
     module_dir := "/opt/deepspeed/ops/adam";
     others := fun now f =>
       if now =? 1500
       then {["/tmp/torch-extensions/ds_cpu_adam/done"]} ∪ f else f;
     load := fun _ now _ => if now <? 1000 then None else Some 7 |}.

(** A regular file stands where the parent of the cache directory should
    be. *)
Definition file_above : gset string :=
  {["/tmp/torch-extensions"]}.

(** A call with a half-precision group that has no entry at all. *)
Definition empty_copy_call : StepCall :=
  {| backward := fun hp => hp; closure := None;
     fp16_param_groups := Some [[]] |}.

(** A native module of which nothing but the registration is used: it
    accepts every [create_adam] and is asked for no update. *)
Definition registering_kernel : Kernel unit :=
  {| create_adam := fun _ ks _ _ _ _ _ _ => Some ks;
     adam_update := fun _ _ _ _ _ _ _ => None;
     adam_update_copy := fun _ _ _ _ _ _ _ _ => None |}.

(** A process over that module, at import and after it has constructed
    its first instance. *)
Definition at_start : World unit :=
  at_import ∅ 0 Demo.objects tt.

Definition after_first : World unit :=
  {| optimizer_id := 1; ds_opt_adam := Some 7; fs := ∅; now := 0;
     heap := Demo.objects; kstate := tt; log := [] |}.

(** A regular file stands where the cache directory should be. *)
Definition file_in_the_way : gset string :=
  {["/tmp/torch-extensions/ds_cpu_adam"]}.

(** A call with a half-precision group that is one entry short. *)
Definition short_copy_call : StepCall :=
  {| backward := fun hp => hp; closure := None;
     fp16_param_groups := Some [[4]] |}.

(** A call whose closure reports the loss 1/2 and leaves the objects
    alone. *)
Definition closure_call : StepCall :=
  {| backward := fun hp => hp; closure := Some (fun hp => ((1 # 2)%Q, hp));
     fp16_param_groups := None |}.

(** A scheduler halving every learning rate. *)
Definition halve_lr (g : Group) : Group :=
  {| params := params g; lr := (lr g / 2)%Q; betas := betas g; eps := eps g;
     weight_decay := weight_decay g; amsgrad := amsgrad g |}.

(** Two pickles of an instance over object 1: one from before the flag
    existed, one carrying it. *)
Definition old_pickle : StateDict :=
  {| s_state := ∅;
     s_param_groups := [ {| d_params := [1]; d_lr := 1 # 1000;
                            d_betas := (9 # 10, 999 # 1000); d_eps := 1 # 100000000;
                            d_weight_decay := 0; d_amsgrad := None |} ] |}.

Definition new_pickle : StateDict :=
  {| s_state := ∅;
     s_param_groups := [ {| d_params := [1]; d_lr := 1 # 1000;
                            d_betas := (9 # 10, 999 # 1000); d_eps := 1 # 100000000;
                            d_weight_decay := 0; d_amsgrad := Some true |} ] |}.

End Cases.

(** * Properties *)

Arguments sleep : simpl never.
Arguments Path.join : simpl never.
Arguments makedirs_error : simpl never.

Section Outcomes.

Context {S : Type}.

Lemma sat_bind {A B} (c : M S A) (k : A → M S B) s (Q1 : A → S → Prop) Qr Qe :
  sat (c s) Q1 Qe → (∀ a s1, Q1 a s1 → sat (k a s1) Qr Qe) →
  sat (bind c k s) Qr Qe.
Proof.
  unfold bind. intros Hc Hk. destruct (c s) as [a s1|e s1|]; simpl in *; auto.
Qed.

Lemma sat_weaken {A} (o : Outcome S A) (Qr Qr' : A → S → Prop) (Qe Qe' : S → Prop) :
  sat o Qr Qe → (∀ a s, Qr a s → Qr' a s) → (∀ s, Qe s → Qe' s) → sat o Qr' Qe'.
Proof. destruct o; simpl; auto. Qed.

Lemma sat_and {A} (o : Outcome S A) (Q1 Q2 : A → S → Prop) (E1 E2 : S → Prop) :
  sat o Q1 E1 → sat o Q2 E2 →
  sat o (fun a s => Q1 a s ∧ Q2 a s) (fun s => E1 s ∧ E2 s).
Proof. destruct o; simpl; auto. Qed.

Context (R : S → S → Prop) `{!Reflexive R} `{!Transitive R}.

Lemma keeps_ret {A} (a : A) : keeps R (ret a).
Proof. intros s. simpl. reflexivity. Qed.

Lemma keeps_raise {A} (e : Exn) : keeps R (@raise S A e).
Proof. intros s. simpl. reflexivity. Qed.

Lemma keeps_bind {A B} (c : M S A) (k : A → M S B) :
  keeps R c → (∀ a, keeps R (k a)) → keeps R (bind c k).
Proof.
  intros Hc Hk s. unfold bind. specialize (Hc s).
  destruct (c s) as [a s1|e s1|]; simpl in *; [|done..].
  specialize (Hk a s1). destruct (k a s1); simpl in *; [etransitivity; eauto..|done].
Qed.

(** After a step related by [R], a call that keeps [R] is still related
    to the first state. *)
Lemma keeps_after {A} (c : M S A) s s1 :
  keeps R c → R s s1 → sat (c s1) (fun _ s' => R s s') (fun s' => R s s').
Proof.
  intros Hc H1. specialize (Hc s1).
  destruct (c s1); simpl in *; [etransitivity; eauto..|done].
Qed.

End Outcomes.

(** ** Reading a log piece by piece *)

Lemma handles_of_app l1 l2 : handles_of (l1 ++ l2) = handles_of l1 ++ handles_of l2.
Proof. apply omap_app. Qed.

Lemma sigs_app l1 l2 : sigs (l1 ++ l2) = sigs l1 ++ sigs l2.
Proof. apply omap_app. Qed.

Lemma updates_of_app p l1 l2 : updates_of p (l1 ++ l2) = updates_of p l1 + updates_of p l2.
Proof. unfold updates_of. by rewrite sigs_app, list.filter_app, length_app. Qed.

Lemma allocations_app l1 l2 : allocations (l1 ++ l2) = allocations l1 + allocations l2.
Proof. unfold allocations. by rewrite list.filter_app, length_app. Qed.

Lemma compiler_calls_app l1 l2 :
  compiler_calls (l1 ++ l2) = compiler_calls l1 + compiler_calls l2.
Proof. unfold compiler_calls. by rewrite list.filter_app, length_app. Qed.

Lemma kernel_calls_app l1 l2 : kernel_calls (l1 ++ l2) = kernel_calls l1 ++ kernel_calls l2.
Proof. apply list.filter_app. Qed.

(** The loader's own events are no kernel calls and no allocations. *)
Lemma loader_events_silent l :
  Forall (fun e => loader_event e = true) l →
  handles_of l = [] ∧ sigs l = [] ∧ allocations l = 0 ∧ kernel_calls l = [].
Proof.
  induction 1 as [|e l He _ (IH1 & IH2 & IH3 & IH4)]; [done|].
  destruct e; try discriminate He; unfold allocations, kernel_calls in *; simpl;
    rewrite ?filter_cons; simpl; auto.
Qed.

(** ** The cache directory and its markers *)

Section Paths.

Lemma append_assoc (a b c : string) : (a +:+ b) +:+ c = a +:+ (b +:+ c).
Proof.
  induction a as [|x a IH]; [done|].
  change (String x ((a +:+ b) +:+ c) = String x (a +:+ (b +:+ c))). by rewrite IH.
Qed.

Lemma below_join d r : below d (d +:+ "/" +:+ r) = true.
Proof.
  unfold below. induction d as [|x d IH]; simpl.
  - by destruct r.
  - destruct (ascii_dec x x); [exact IH|done].
Qed.

Lemma ends_with_slash_name x : Path.ends_with_slash (x +:+ "ds_cpu_adam") = false.
Proof.
  induction x as [|c x IH]; [done|].
  change (String c x +:+ "ds_cpu_adam") with (String c (x +:+ "ds_cpu_adam")).
  destruct (x +:+ "ds_cpu_adam") as [|c' rest] eqn:E; [by destruct x|].
  exact IH.
Qed.

Lemma ext_dir_shape P : ∃ x, ext_dir P = x +:+ "ds_cpu_adam".
Proof.
  unfold ext_dir, Path.join. cbn [fold_left].
  generalize (default "/tmp/torch-extensions" (environ P !! "TORCH_EXTENSIONS_DIR")).
  intros base. unfold Path.join1. cbn [Path.starts_with_slash].
  change (bool_decide ("d"%char = "/"%char)) with false. cbv iota.
  destruct (bool_decide _ || _).
  - by exists base.
  - exists (base +:+ "/"). by rewrite append_assoc.
Qed.

(** A marker of the build cache lies below the cache directory. *)
Lemma marker_below P name :
  Path.starts_with_slash name = false →
  Path.join (ext_dir P) [name] = ext_dir P +:+ "/" +:+ name ∧
  below (ext_dir P) (Path.join (ext_dir P) [name]) = true.
Proof.
  intros Hname. destruct (ext_dir_shape P) as [x Hx].
  assert (Path.join (ext_dir P) [name] = ext_dir P +:+ "/" +:+ name) as Heq.
  { unfold Path.join. cbn [fold_left]. unfold Path.join1. rewrite Hname, Hx.
    rewrite ends_with_slash_name. rewrite bool_decide_eq_false_2; [done|].
    by destruct x. }
  split; [done|]. rewrite Heq. apply below_join.
Qed.

(** While a marker is in the cache, the cache directory exists. *)
Lemma marker_holds P (f : gset string) name :
  Path.starts_with_slash name = false →
  bool_decide (Path.join (ext_dir P) [name] ∈ f) = true →
  holds_file f (ext_dir P) = true.
Proof.
  intros Hname Hin. apply bool_decide_eq_true in Hin.
  unfold holds_file. apply existsb_exists. exists (Path.join (ext_dir P) [name]).
  split; [|by apply marker_below].
  apply list_elem_of_In, elem_of_elements, Hin.
Qed.

Lemma makedirs_error_started P (f : gset string) :
  bool_decide (ext_dir P ∈ f) = false →
  bool_decide (started_marker P ∈ f) = true →
  makedirs_error f (ext_dir P) = None.
Proof.
  intros Hdir Hstarted. unfold makedirs_error, isfile. rewrite Hdir.
  by rewrite (marker_holds P f "started").
Qed.

(** The refusals of [os.makedirs], case by case. *)
Lemma makedirs_error_cases (f : gset string) path :
  match makedirs_error f path with
  | Some e =>
      (e = FileExistsError ∧ bool_decide (path ∈ f) = true) ∨
      (e = NotADirectoryError ∧ bool_decide (path ∈ f) = false ∧
       holds_file f path = false ∧ file_on_path f path = true)
  | None => bool_decide (path ∈ f) = false
  end.
Proof.
  unfold makedirs_error, isfile. destruct (bool_decide (path ∈ f)); [by left|].
  destruct (holds_file f path); [done|].
  destruct (file_on_path f path); [by right|done].
Qed.

End Paths.

Section Loader.

Context (P : Platform) {KState : Type}.

Abbreviation WL := (World KState).

Implicit Types w : WL.

Lemma sleep_S n w : sleep P (S n) w = sleep P n (tick P w).
Proof. reflexivity. Qed.

Lemma sleep_add a b w : sleep P b (sleep P a w) = sleep P (a + b) w.
Proof.
  revert w. induction a as [|a IH]; intros w; [done|].
  simpl. rewrite !sleep_S. apply IH.
Qed.

Lemma sleep_now n w : now (sleep P n w) = now w + n.
Proof.
  revert w. induction n as [|n IH]; intros w.
  - unfold sleep. lia.
  - rewrite sleep_S, IH. simpl. lia.
Qed.

Lemma sleep_rest n w :
  optimizer_id (sleep P n w) = optimizer_id w ∧
  ds_opt_adam (sleep P n w) = ds_opt_adam w ∧
  heap (sleep P n w) = heap w ∧
  kstate (sleep P n w) = kstate w ∧
  log (sleep P n w) = log w.
Proof.
  revert w. induction n as [|n IH]; intros w; [done|].
  rewrite sleep_S. destruct (IH (tick P w)) as (-> & -> & -> & -> & ->). done.
Qed.

(** The build cache evolves by itself: what it holds after a sleep depends
    on the directory and the time only. *)
Lemma sleep_fs_ext n w1 w2 :
  fs w1 = fs w2 → now w1 = now w2 → fs (sleep P n w1) = fs (sleep P n w2).
Proof.
  revert w1 w2. induction n as [|n IH]; intros w1 w2 Hf Hn; [done|].
  rewrite !sleep_S. apply IH; simpl; congruence.
Qed.

Lemma loader_step_refl w : loader_step w w.
Proof. split; try done. exists []. by rewrite app_nil_r. Qed.

Lemma loader_step_trans w1 w2 w3 :
  loader_step w1 w2 → loader_step w2 w3 → loader_step w1 w3.
Proof.
  intros [? ? ? (l1 & ? & ?)] [? ? ? (l2 & ? & ?)].
  split; try congruence.
  exists (l1 ++ l2). split; [rewrite app_assoc; congruence|].
  by apply Forall_app.
Qed.

#[global] Instance quiet_reflexive : Reflexive (@quiet KState).
Proof. intros w. split; [apply loader_step_refl|done]. Qed.

#[global] Instance quiet_transitive : Transitive (@quiet KState).
Proof.
  intros w1 w2 w3 [? ?] [? ?]. split; [by eapply loader_step_trans|congruence].
Qed.

Lemma sleep_quiet n w : quiet w (sleep P n w).
Proof.
  destruct (sleep_rest n w) as (? & ? & ? & ? & ?).
  split; [|done]. split; try congruence. exists []. by rewrite app_nil_r.
Qed.

Lemma emit_quiet e :
  loader_event e = true → keeps quiet (emit (KState := KState) e).
Proof.
  intros He w. simpl. split; [|done]. split; try done.
  exists [e]. split; [done|]. by constructor.
Qed.

Lemma wait_done_quiet polls ext_path :
  keeps quiet (wait_done P (KState := KState) polls ext_path).
Proof.
  induction polls as [|k IH]; intros w; simpl; [done|].
  destruct (isfile _ _); simpl; [reflexivity|].
  apply keeps_after; [apply _|done|apply sleep_quiet].
Qed.

Lemma wait_if_build_started_quiet polls ext_path :
  keeps quiet (wait_if_build_started P (KState := KState) polls ext_path).
Proof.
  intros w. unfold wait_if_build_started.
  destruct (isfile _ _); [apply wait_done_quiet|]. simpl. reflexivity.
Qed.

Lemma makedirs_quiet path : keeps quiet (makedirs (KState := KState) path).
Proof.
  apply keeps_bind; try apply _; [by apply emit_quiet|].
  intros _ w. destruct (makedirs_error _ _); simpl; reflexivity.
Qed.

Lemma touch_quiet path : keeps quiet (touch (KState := KState) path).
Proof.
  apply keeps_bind; try apply _; [by apply emit_quiet|].
  intros _ w. simpl. split; [|done]. split; try done. exists []. by rewrite app_nil_r.
Qed.

Lemma jit_load_quiet call : keeps quiet (jit_load P (KState := KState) call).
Proof.
  apply keeps_bind; try apply _; [by apply emit_quiet|].
  intros _ w. destruct (load _ _ _ _); simpl; reflexivity.
Qed.

(** Whatever [load_op] does, it leaves the parameter objects, the kernel's
    state and the instance counter alone and logs only its own calls; the
    slot holds the handle it returns, and is as it was when it raises. *)
Lemma load_op_effects polls w :
  sat (load_op P polls w)
      (fun h w' => loader_step w w' ∧ ds_opt_adam w' = Some h)
      (fun w' => quiet w w').
Proof.
  unfold load_op.
  destruct (ds_opt_adam w) as [h|] eqn:Hslot; simpl.
  { split; [apply loader_step_refl|done]. }
  cbv zeta.
  eapply sat_bind; [apply makedirs_quiet|]. intros [] w1 H1. simpl in H1.
  eapply sat_bind; [apply (keeps_after quiet); [apply wait_if_build_started_quiet|exact H1]|].
  intros [] w2 H2. simpl in H2.
  eapply sat_bind; [apply (keeps_after quiet); [apply touch_quiet|exact H2]|].
  intros [] w3 H3. simpl in H3.
  destruct (CUDA_HOME P) as [home|]; [|exact H3].
  eapply sat_bind; [apply (keeps_after quiet); [apply jit_load_quiet|exact H3]|].
  intros h w4 [H4 _]. simpl.
  split; [|done]. destruct H4 as [? ? ? (l & ? & ?)].
  split; try done. simpl. exists (l ++ [Touch (Path.join (ext_dir P) ["done"])]).
  split; [by rewrite app_assoc, <- H|]. apply Forall_app. split; [done|by constructor].
Qed.

(** A filled slot makes [load_op] a pure read. *)
Lemma load_op_cached polls w h :
  ds_opt_adam w = Some h → load_op P polls w = Returns h w.
Proof. intros H. unfold load_op. by rewrite H. Qed.

(** *** Polling for the "done" marker *)

Lemma wait_done_never polls ext_path w :
  (∀ n, isfile (fs (sleep P (1000 * n) w)) (Path.join ext_path ["done"]) = false) →
  wait_done P polls ext_path w = Blocked.
Proof.
  revert w. induction polls as [|k IH]; intros w Hnever; [done|].
  simpl. pose proof (Hnever 0) as H0. rewrite Nat.mul_0_r in H0.
  unfold sleep in H0. rewrite H0. simpl. apply IH. intros n.
  rewrite sleep_add. replace (1000 + 1000 * n) with (1000 * S n) by lia. apply Hnever.
Qed.

(** If some poll finds the marker, the loop ends at the first poll that
    does: with enough polls it returns the process as it is at that time,
    with fewer it is still waiting. *)
Lemma wait_done_sees ext_path n w :
  isfile (fs (sleep P (1000 * n) w)) (Path.join ext_path ["done"]) = true →
  ∃ m, m ≤ n ∧
       (isfile (fs w) (Path.join ext_path ["done"]) = false → 0 < m) ∧
       ∀ polls, wait_done P polls ext_path w =
                if decide (polls ≤ m) then Blocked
                else Returns tt (sleep P (1000 * m) w).
Proof.
  revert w. induction n as [|n IH]; intros w Hseen.
  - rewrite Nat.mul_0_r in Hseen. unfold sleep in Hseen.
    exists 0. split; [done|]. split; [congruence|].
    intros [|k]; [done|]. simpl. rewrite Hseen. simpl.
    repeat case_decide; try lia; reflexivity.
  - destruct (isfile (fs w) (Path.join ext_path ["done"])) eqn:Hnow.
    + exists 0. split; [lia|]. split; [done|].
      intros [|k]; [done|]. simpl. rewrite Hnow. simpl.
      repeat case_decide; try lia; reflexivity.
    + destruct (IH (sleep P 1000 w)) as (m & Hm & _ & Hwait).
      { rewrite sleep_add. by replace (1000 + 1000 * n) with (1000 * S n) by lia. }
      exists (S m). split; [lia|]. split; [lia|].
      intros [|k]; [done|]. simpl. rewrite Hnow. simpl. rewrite Hwait.
      rewrite sleep_add. replace (1000 + 1000 * m) with (1000 * S m) by lia.
      repeat case_decide; done || lia.
Qed.

(** C4: a "started" marker whose "done" marker never appears keeps
    [wait_if_build_started], and with it [load_op], waiting under every
    bound on the number of polls; without a "started" marker, or with the
    "done" marker already there, [wait_if_build_started] returns at
    once. *)
Theorem wait_if_build_started_blocks_iff_no_done (w : WL) :
  (isfile (fs w) (started_marker P) = true →
   (∀ t, isfile (fs (sleep P t w)) (done_marker P) = false) →
   ∀ polls,
     wait_if_build_started P polls (ext_dir P) w = Blocked ∧
     (ds_opt_adam w = None → isfile (fs w) (ext_dir P) = false →
      load_op P polls w = Blocked)) ∧
  (isfile (fs w) (started_marker P) = false ∨
   isfile (fs w) (done_marker P) = true →
   ∀ polls, wait_if_build_started P (S polls) (ext_dir P) w = Returns tt w).
Proof.
  split.
  - intros Hstarted Hnever polls. split.
    + unfold wait_if_build_started. unfold started_marker in Hstarted.
      rewrite Hstarted. apply wait_done_never. intros n. apply Hnever.
    + intros Hslot Hdir. unfold load_op. rewrite Hslot.
      unfold bind, makedirs, bind, emit. simpl.
      rewrite (makedirs_error_started P (fs w) Hdir Hstarted).
      unfold wait_if_build_started. simpl. unfold started_marker in Hstarted.
      rewrite Hstarted. rewrite wait_done_never; [done|].
      intros n. erewrite sleep_fs_ext; [apply (Hnever (1000 * n))|done..].
  - intros Hfree polls. unfold wait_if_build_started.
    unfold started_marker, done_marker in Hfree.
    destruct (isfile (fs w) (Path.join (ext_dir P) ["started"])) eqn:Hs; [|done].
    destruct Hfree as [|Hd]; [done|]. simpl. by rewrite Hd.
Qed.

(** C1, as the code has it: with the slot empty, a "started" marker
    present and the "done" marker found by some poll, [load_op] stays
    blocked until the first poll that finds the marker (at least one sleep
    if it is missing at the call) and then carries on as any builder does:
    it writes "started", calls the JIT loader with the full sources and
    flags, and once that succeeds fills the slot, writes "done" and returns
    the handle the loader gave; a failing loader raises [BuildError] with
    the slot still empty. *)
Theorem load_op_waits_then_loads (w : WL) (home : string) (n : nat) :
  ds_opt_adam w = None →
  isfile (fs w) (ext_dir P) = false →
  isfile (fs w) (started_marker P) = true →
  CUDA_HOME P = Some home →
  isfile (fs (sleep P (1000 * n) w)) (done_marker P) = true →
  ∃ m, m ≤ n ∧
    (isfile (fs w) (done_marker P) = false → 0 < m) ∧
    (∀ polls, polls ≤ m → load_op P polls w = Blocked) ∧
    ∀ polls, m < polls →
      let w1 := sleep P (1000 * m) w in
      let f := {[started_marker P]} ∪ fs w1 in
      let l := log w ++ [Makedirs (ext_dir P); Touch (started_marker P);
                         JitLoad (load_call P home)] in
      load_op P polls w =
        match load P (load_call P home) (now w + 1000 * m) f with
        | Some h =>
            Returns h (mkWorld (optimizer_id w) (Some h) ({[done_marker P]} ∪ f)
                               (now w + 1000 * m) (heap w) (kstate w)
                               (l ++ [Touch (done_marker P)]))
        | None =>
            Raises BuildError (mkWorld (optimizer_id w) None f (now w + 1000 * m)
                                       (heap w) (kstate w) l)
        end.
Proof.
  intros Hslot Hdir Hstarted Hhome Hseen.
  unfold started_marker, done_marker in *.
  set (we := mkWorld (optimizer_id w) (ds_opt_adam w) (fs w) (now w) (heap w)
                     (kstate w) (log w ++ [Makedirs (ext_dir P)])).
  destruct (wait_done_sees (ext_dir P) n we) as (m & Hm & Hpos & Hwait).
  { erewrite sleep_fs_ext; [exact Hseen|done..]. }
  exists m. split; [done|]. split; [exact Hpos|].
  assert (∀ polls, load_op P polls w =
    bind (wait_done P polls (ext_dir P))
      (fun _ => touch (Path.join (ext_dir P) ["started"]);;
                do h <- jit_load P (load_call P home);
                set_ds_opt_adam h;; touch (Path.join (ext_dir P) ["done"]);; ret h) we)
    as Heq.
  { intros polls. unfold load_op. rewrite Hslot, Hhome.
    unfold bind at 1. unfold makedirs, bind at 1. unfold emit at 1.
    fold we. change (fs we) with (fs w).
    rewrite (makedirs_error_started P (fs w) Hdir Hstarted).
    unfold bind at 1. unfold wait_if_build_started.
    change (fs we) with (fs w). rewrite Hstarted. reflexivity. }
  split.
  - intros polls Hle. rewrite Heq. unfold bind at 1. rewrite Hwait.
    by rewrite decide_True.
  - intros polls Hlt. cbv zeta. rewrite Heq. unfold bind at 1. rewrite Hwait.
    rewrite decide_False by lia.
    generalize (1000 * m). intros d.
    destruct (sleep_rest d we) as (Hid & Hsl & Hhp & Hks & Hlog).
    pose proof (sleep_now d we) as Hnow.
    pose proof (sleep_fs_ext d we w eq_refl eq_refl) as Hfs.
    unfold touch, jit_load, set_ds_opt_adam, bind, emit, ret, with_fs. simpl.
    rewrite Hid, Hsl, Hhp, Hks, Hlog, Hnow, Hfs. simpl.
    rewrite Hslot.
    destruct (load P (load_call P home) (now w + d) _) as [h|]; simpl.
    + by rewrite <- !app_assoc.
    + by rewrite <- !app_assoc.
Qed.

Lemma wait_if_build_started_log polls ext_path w :
  sat (wait_if_build_started P polls ext_path w)
      (fun _ w' => log w' = log w) (fun w' => log w' = log w).
Proof.
  unfold wait_if_build_started. destruct (isfile _ _); [|reflexivity].
  revert w. induction polls as [|k IH]; intros w; simpl; [done|].
  destruct (isfile _ _); simpl; [reflexivity|].
  destruct (sleep_rest 1000 w) as (_ & _ & _ & _ & Hlog).
  specialize (IH (sleep P 1000 w)). rewrite Hlog in IH. exact IH.
Qed.

(** A call that finds the slot empty and returns has called the JIT
    loader exactly once and left its handle in the slot; from then on
    [load_op] returns that handle and changes nothing at all. *)
Lemma load_op_first_then_cached polls (w : WL) h w' :
  load_op P polls w = Returns h w' →
  ds_opt_adam w' = Some h ∧
  (ds_opt_adam w = None → compiler_calls (log w') = S (compiler_calls (log w))) ∧
  ∀ polls', load_op P polls' w' = Returns h w'.
Proof.
  intros Hret.
  pose proof (load_op_effects polls w) as Heff. rewrite Hret in Heff.
  destruct Heff as [_ Hslot']. split; [done|]. split; [|intros; by apply load_op_cached].
  intros Hslot. revert Hret. unfold load_op. rewrite Hslot.
  unfold bind at 1. unfold makedirs, bind at 1, emit. simpl.
  destruct (makedirs_error (fs w) (ext_dir P)); [done|].
  unfold bind at 1.
  match goal with |- context [wait_if_build_started P polls (ext_dir P) ?we] =>
    pose proof (wait_if_build_started_log polls (ext_dir P) we) as Hlog;
    destruct (wait_if_build_started P polls (ext_dir P) we) as [[] w2|e w2|]; [|done..]
  end.
  simpl in Hlog.
  destruct (CUDA_HOME P) as [home|]; [|done].
  unfold touch, jit_load, set_ds_opt_adam, bind, emit, ret, with_fs. simpl.
  destruct (load P _ _ _); [|done]. intros [= <- <-]. simpl. rewrite Hlog.
  rewrite !compiler_calls_app. unfold compiler_calls. simpl. lia.
Qed.

End Loader.


(** ** The loop body *)

Section Body.

Context (P : Platform) {KState : Type} (K : Kernel KState).

Abbreviation OWB := (Optimizer * World KState)%type.

Implicit Types s : OWB.

Lemma logged_nil (w : World KState) : logged w [] = w.
Proof. destruct w. unfold logged. simpl. by rewrite app_nil_r. Qed.

Lemma logged_logged (w : World KState) l1 l2 : logged (logged w l1) l2 = logged w (l1 ++ l2).
Proof. unfold logged. simpl. by rewrite app_assoc. Qed.

Lemma set_state_twice self p a b : set_state (set_state self p a) p b = set_state self p b.
Proof. unfold set_state. simpl. by rewrite insert_insert_eq. Qed.

Lemma set_state_id self p st : state self !! p = Some st → set_state self p st = self.
Proof. intros H. destruct self. unfold set_state. simpl in *. by rewrite insert_id. Qed.

(** Fetching the state of [p] never fails: it yields the entry the body
    works on, stores it, and logs the initialisation when there was
    none. *)
Lemma state_of_eq group_id param_id p s :
  state_of group_id param_id p s =
  Returns (entry_of s p)
          (set_state (fst s) p (entry_of s p),
           logged (snd s) (init_events s group_id param_id p)).
Proof.
  unfold state_of, entry_of, init_events.
  destruct (state (fst s) !! p) as [st|] eqn:Hst; simpl.
  - rewrite logged_nil, (set_state_id _ _ _ Hst). by destruct s.
  - unfold bind, in_world, emit, logged. simpl. by rewrite <- !app_assoc.
Qed.

(** The body, for a parameter with a gradient, up to the kernel call. *)
Lemma step_param_unfold polls fp16 group_id param_id p g s :
  grad (heap (snd s) p) = Some g →
  step_param P K polls fp16 group_id param_id p s =
  (do ds_opt_adam <- in_world (load_op P polls) ;
   match fp16 with
   | Some groups =>
       do p_fp16 <- index2 groups group_id param_id ;
       call_adam_update_copy K ds_opt_adam p g (bumped (entry_of s p)) p_fp16
   | None => call_adam_update K ds_opt_adam p g (bumped (entry_of s p))
   end)
    (set_state (fst s) p (bumped (entry_of s p)),
     logged (snd s) (init_events s group_id param_id p)).
Proof.
  intros Hg. unfold step_param. rewrite Hg.
  unfold bind at 1. rewrite state_of_eq.
  unfold bind at 1. unfold bump. cbn [fst snd]. by rewrite set_state_twice.
Qed.

Lemma step_param_skip polls fp16 group_id param_id p s :
  grad (heap (snd s) p) = None →
  step_param P K polls fp16 group_id param_id p s = Returns tt s.
Proof. intros Hg. unfold step_param. by rewrite Hg. Qed.

(** What a returning body has done for a parameter with a gradient. *)
Lemma step_param_returns polls fp16 group_id param_id p g s s' :
  grad (heap (snd s) p) = Some g →
  step_param P K polls fp16 group_id param_id p s = Returns tt s' →
  ∃ h l ks' d' m' v',
    Forall (fun e => loader_event e = true) l ∧
    ds_opt_adam (snd s') = Some h ∧
    (∀ h0, ds_opt_adam (snd s) = Some h0 →
           h0 = h ∧ l = [] ∧ fs (snd s') = fs (snd s) ∧ now (snd s') = now (snd s)) ∧
    fst s' = set_state (fst s) p (written (bumped (entry_of s p)) m' v') ∧
    optimizer_id (snd s') = optimizer_id (snd s) ∧
    kstate (snd s') = ks' ∧
    match fp16 with
    | None =>
        adam_update K h (kstate (snd s)) (opt_id (fst s)) (data (heap (snd s) p)) g
                    (exp_avg (entry_of s p)) (exp_avg_sq (entry_of s p))
          = Some (ks', (d', m', v')) ∧
        heap (snd s') = set_data (heap (snd s)) p d' ∧
        log (snd s') = log (snd s) ++ init_events s group_id param_id p ++ l ++
          [AdamUpdate h (opt_id (fst s)) p (data (heap (snd s) p)) g
                      (exp_avg (entry_of s p)) (exp_avg_sq (entry_of s p))]
    | Some groups =>
        ∃ q c',
          groups !! group_id ≫= (.!! param_id) = Some q ∧
          adam_update_copy K h (kstate (snd s)) (opt_id (fst s))
                           (data (heap (snd s) p)) g
                           (exp_avg (entry_of s p)) (exp_avg_sq (entry_of s p))
                           (data (heap (snd s) q))
            = Some (ks', (d', m', v', c')) ∧
          heap (snd s') = set_data (set_data (heap (snd s)) p d') q c' ∧
          log (snd s') = log (snd s) ++ init_events s group_id param_id p ++ l ++
            [AdamUpdateCopy h (opt_id (fst s)) p (data (heap (snd s) p)) g
                            (exp_avg (entry_of s p)) (exp_avg_sq (entry_of s p))
                            q (data (heap (snd s) q))]
    end.
Proof.
  intros Hg. rewrite (step_param_unfold _ _ _ _ _ g) by done.
  unfold bind at 1, in_world at 1. cbn [fst snd].
  pose proof (load_op_effects P polls (logged (snd s) (init_events s group_id param_id p)))
    as Heff.
  assert (∀ h0, ds_opt_adam (snd s) = Some h0 →
            load_op P polls (logged (snd s) (init_events s group_id param_id p))
            = Returns h0 (logged (snd s) (init_events s group_id param_id p))) as Hcached.
  { intros h0 H0. by apply load_op_cached. }
  destruct (load_op P polls _) as [h w2|e w2|]; [|done..].
  destruct Heff as [[Hhp Hks Hid (l & Hl & Hfl)] Hslot]. simpl in Hhp, Hks, Hid, Hl.
  assert (∀ h0, ds_opt_adam (snd s) = Some h0 →
            h0 = h ∧ l = [] ∧ fs w2 = fs (snd s) ∧ now w2 = now (snd s)) as Hsame.
  { intros h0 H0. specialize (Hcached h0 H0). injection Hcached as -> ->.
    split_and!; try done. simpl in Hl. rewrite <- (app_nil_r (log _ ++ _)) in Hl at 1.
    by apply app_inv_head in Hl. }
  destruct fp16 as [groups|].
  - unfold bind at 1, index2.
    destruct (groups !! group_id) as [grp|] eqn:Hgrp; [|done].
    destruct (grp !! param_id) as [q|] eqn:Hq; [|done].
    unfold ret at 1. unfold call_adam_update_copy, bind, in_world, emit. cbn [fst snd].
    cbn [kstate heap opt_id set_state]. rewrite Hhp, Hks.
    destruct (adam_update_copy K h _ _ _ _ _ _ _) as [[ks' [[[d' m'] v'] c']]|] eqn:Hk;
      [|done].
    intros [= <-]. exists h, l, ks', d', m', v'. cbn [fst snd].
    split_and!; try done.
    + by rewrite set_state_twice.
    + exists q, c'. split_and!; try done.
      cbn [log]. rewrite Hl. by rewrite <- !app_assoc.
  - unfold call_adam_update, bind, in_world, emit. cbn [fst snd].
    cbn [kstate heap opt_id set_state]. rewrite Hhp, Hks.
    destruct (adam_update K h _ _ _ _ _ _) as [[ks' [[d' m'] v']]|] eqn:Hk; [|done].
    intros [= <-]. exists h, l, ks', d', m', v'. cbn [fst snd].
    split_and!; try done.
    + by rewrite set_state_twice.
    + cbn [log]. rewrite Hl. by rewrite <- !app_assoc.
Qed.

(** What a raising body has done: the entry is stored with its counter
    already incremented, no buffer was written, and the log ends with the
    loader's events and, when it is the kernel that failed, with the
    failing call. *)
Lemma step_param_raises polls fp16 group_id param_id p g s e s' :
  grad (heap (snd s) p) = Some g →
  step_param P K polls fp16 group_id param_id p s = Raises e s' →
  fst s' = set_state (fst s) p (bumped (entry_of s p)) ∧
  heap (snd s') = heap (snd s) ∧
  kstate (snd s') = kstate (snd s) ∧
  optimizer_id (snd s') = optimizer_id (snd s) ∧
  (∀ h, ds_opt_adam (snd s) = Some h → ds_opt_adam (snd s') = Some h) ∧
  ∃ l, log (snd s') = log (snd s) ++ init_events s group_id param_id p ++ l ∧
       allocations l = 0 ∧
       Forall (fun h => ds_opt_adam (snd s') = Some h) (handles_of l) ∧
       (sigs l = [] ∨ (e = KernelError ∧ ∃ sg, sigs l = [sg] ∧ sig_param sg = p)) ∧
       (∀ h0, ds_opt_adam (snd s) = Some h0 →
              fs (snd s') = fs (snd s) ∧ now (snd s') = now (snd s) ∧
              Forall (fun e => loader_event e = false) l).
Proof.
  intros Hg. rewrite (step_param_unfold _ _ _ _ _ g) by done.
  unfold bind at 1, in_world at 1. cbn [fst snd].
  pose proof (load_op_effects P polls (logged (snd s) (init_events s group_id param_id p)))
    as Heff.
  assert (∀ h0, ds_opt_adam (snd s) = Some h0 →
            load_op P polls (logged (snd s) (init_events s group_id param_id p))
            = Returns h0 (logged (snd s) (init_events s group_id param_id p))) as Hcached.
  { intros h0 H0. by apply load_op_cached. }
  destruct (load_op P polls _) as [h w2|e2 w2|]; [| |done].
  - destruct Heff as [[Hhp Hks Hid (l & Hl & Hfl)] Hslot]. simpl in Hhp, Hks, Hid, Hl.
    destruct (loader_events_silent l Hfl) as (Hh & Hs & Ha & _).
    assert (∀ h0, ds_opt_adam (snd s) = Some h0 → ds_opt_adam w2 = Some h0) as Hkeep.
    { intros h0 H0. specialize (Hcached h0 H0). injection Hcached as -> ->. done. }
    assert (∀ h0, ds_opt_adam (snd s) = Some h0 →
              l = [] ∧ fs w2 = fs (snd s) ∧ now w2 = now (snd s)) as Hquiet.
    { intros h0 H0. specialize (Hcached h0 H0). injection Hcached as -> ->.
      split_and!; try done. simpl in Hl. rewrite <- (app_nil_r (log _ ++ _)) in Hl at 1.
      by apply app_inv_head in Hl. }
    destruct fp16 as [groups|].
    + unfold bind at 1, index2.
      destruct (groups !! group_id) as [grp|]; [destruct (grp !! param_id) as [q|]|].
      2,3: (intros [= <- <-]; cbn [fst snd]; split_and!; try done; exists l;
            split_and!; [by rewrite Hl, <- app_assoc|done|rewrite Hh; constructor|by left|];
            intros h0 H0; destruct (Hquiet h0 H0) as (-> & ? & ?); by split_and!).
      unfold ret at 1. unfold call_adam_update_copy, bind, in_world, emit. cbn [fst snd].
      cbn [kstate heap opt_id set_state]. rewrite Hhp, Hks.
      destruct (adam_update_copy K h _ _ _ _ _ _ _) as [[ks' [[[d' m'] v'] c']]|]; [done|].
      intros [= <- <-]. cbn [fst snd]. split_and!; try done.
      eexists (l ++ [_]). split_and!.
      * cbn [log]. rewrite Hl. by rewrite <- !app_assoc.
      * rewrite allocations_app, Ha. done.
      * rewrite handles_of_app, Hh. cbn. by repeat constructor.
      * right. split; [done|]. rewrite sigs_app, Hs. cbn. eauto.
      * intros h0 H0. destruct (Hquiet h0 H0) as (-> & ? & ?).
        split_and!; try done. by repeat constructor.
    + unfold call_adam_update, bind, in_world, emit. cbn [fst snd].
      cbn [kstate heap opt_id set_state]. rewrite Hhp, Hks.
      destruct (adam_update K h _ _ _ _ _ _) as [[ks' [[d' m'] v']]|]; [done|].
      intros [= <- <-]. cbn [fst snd]. split_and!; try done.
      eexists (l ++ [_]). split_and!.
      * cbn [log]. rewrite Hl. by rewrite <- !app_assoc.
      * rewrite allocations_app, Ha. done.
      * rewrite handles_of_app, Hh. cbn. by repeat constructor.
      * right. split; [done|]. rewrite sigs_app, Hs. cbn. eauto.
      * intros h0 H0. destruct (Hquiet h0 H0) as (-> & ? & ?).
        split_and!; try done. by repeat constructor.
  - destruct Heff as [[Hhp Hks Hid (l & Hl & Hfl)] Hslot]. simpl in Hhp, Hks, Hid, Hl, Hslot.
    destruct (loader_events_silent l Hfl) as (Hh & Hs & Ha & _).
    intros [= <- <-]. cbn [fst snd]. split_and!; try done; [congruence|].
    exists l. split_and!; [by rewrite Hl, <- app_assoc|done|rewrite Hh; constructor|by left|].
    intros h0 H0. specialize (Hcached h0 H0). discriminate Hcached.
Qed.

End Body.

(** ** What the loops leave alone *)

Section Frames.

Context (P : Platform) {KState : Type} (K : Kernel KState).

Abbreviation OWF := (Optimizer * World KState)%type.

Implicit Types s : OWF.

Lemma set_data_grad (hp : Heap) p vs q : grad (set_data hp p vs q) = grad (hp q).
Proof.
  unfold set_data. destruct (decide (p = q)) as [->|Hne].
  - by rewrite fn_lookup_insert.
  - by rewrite fn_lookup_insert_ne.
Qed.

Lemma set_data_descr (hp : Heap) p vs q :
  descr (data (set_data hp p vs q)) = descr (data (hp q)).
Proof.
  unfold set_data. destruct (decide (p = q)) as [->|Hne].
  - by rewrite fn_lookup_insert.
  - by rewrite fn_lookup_insert_ne.
Qed.



Lemma wframe_refl (w : World KState) : wframe w w.
Proof. split; try done. exists []. rewrite app_nil_r. split; [done|constructor]. Qed.

Lemma wframe_trans (w1 w2 w3 : World KState) : wframe w1 w2 → wframe w2 w3 → wframe w1 w3.
Proof.
  intros [Hg1 Hd1 Hi1 Hs1 (l1 & Hl1 & Hh1)] [Hg2 Hd2 Hi2 Hs2 (l2 & Hl2 & Hh2)].
  split.
  - intros q. by rewrite Hg2.
  - intros q. by rewrite Hd2.
  - congruence.
  - auto.
  - exists (l1 ++ l2). split; [rewrite app_assoc; congruence|].
    rewrite handles_of_app. apply Forall_app. split; [|done].
    eapply list.Forall_impl; [exact Hh1|]. simpl. auto.
Qed.

#[global] Instance frame_reflexive : Reflexive (@frame KState).
Proof.
  intros s. split; [apply wframe_refl|done..|].
  intros q st Hst. exists st. by split_and!.
Qed.

#[global] Instance frame_transitive : Transitive (@frame KState).
Proof.
  intros s1 s2 s3 [Hw1 Ho1 Hp1 He1] [Hw2 Ho2 Hp2 He2].
  split; [by eapply wframe_trans|congruence..|].
  intros q st Hst. destruct (He1 q st Hst) as (st2 & Hst2 & Ha & Hb & Hc).
  destruct (He2 q st2 Hst2) as (st3 & Hst3 & Ha' & Hb' & Hc').
  exists st3. split_and!; [done|congruence..|lia].
Qed.

(** The body of the loop, however it ends, respects [frame]. *)
Lemma step_param_frame polls fp16 group_id param_id p :
  keeps frame (step_param P K polls fp16 group_id param_id p).
Proof.
  intros s. destruct (grad (heap (snd s) p)) as [g|] eqn:Hg.
  2: { rewrite step_param_skip by done. simpl. reflexivity. }
  assert (∀ st', ∀ q st, state (fst s) !! q = Some st →
    descr (exp_avg st') = descr (exp_avg (entry_of s p)) →
    descr (exp_avg_sq st') = descr (exp_avg_sq (entry_of s p)) →
    step_count (entry_of s p) ≤ step_count st' →
    ∃ st2, state (set_state (fst s) p st') !! q = Some st2 ∧
           descr (exp_avg st2) = descr (exp_avg st) ∧
           descr (exp_avg_sq st2) = descr (exp_avg_sq st) ∧
           step_count st ≤ step_count st2) as Hentries.
  { intros st' q st Hst Ha Hb Hc. unfold set_state. cbn [state].
    destruct (decide (p = q)) as [->|Hne].
    - rewrite lookup_insert_eq. exists st'. unfold entry_of in *. rewrite Hst in *.
      simpl in *. by split_and!.
    - rewrite lookup_insert_ne by done. exists st. by split_and!. }
  destruct (step_param P K polls fp16 group_id param_id p s) as [[] s'|e s'|] eqn:Hrun;
    simpl; [| |done].
  - destruct (step_param_returns P K _ _ _ _ _ g _ _ Hg Hrun)
      as (h & l & ks' & d' & m' & v' & Hfl & Hslot & Hsame & Hself & Hid & Hks & Hrest).
    destruct (loader_events_silent l Hfl) as (Hh & _ & _ & _).
    split.
    + assert (∃ hp' e0, heap (snd s') = hp' ∧
               (∀ q, grad (hp' q) = grad (heap (snd s) q)) ∧
               (∀ q, descr (data (hp' q)) = descr (data (heap (snd s) q))) ∧
               log (snd s') = log (snd s) ++ init_events s group_id param_id p ++ l ++ [e0] ∧
               handle_of e0 = Some h) as (hp' & e0 & Hhp & Hgr & Hde & Hlog & He0).
      { destruct fp16 as [groups|].
        - destruct Hrest as (q & c' & _ & _ & Hhp & Hlog).
          eexists _, _. split_and!; [exact Hhp| | |exact Hlog|done].
          + intros x. by rewrite !set_data_grad.
          + intros x. by rewrite !set_data_descr.
        - destruct Hrest as (_ & Hhp & Hlog).
          eexists _, _. split_and!; [exact Hhp| | |exact Hlog|done].
          + intros x. by rewrite !set_data_grad.
          + intros x. by rewrite !set_data_descr. }
      split.
      * intros q. by rewrite Hhp.
      * intros q. by rewrite Hhp.
      * done.
      * intros h0 H0. destruct (Hsame h0 H0) as [-> _]. done.
      * eexists. split; [exact Hlog|].
        rewrite !handles_of_app, Hh. cbn. rewrite He0.
        assert (handles_of (init_events s group_id param_id p) = []) as ->.
        { unfold init_events. by destruct (state (fst s) !! p). }
        cbn. by repeat constructor.
    + by rewrite Hself.
    + by rewrite Hself.
    + rewrite Hself. intros q st Hst. apply Hentries; try done. cbn. lia.
  - destruct (step_param_raises P K _ _ _ _ _ g _ _ _ Hg Hrun)
      as (Hself & Hhp & Hks & Hid & Hslot & l & Hlog & _ & Hh & _).
    split.
    + split.
      * intros q. by rewrite Hhp.
      * intros q. by rewrite Hhp.
      * done.
      * done.
      * eexists. split; [exact Hlog|]. rewrite handles_of_app.
        assert (handles_of (init_events s group_id param_id p) = []) as ->.
        { unfold init_events. by destruct (state (fst s) !! p). }
        done.
    + by rewrite Hself.
    + by rewrite Hself.
    + rewrite Hself. intros q st Hst. apply Hentries; try done. cbn. lia.
Qed.

Lemma params_loop_items polls fp16 group_id param_id ps (k : M OWF unit) s :
  bind (params_loop P K polls fp16 group_id param_id ps) (fun _ => k) s =
  bind (run_items P K polls fp16 (enum_params group_id param_id ps)) (fun _ => k) s.
Proof.
  revert param_id s. induction ps as [|p ps IH]; intros param_id s; [done|].
  simpl. unfold bind at 1 2 3 4. cbn [fst snd].
  destruct (step_param P K polls fp16 group_id param_id p s) as [[] s1|e s1|]; [|done..].
  apply IH.
Qed.

Lemma run_items_app polls fp16 its1 its2 s :
  run_items P K polls fp16 (its1 ++ its2) s =
  bind (run_items P K polls fp16 its1) (fun _ => run_items P K polls fp16 its2) s.
Proof.
  revert s. induction its1 as [|it its1 IH]; intros s; [done|].
  simpl. unfold bind at 1 2 3.
  destruct (step_param P K polls fp16 _ _ _ s) as [[] s1|e s1|]; [|done..].
  apply IH.
Qed.

(** The nested loops visit the positions of [enum_groups] in order. *)
Lemma groups_loop_items polls fp16 group_id gs s :
  groups_loop P K polls fp16 group_id gs s =
  run_items P K polls fp16 (enum_groups group_id gs) s.
Proof.
  revert group_id s. induction gs as [|g gs IH]; intros group_id s; [done|].
  simpl. rewrite params_loop_items, run_items_app.
  unfold bind. destruct (run_items P K polls fp16 _ s) as [[] s1|e s1|]; [|done..].
  apply IH.
Qed.

Lemma run_items_frame polls fp16 its : keeps frame (run_items P K polls fp16 its).
Proof.
  induction its as [|it its IH]; simpl.
  - apply keeps_ret. apply _.
  - apply keeps_bind; try apply _; [apply step_param_frame|]. intros _. apply IH.
Qed.

Lemma enum_params_snd group_id param_id ps :
  map snd (enum_params group_id param_id ps) = ps.
Proof.
  revert param_id. induction ps as [|p ps IH]; intros param_id; [done|].
  simpl. by rewrite IH.
Qed.

Lemma enum_groups_snd group_id gs :
  map snd (enum_groups group_id gs) = concat (map params gs).
Proof.
  revert group_id. induction gs as [|g gs IH]; intros group_id; [done|].
  simpl. by rewrite map_app, enum_params_snd, IH.
Qed.

(** [step] runs the closure and then the loop body at every position. *)
Lemma step_items polls closure fp16 s :
  step P K polls closure fp16 s =
  match run_items P K polls fp16 (enum_groups 0 (param_groups (fst s)))
                  (after_closure closure s) with
  | Returns _ s' =>
      Returns (option_map (fun c => fst (c (heap (snd s)))) closure) s'
  | Raises e s' => Raises e s'
  | Blocked => Blocked
  end.
Proof.
  unfold step, bind, run_closure, after_closure.
  destruct closure as [c|]; cbn [fst snd]; rewrite groups_loop_items;
    by destruct (run_items _ _ _ _ _ _).
Qed.

End Frames.

(** ** Counting what the loops do *)

Section Counting.

Context (P : Platform) {KState : Type} (K : Kernel KState).

Abbreviation OWC := (Optimizer * World KState)%type.

Implicit Types s : OWC.

Lemma entry_steps s p : step_count (entry_of s p) = steps_of (fst s) p.
Proof. unfold entry_of, steps_of. by destruct (state (fst s) !! p). Qed.

Lemma occurrences_cons q p ps :
  occurrences q (p :: ps) = (if decide (p = q) then 1 else 0) + occurrences q ps.
Proof. unfold occurrences. rewrite filter_cons. by destruct (decide (p = q)). Qed.

Lemma occurrences_app q ps1 ps2 :
  occurrences q (ps1 ++ ps2) = occurrences q ps1 + occurrences q ps2.
Proof. unfold occurrences. by rewrite list.filter_app, length_app. Qed.

Lemma occurrences_none q ps : q ∉ ps → occurrences q ps = 0.
Proof.
  induction ps as [|p ps IH]; intros Hq; [done|].
  rewrite occurrences_cons, IH by set_solver.
  destruct (decide (p = q)); [set_solver|done].
Qed.

Lemma occurrences_NoDup q ps : NoDup ps → q ∈ ps → occurrences q ps = 1.
Proof.
  induction 1 as [|p ps Hp _ IH]; intros Hq; [set_solver|].
  rewrite occurrences_cons. destruct (decide (p = q)) as [->|Hne].
  - by rewrite occurrences_none.
  - rewrite IH; [done|set_solver].
Qed.

Lemma init_events_sigs s group_id param_id p :
  sigs (init_events s group_id param_id p) = [] ∧
  allocations (init_events s group_id param_id p)
  = match state (fst s) !! p with Some _ => 0 | None => 2 end.
Proof. unfold init_events. by destruct (state (fst s) !! p). Qed.

(** One returning round of the loop body, counted. *)
Lemma step_param_counts polls fp16 group_id param_id p s s' :
  step_param P K polls fp16 group_id param_id p s = Returns tt s' →
  let hit q := if has_grad (heap (snd s) p) then if decide (p = q) then 1 else 0 else 0 in
  (∀ q, steps_of (fst s') q = steps_of (fst s) q + hit q) ∧
  (∀ q, state (fst s') !! q = None ↔ state (fst s) !! q = None ∧ hit q = 0) ∧
  sigs (log (snd s')) =
    sigs (log (snd s)) ++
    (if has_grad (heap (snd s) p) then sig_for fp16 group_id param_id p else []) ∧
  (∀ q, updates_of q (log (snd s')) = updates_of q (log (snd s)) + hit q).
Proof.
  intros Hrun hit. subst hit. unfold has_grad.
  destruct (grad (heap (snd s) p)) as [g|] eqn:Hg.
  2: { rewrite step_param_skip in Hrun by done. injection Hrun as <-.
       split_and!; intros; rewrite ?app_nil_r; try done; try lia. naive_solver. }
  destruct (step_param_returns P K _ _ _ _ _ g _ _ Hg Hrun)
    as (h & l & ks' & d' & m' & v' & Hfl & Hslot & Hsame & Hself & Hid & Hks & Hrest).
  destruct (loader_events_silent l Hfl) as (_ & Hsl & _ & _).
  destruct (init_events_sigs s group_id param_id p) as [Hsi _].
  assert (sigs (log (snd s')) = sigs (log (snd s)) ++ sig_for fp16 group_id param_id p ∧
          ∃ sg, sig_for fp16 group_id param_id p = [sg] ∧ sig_param sg = p)
    as [Hsigs (sg & Hsg & Hsp)].
  { destruct fp16 as [groups|].
    - destruct Hrest as (q & c' & Hq & _ & _ & Hlog). rewrite Hlog.
      rewrite !sigs_app, Hsi, Hsl. unfold sig_for. rewrite Hq. cbn. eauto.
    - destruct Hrest as (_ & _ & Hlog). rewrite Hlog.
      rewrite !sigs_app, Hsi, Hsl. cbn. eauto. }
  rewrite Hself. unfold steps_of, set_state. cbn [state].
  split_and!.
  - intros q. destruct (decide (p = q)) as [->|Hne].
    + rewrite lookup_insert_eq. cbn. fold (steps_of (fst s) q).
      rewrite entry_steps. unfold steps_of. lia.
    + rewrite lookup_insert_ne by done. lia.
  - intros q. destruct (decide (p = q)) as [->|Hne].
    + rewrite lookup_insert_eq. naive_solver.
    + rewrite lookup_insert_ne by done. naive_solver.
  - done.
  - intros q. unfold updates_of. rewrite Hsigs, Hsg, list.filter_app, length_app.
    f_equal. rewrite filter_cons, Hsp. by destruct (decide (p = q)).
Qed.

Lemma expected_sigs_ext (hp hp' : Heap) fp16 its :
  (∀ q, grad (hp' q) = grad (hp q)) → expected_sigs hp' fp16 its = expected_sigs hp fp16 its.
Proof.
  intros Hext. unfold expected_sigs, has_grad.
  induction its as [|it its IH]; [done|]. cbn. by rewrite Hext, IH.
Qed.

(** A returning run over a list of positions, counted: every parameter
    with a gradient gains one step and one kernel update per position it
    stands at; the others gain nothing. *)
Lemma run_items_counts polls fp16 its s s' :
  run_items P K polls fp16 its s = Returns tt s' →
  let gain q := if has_grad (heap (snd s) q) then occurrences q (map snd its) else 0 in
  (∀ q, steps_of (fst s') q = steps_of (fst s) q + gain q) ∧
  (∀ q, state (fst s') !! q = None ↔ state (fst s) !! q = None ∧ gain q = 0) ∧
  sigs (log (snd s')) = sigs (log (snd s)) ++ expected_sigs (heap (snd s)) fp16 its ∧
  (∀ q, updates_of q (log (snd s')) = updates_of q (log (snd s)) + gain q).
Proof.
  revert s. induction its as [|[[gid pid] p] its IH]; intros s Hrun gain; subst gain.
  { injection Hrun as <-. cbn.
    split_and!; intros; rewrite ?app_nil_r; try done; destruct (has_grad _); try lia;
      naive_solver. }
  simpl in Hrun. unfold bind in Hrun. cbn [fst snd] in Hrun.
  destruct (step_param P K polls fp16 gid pid p s) as [[] s1|e s1|] eqn:Hb; [|done..].
  pose proof (step_param_frame P K polls fp16 gid pid p s) as Hfr.
  rewrite Hb in Hfr. simpl in Hfr. destruct Hfr as [[Hgr _ _ _ _] _ _ _].
  destruct (step_param_counts _ _ _ _ _ _ _ Hb) as (B1 & B2 & B3 & B4).
  destruct (IH s1 Hrun) as (I1 & I2 & I3 & I4).
  assert (∀ q, has_grad (heap (snd s1) q) = has_grad (heap (snd s) q)) as Hhg.
  { intros q. unfold has_grad. by rewrite Hgr. }
  cbn [map snd]. split_and!.
  - intros q. rewrite I1, B1, Hhg, occurrences_cons.
    destruct (decide (p = q)) as [<-|];
      repeat match goal with |- context [has_grad ?x] => destruct (has_grad x) end; lia.
  - intros q. rewrite I2, B2, Hhg, occurrences_cons.
    destruct (decide (p = q)) as [<-|];
      repeat match goal with |- context [has_grad ?x] => destruct (has_grad x) end;
      split; intros; split_and?; try lia; naive_solver lia.
  - rewrite I3, B3, (expected_sigs_ext (heap (snd s))) by done.
    unfold expected_sigs. cbn. by rewrite <- app_assoc.
  - intros q. rewrite I4, B4, Hhg, occurrences_cons.
    destruct (decide (p = q)) as [<-|];
      repeat match goal with |- context [has_grad ?x] => destruct (has_grad x) end; lia.
Qed.

End Counting.

(** ** Parameters the loops pass by *)

Section Idle.

Context (P : Platform) {KState : Type} (K : Kernel KState).

Abbreviation OWI := (Optimizer * World KState)%type.

Implicit Types s : OWI.

Lemma idle_refl q s : idle q s s.
Proof. done. Qed.

Lemma idle_trans q s1 s2 s3 : idle q s1 s2 → idle q s2 s3 → idle q s1 s3.
Proof. intros [? ?] [? ?]. split; congruence. Qed.

(** The body leaves every parameter other than its own alone, and its own
    too when it has no gradient. *)
Lemma step_param_idle polls fp16 group_id param_id p q s :
  p ≠ q ∨ grad (heap (snd s) p) = None →
  sat (step_param P K polls fp16 group_id param_id p s)
      (fun _ s' => idle q s s') (fun s' => idle q s s').
Proof.
  intros Hpq. destruct (grad (heap (snd s) p)) as [g|] eqn:Hg.
  2: { rewrite step_param_skip by done. apply idle_refl. }
  destruct Hpq as [Hne|]; [|done].
  destruct (step_param P K polls fp16 group_id param_id p s) as [[] s'|e s'|] eqn:Hrun;
    simpl; [| |done].
  - destruct (step_param_counts P K _ _ _ _ _ _ _ Hrun) as (_ & _ & _ & Hup).
    destruct (step_param_returns P K _ _ _ _ _ g _ _ Hg Hrun)
      as (h & l & ks' & d' & m' & v' & _ & _ & _ & Hself & _).
    split.
    + rewrite Hself. unfold set_state. cbn [state]. by rewrite lookup_insert_ne.
    + rewrite Hup. destruct (has_grad _); [|lia]. rewrite decide_False by done. lia.
  - destruct (step_param_raises P K _ _ _ _ _ g _ _ _ Hg Hrun)
      as (Hself & _ & _ & _ & _ & l & Hlog & _ & _ & Hsig & _).
    destruct (init_events_sigs s group_id param_id p) as [Hsi _].
    split.
    + rewrite Hself. unfold set_state. cbn [state]. by rewrite lookup_insert_ne.
    + rewrite Hlog. rewrite !updates_of_app. unfold updates_of at 2 3. rewrite Hsi.
      destruct Hsig as [->|(_ & sg & -> & Hsg)]; cbn; [lia|].
      rewrite Hsg, decide_False by done. cbn. lia.
Qed.

Lemma run_items_idle polls fp16 its q s :
  q ∉ map snd its ∨ grad (heap (snd s) q) = None →
  sat (run_items P K polls fp16 its s) (fun _ s' => idle q s s') (fun s' => idle q s s').
Proof.
  revert s. induction its as [|[[gid pid] p] its IH]; intros s Hq; [apply idle_refl|].
  simpl. eapply sat_bind.
  - eapply sat_weaken;
      [apply sat_and; [apply (step_param_idle _ _ _ _ _ q)|apply (step_param_frame P K)]
      |intros a s1 H; exact H|intros s1 [H _]; exact H].
    cbn [snd map] in *. destruct (decide (p = q)) as [->|]; [|by left].
    right. destruct Hq as [Hq|]; [set_solver|done].
  - cbn [fst snd]. intros [] s1 [Hidle [[Hgr _ _ _ _] _ _ _]].
    eapply sat_weaken; [apply IH|..].
    + cbn [map snd] in Hq. rewrite Hgr. destruct Hq as [Hq|]; [left; set_solver|by right].
    + intros [] s2 H2. by eapply idle_trans.
    + intros s2 H2. by eapply idle_trans.
Qed.

End Idle.

(** ** The constructor and whole calls of [step] *)

Section Calls.

Context (P : Platform) {KState : Type} (K : Kernel KState).

Abbreviation WC := (World KState).
Abbreviation OWK := (Optimizer * World KState)%type.

Lemma settled_refl (w : WC) : settled w w.
Proof.
  intros h Hh. split_and!; try done. exists []. rewrite app_nil_r.
  split_and!; [done|constructor..].
Qed.

Lemma settled_trans (w1 w2 w3 : WC) : settled w1 w2 → settled w2 w3 → settled w1 w3.
Proof.
  intros H12 H23 h Hh. destruct (H12 h Hh) as (Hs2 & Hf2 & Hn2 & l2 & Hl2 & Hq2 & Hh2).
  destruct (H23 h Hs2) as (Hs3 & Hf3 & Hn3 & l3 & Hl3 & Hq3 & Hh3).
  split_and!; try congruence. exists (l2 ++ l3).
  split_and!; [rewrite app_assoc; congruence|by apply Forall_app|].
  rewrite handles_of_app. by apply Forall_app.
Qed.

Lemma hframe_refl (w : WC) : hframe w w.
Proof. split; [done|]. exists []. rewrite app_nil_r. split; [done|constructor]. Qed.

Lemma hframe_trans (w1 w2 w3 : WC) : hframe w1 w2 → hframe w2 w3 → hframe w1 w3.
Proof.
  intros [Hs1 (l1 & Hl1 & Hh1)] [Hs2 (l2 & Hl2 & Hh2)]. split; [auto|].
  exists (l1 ++ l2). split; [rewrite app_assoc; congruence|].
  rewrite handles_of_app. apply Forall_app. split; [|done].
  eapply list.Forall_impl; [exact Hh1|]. simpl. auto.
Qed.

Lemma wframe_hframe (w w' : WC) : wframe w w' → hframe w w'.
Proof. intros [_ _ _ Hs Hl]. by split. Qed.

Lemma hframe_one_handle (w w' : WC) : hframe w w' → one_handle w → one_handle w'.
Proof.
  intros [Hs (l & Hl & Hh)] H1. unfold one_handle in *. rewrite Hl, handles_of_app.
  destruct (ds_opt_adam w') as [h'|] eqn:H'.
  - apply Forall_app. split.
    + destruct (ds_opt_adam w) as [h|] eqn:H0; [|by rewrite H1].
      specialize (Hs h eq_refl). by simplify_eq.
    + eapply list.Forall_impl; [exact Hh|]. simpl. congruence.
  - destruct (ds_opt_adam w) as [h|] eqn:H0; [by specialize (Hs h eq_refl)|].
    rewrite H1. destruct (handles_of l); [done|]. by inversion Hh.
Qed.

#[global] Instance settled_reflexive : Reflexive (@settled KState).
Proof. exact settled_refl. Qed.
#[global] Instance settled_transitive : Transitive (@settled KState).
Proof. exact settled_trans. Qed.
#[global] Instance hframe_reflexive : Reflexive (@hframe KState).
Proof. exact hframe_refl. Qed.
#[global] Instance hframe_transitive : Transitive (@hframe KState).
Proof. exact hframe_trans. Qed.

Lemma load_op_settled polls : keeps settled (load_op P (KState := KState) polls).
Proof.
  intros w. destruct (ds_opt_adam w) as [h|] eqn:Hs.
  - rewrite (load_op_cached _ _ _ h) by done. apply settled_refl.
  - destruct (load_op P polls w); simpl; try done; intros h Hh; congruence.
Qed.

Lemma load_op_hframe polls : keeps hframe (load_op P (KState := KState) polls).
Proof.
  intros w. pose proof (load_op_effects P polls w) as Heff.
  pose proof (load_op_cached P polls w) as Hc.
  destruct (load_op P polls w) as [h w'|e w'|]; simpl in *; [| |done].
  - destruct Heff as [[_ _ _ (l & Hl & Hfl)] Hs]. split.
    + intros h0 H0. specialize (Hc h0 H0). by simplify_eq.
    + exists l. split; [done|]. destruct (loader_events_silent l Hfl) as [-> _]. constructor.
  - destruct Heff as [[_ _ _ (l & Hl & Hfl)] Hs]. split; [congruence|].
    exists l. split; [done|]. destruct (loader_events_silent l Hfl) as [-> _]. constructor.
Qed.

(** The base class comes first: arguments it refuses end the constructor
    with the process as it is. *)
Lemma init_cases polls mp a bs e wd ams (w : WC) :
  init P K polls mp a bs e wd ams w =
  if accepted mp then
    (do id <- next_optimizer_id ;
     let self := {| opt_id := id; param_groups := groups_of mp a bs e wd ams;
                    state := ∅ |} in
     do ds_opt_adam <- load_op P polls ;
     call_create_adam K ds_opt_adam (opt_id self) a (fst bs) (snd bs) e wd ;;
     ret self) w
  else Raises ValueError w.
Proof. unfold init, base_init. unfold bind at 1. by destruct (accepted mp). Qed.

Lemma init_returns_accepted polls mp a bs e wd ams (w : WC) self w' :
  init P K polls mp a bs e wd ams w = Returns self w' → accepted mp = true.
Proof. rewrite init_cases. by destruct (accepted mp). Qed.

(** What the constructor does: it takes the next identifier, gets the
    handle from [load_op], and registers the identifier with the kernel
    through that handle. *)
Lemma init_effects polls mp a bs e wd ams (w : WC) :
  sat (init P K polls mp a bs e wd ams w)
      (fun self w' =>
         self = {| opt_id := optimizer_id w;
                   param_groups := groups_of mp a bs e wd ams; state := ∅ |} ∧
         optimizer_id w' = optimizer_id w + 1 ∧ heap w' = heap w ∧
         ∃ h l ks, ds_opt_adam w' = Some h ∧
           Forall (fun e => loader_event e = true) l ∧
           create_adam K h (kstate w) (optimizer_id w) a (fst bs) (snd bs) e wd = Some ks ∧
           kstate w' = ks ∧
           log w' = log w ++ l ++
                    [CreateAdam h (optimizer_id w) a (fst bs) (snd bs) e wd] ∧
           (∀ h0, ds_opt_adam w = Some h0 →
                  h0 = h ∧ l = [] ∧ fs w' = fs w ∧ now w' = now w))
      (fun w' =>
         optimizer_id w' = optimizer_id w + (if accepted mp then 1 else 0) ∧
         heap w' = heap w ∧
         kstate w' = kstate w ∧
         (accepted mp = false → w' = w) ∧
         ∃ l, log w' = log w ++ l ∧
           Forall (fun h => ds_opt_adam w' = Some h) (handles_of l) ∧
           (∀ h0, ds_opt_adam w = Some h0 →
                  ds_opt_adam w' = Some h0 ∧ fs w' = fs w ∧ now w' = now w ∧
                  l = if accepted mp
                      then [CreateAdam h0 (optimizer_id w) a (fst bs) (snd bs) e wd]
                      else [])).
Proof.
  rewrite init_cases. destruct (accepted mp) eqn:Hacc.
  2: { simpl. split_and!; [lia|done|done|done|]. exists []. rewrite app_nil_r.
       split_and!; [done|constructor|done]. }
  cbv zeta. unfold bind at 1, next_optimizer_id. unfold bind at 1.
  set (w0 := mkWorld (optimizer_id w + 1) (ds_opt_adam w) (fs w) (now w) (heap w)
                     (kstate w) (log w)).
  pose proof (load_op_effects P polls w0) as Heff.
  pose proof (load_op_cached P polls w0) as Hc.
  destruct (load_op P polls w0) as [h w1|e1 w1|]; [| |done].
  - destruct Heff as [[Hhp Hks Hid (l & Hl & Hfl)] Hs]. simpl in Hhp, Hks, Hid, Hl.
    assert (∀ h0, ds_opt_adam w = Some h0 →
              h0 = h ∧ l = [] ∧ fs w1 = fs w ∧ now w1 = now w) as Hsame.
    { intros h0 H0. specialize (Hc h0 H0). injection Hc as -> ->.
      split_and!; try done. simpl in Hl. rewrite <- (app_nil_r (log w)) in Hl at 1.
      by apply app_inv_head in Hl. }
    unfold call_create_adam, bind, emit, ret. cbn [opt_id kstate]. rewrite Hks.
    destruct (create_adam K h (kstate w) _ _ _ _ _ _) as [ks|] eqn:Hk; simpl.
    + split_and!; try done. exists h, l, ks. split_and!; try done.
      rewrite Hl. by rewrite <- app_assoc.
    + split_and!; try done. eexists (l ++ [_]). split_and!.
      * rewrite Hl. by rewrite <- app_assoc.
      * rewrite handles_of_app. destruct (loader_events_silent l Hfl) as [-> _].
        cbn. by repeat constructor.
      * intros h0 H0. destruct (Hsame h0 H0) as (-> & -> & ? & ?). by split_and!.
  - destruct Heff as [[Hhp Hks Hid (l & Hl & Hfl)] Hs]. simpl in Hhp, Hks, Hid, Hl, Hs.
    simpl. split_and!; try done. exists l. split_and!; [done| |].
    + destruct (loader_events_silent l Hfl) as [-> _]. constructor.
    + intros h0 H0. specialize (Hc h0 H0). discriminate Hc.
Qed.

Lemma init_settled polls mp a bs e wd ams :
  keeps settled (init P K polls mp a bs e wd ams).
Proof.
  intros w. eapply sat_weaken; [apply init_effects|..]; cbn beta.
  - intros self w' (_ & _ & _ & h & l & ks & Hs & Hfl & _ & _ & Hl & Hsame) h0 H0.
    destruct (Hsame h0 H0) as (-> & -> & ? & ?). split_and!; try done.
    eexists. split_and!; [exact Hl|..]; cbn; by repeat constructor.
  - intros w' (_ & _ & _ & _ & l & Hl & Hh & Hsame) h0 H0.
    destruct (Hsame h0 H0) as (? & ? & ? & ->). split_and!; try done.
    eexists. split_and!; [exact Hl|..]; destruct (accepted mp); cbn;
      by repeat constructor.
Qed.

Lemma init_hframe polls mp a bs e wd ams :
  keeps hframe (init P K polls mp a bs e wd ams).
Proof.
  intros w. eapply sat_weaken; [apply init_effects|..]; cbn beta.
  - intros self w' (_ & _ & _ & h & l & ks & Hs & Hfl & _ & _ & Hl & Hsame). split.
    + intros h0 H0. by destruct (Hsame h0 H0) as (-> & _).
    + eexists. split; [exact Hl|]. rewrite handles_of_app.
      destruct (loader_events_silent l Hfl) as [-> _]. cbn. by repeat constructor.
  - intros w' (_ & _ & _ & _ & l & Hl & Hh & Hsame). split.
    + intros h0 H0. by destruct (Hsame h0 H0) as (? & _).
    + by exists l.
Qed.

#[global] Instance on_world_reflexive (R : WC → WC → Prop) `{!Reflexive R} :
  Reflexive (on_world R).
Proof. intros s. unfold on_world. reflexivity. Qed.

#[global] Instance on_world_transitive (R : WC → WC → Prop) `{!Transitive R} :
  Transitive (on_world R).
Proof. intros s1 s2 s3. unfold on_world. apply transitivity. Qed.

Lemma step_param_settled polls fp16 group_id param_id p :
  keeps (on_world settled) (step_param P K polls fp16 group_id param_id p).
Proof.
  intros s. unfold on_world. destruct (grad (heap (snd s) p)) as [g|] eqn:Hg.
  2: { rewrite step_param_skip by done. apply settled_refl. }
  destruct (step_param P K polls fp16 group_id param_id p s) as [[] s'|e s'|] eqn:Hrun;
    simpl; [| |done].
  - destruct (step_param_returns P K _ _ _ _ _ g _ _ Hg Hrun)
      as (h & l & ks' & d' & m' & v' & Hfl & Hslot & Hsame & _ & _ & _ & Hrest).
    intros h0 H0. destruct (Hsame h0 H0) as (-> & -> & Hfs & Hnow).
    split_and!; try done.
    assert (Forall (fun e => loader_event e = false) (init_events s group_id param_id p) ∧
            handles_of (init_events s group_id param_id p) = []) as [Hi1 Hi2].
    { unfold init_events. destruct (state (fst s) !! p); split; by repeat constructor. }
    destruct fp16 as [groups|].
    + destruct Hrest as (q & c' & _ & _ & _ & Hlog). eexists. split; [exact Hlog|].
      rewrite !handles_of_app, Hi2. split; [|cbn; by repeat constructor].
      apply Forall_app. split; [done|]. by repeat constructor.
    + destruct Hrest as (_ & _ & Hlog). eexists. split; [exact Hlog|].
      rewrite !handles_of_app, Hi2. split; [|cbn; by repeat constructor].
      apply Forall_app. split; [done|]. by repeat constructor.
  - destruct (step_param_raises P K _ _ _ _ _ g _ _ _ Hg Hrun)
      as (_ & _ & _ & _ & Hslot & l & Hlog & _ & Hh & _ & Hq).
    intros h0 H0. destruct (Hq h0 H0) as (Hfs & Hnow & Hl).
    specialize (Hslot h0 H0). split_and!; try done.
    assert (Forall (fun e => loader_event e = false) (init_events s group_id param_id p) ∧
            handles_of (init_events s group_id param_id p) = []) as [Hi1 Hi2].
    { unfold init_events. destruct (state (fst s) !! p); split; by repeat constructor. }
    eexists. split; [exact Hlog|]. rewrite handles_of_app, Hi2. split.
    + by apply Forall_app.
    + cbn. eapply list.Forall_impl; [exact Hh|]. simpl. congruence.
Qed.

Lemma run_items_settled polls fp16 its :
  keeps (on_world settled) (run_items P K polls fp16 its).
Proof.
  induction its as [|it its IH]; simpl.
  - apply keeps_ret. apply _.
  - apply keeps_bind; try apply _; [apply step_param_settled|]. intros _. apply IH.
Qed.

Lemma run_items_hframe polls fp16 its :
  keeps (on_world hframe) (run_items P K polls fp16 its).
Proof.
  intros s. eapply sat_weaken; [apply (run_items_frame P K)|..];
    intros; apply wframe_hframe; by apply fr_world.
Qed.

Lemma after_closure_with_heap closure (s : OWK) :
  after_closure closure s = s ∨ ∃ hp, after_closure closure s = with_heap s hp.
Proof. destruct closure; [right; by eexists|by left]. Qed.

(** Whatever relation the caller's changes to the parameter objects and
    the loop body respect, a whole call of [step] respects. *)
Lemma step_call_keeps (R : OWK → OWK → Prop) `{!Reflexive R} `{!Transitive R} :
  (∀ s hp, R s (with_heap s hp)) →
  (∀ polls fp16 its, keeps R (run_items P K polls fp16 its)) →
  ∀ polls c, keeps R (step_call P K polls c).
Proof.
  intros Hheap Hitems polls c s. unfold step_call, bind, caller.
  rewrite step_items. cbn [fst snd].
  change (fst s, _) with (with_heap s (backward c (heap (snd s)))).
  set (s0 := with_heap s (backward c (heap (snd s)))).
  assert (R s (after_closure (closure c) s0)) as H0.
  { destruct (after_closure_with_heap (closure c) s0) as [->|[hp ->]].
    - apply Hheap.
    - etransitivity; apply Hheap. }
  pose proof (Hitems polls (fp16_param_groups c) (enum_groups 0 (param_groups (fst s)))
                     (after_closure (closure c) s0)) as Hrun.
  destruct (run_items _ _ _ _ _ _); simpl in *; try done; by etransitivity.
Qed.

Lemma step_call_settled polls c : keeps (on_world settled) (step_call P K polls c).
Proof.
  apply step_call_keeps; try apply _; [|apply run_items_settled].
  intros s hp h Hh. simpl. split_and!; try done. exists []. rewrite app_nil_r.
  split_and!; [done|constructor..].
Qed.

Lemma step_call_hframe polls c : keeps (on_world hframe) (step_call P K polls c).
Proof.
  apply step_call_keeps; try apply _; [|apply run_items_hframe].
  intros s hp. split; [done|]. exists []. simpl. rewrite app_nil_r.
  split; [done|constructor].
Qed.

(** A relation that the constructor, [step] and [load_op] respect holds
    between the start and the end of every program. *)
Lemma run_script_keeps (R : WC → WC → Prop) `{!Reflexive R} `{!Transitive R} :
  (∀ polls a, keeps R (construct P K polls a)) →
  (∀ polls c, keeps (on_world R) (step_call P K polls c)) →
  (∀ polls, keeps R (load_op P polls)) →
  ∀ polls acts st st', run_script P K polls acts st = Some st' → R (snd st) (snd st').
Proof.
  intros Hc Hs Hl polls acts. induction acts as [|[a|i c|] acts IH]; intros st st' Hrun.
  - injection Hrun as <-. reflexivity.
  - simpl in Hrun. pose proof (Hc polls a (snd st)) as H1.
    destruct (construct P K polls a (snd st)); [| |done];
      (etransitivity; [exact H1|]); by apply IH in Hrun.
  - simpl in Hrun. destruct (fst st !! i) as [self|]; [|by apply IH].
    pose proof (Hs polls c (self, snd st)) as H1.
    destruct (step_call P K polls c (self, snd st)); [| |done];
      (etransitivity; [exact H1|]); by apply IH in Hrun.
  - simpl in Hrun. pose proof (Hl polls (snd st)) as H1.
    destruct (load_op P polls (snd st)); [| |done];
      (etransitivity; [exact H1|]); by apply IH in Hrun.
Qed.

End Calls.

(** ** The class-level slot and the instance counter *)

Section Process.

Context (P : Platform) {KState : Type} (K : Kernel KState).

Abbreviation WP := (World KState).

#[global] Instance same_ids_reflexive : Reflexive (@same_ids KState).
Proof. by intros s. Qed.

#[global] Instance same_ids_transitive : Transitive (@same_ids KState).
Proof. intros s1 s2 s3 [? ?] [? ?]. split; congruence. Qed.

Lemma step_call_same_ids polls c : keeps same_ids (step_call P K polls c).
Proof.
  apply step_call_keeps; try apply _; [done|].
  intros polls' fp16 its s. eapply sat_weaken; [apply (run_items_frame P K)|..];
    intros; (split; [by apply wf_id, fr_world|by apply fr_opt_id]).
Qed.

Lemma quiet_events_no_build l :
  Forall (fun e => loader_event e = false) l → compiler_calls l = 0.
Proof.
  induction 1 as [|e l He _ IH]; [done|].
  change (e :: l) with ([e] ++ l). rewrite compiler_calls_app, IH.
  by destruct e.
Qed.

Lemma constructions_cons a acts :
  constructions (a :: acts) = (if is_construct a then 1 else 0) + constructions acts.
Proof.
  unfold constructions. rewrite filter_cons. by destruct a.
Qed.

Lemma accepted_constructions_cons a acts :
  accepted_constructions (a :: acts)
  = (if is_accepted a then 1 else 0) + accepted_constructions acts.
Proof.
  unfold accepted_constructions. rewrite filter_cons. by destruct (is_accepted a).
Qed.

Lemma accepted_constructions_app acts1 acts2 :
  accepted_constructions (acts1 ++ acts2)
  = accepted_constructions acts1 + accepted_constructions acts2.
Proof. unfold accepted_constructions. by rewrite list.filter_app, length_app. Qed.

Lemma accepted_constructions_le acts : accepted_constructions acts ≤ constructions acts.
Proof.
  induction acts as [|a acts IH]; [done|].
  rewrite accepted_constructions_cons, constructions_cons.
  destruct a as [ia| |]; simpl; [destruct (accepted _)|..]; lia.
Qed.

(** A program runs its actions one after the other. *)
Lemma run_script_app polls acts1 acts2 st :
  run_script P K polls (acts1 ++ acts2) st
  = match run_script P K polls acts1 st with
    | Some st1 => run_script P K polls acts2 st1
    | None => None
    end.
Proof.
  revert st. induction acts1 as [|[a|i c|] acts1 IH]; intros st; [done|..]; simpl.
  - destruct (construct P K polls a (snd st)); [apply IH..|done].
  - destruct (fst st !! i); [|apply IH].
    destruct (step_call P K polls c _); [apply IH..|done].
  - destruct (load_op P polls (snd st)); [apply IH..|done].
Qed.

(** The identifiers along a program. *)
Lemma run_script_ids base polls acts st st' :
  ids_ok base st →
  run_script P K polls acts st = Some st' →
  ids_ok base st' ∧
  optimizer_id (snd st') = optimizer_id (snd st) + accepted_constructions acts.
Proof.
  revert st. induction acts as [|[a|i c|] acts IH]; intros st Hok Hrun.
  - injection Hrun as <-. split; [done|]. unfold accepted_constructions. simpl. lia.
  - simpl in Hrun. unfold construct in Hrun.
    pose proof (init_effects P K polls (a_model_params a) (a_lr a) (a_betas a) (a_eps a)
                  (a_weight_decay a) (a_amsgrad a) (snd st)) as Heff.
    pose proof (init_returns_accepted P K polls (a_model_params a) (a_lr a) (a_betas a)
                  (a_eps a) (a_weight_decay a) (a_amsgrad a) (snd st)) as Hacc.
    destruct Hok as [Hle Hb Hs He].
    destruct (init P K polls _ _ _ _ _ _ (snd st)) as [self w'|e w'|]; [| |done];
      simpl in Heff.
    + specialize (Hacc _ _ eq_refl). destruct Heff as (Hself & Hid & _).
      assert (opt_id self = optimizer_id (snd st)) as Hoid by by rewrite Hself.
      apply IH in Hrun.
      * destruct Hrun as [Hok' Hc]. split; [done|]. rewrite Hc. cbn [snd].
        rewrite accepted_constructions_cons. cbn [is_accepted]. rewrite Hacc. lia.
      * split; cbn [fst snd].
        -- rewrite length_app. simpl. lia.
        -- apply Forall_app. split.
           ++ eapply list.Forall_impl; [exact Hb|]. simpl. lia.
           ++ repeat constructor. lia.
        -- intros i j oi oj Hi Hj Hij.
           apply lookup_app_Some in Hi, Hj.
           destruct Hj as [Hj|[Hlen Hj]].
           ++ destruct Hi as [Hi|[Hlen' _]]; [by eapply Hs|].
              apply lookup_lt_Some in Hj. lia.
           ++ apply list_lookup_singleton_Some in Hj as [Hj0 <-].
              destruct Hi as [Hi|[Hlen' Hi]].
              ** rewrite Forall_lookup in Hb. specialize (Hb _ _ Hi). simpl in Hb.
                 rewrite Hoid. exact Hb.
              ** apply list_lookup_singleton_Some in Hi as [Hi _]. lia.
        -- rewrite length_app. simpl. intros Hex i o Hi.
           apply lookup_app_Some in Hi. destruct Hi as [Hi|[Hlen Hi]].
           ++ apply He; [lia|done].
           ++ apply list_lookup_singleton_Some in Hi as [Hi <-]. lia.
    + destruct Heff as (Hid & _). apply IH in Hrun.
      * destruct Hrun as [Hok' Hc]. split; [done|]. rewrite Hc. cbn [snd].
        rewrite accepted_constructions_cons. cbn [is_accepted].
        destruct (accepted (a_model_params a)); lia.
      * split; cbn [fst snd]; [lia| |done|].
        -- eapply list.Forall_impl; [exact Hb|]. simpl. lia.
        -- destruct (accepted (a_model_params a)); intros Hex; [lia|].
           apply He. lia.
  - simpl in Hrun. destruct (fst st !! i) as [self|] eqn:Hself; [|by apply IH].
    pose proof (step_call_same_ids polls c (self, snd st)) as Hsame.
    assert (∀ s', same_ids (self, snd st) s' →
              ids_ok base (<[i:=fst s']> (fst st), snd s') ∧
              optimizer_id (snd s') = optimizer_id (snd st)) as Hstep.
    { intros s' [Hid Hoid]. cbn [fst snd] in *. split; [|done].
      destruct Hok as [Hle Hb Hs He].
      assert (∀ j o, <[i:=fst s']> (fst st) !! j = Some o →
                ∃ o0, fst st !! j = Some o0 ∧ opt_id o = opt_id o0) as Hlk.
      { intros j o Hj. destruct (decide (i = j)) as [<-|Hne].
        - rewrite list_lookup_insert_eq in Hj by by eapply lookup_lt_Some.
          injection Hj as <-. eauto.
        - rewrite list_lookup_insert_ne in Hj by done. eauto. }
      split; cbn [fst snd].
      - rewrite length_insert. lia.
      - rewrite Forall_lookup. intros j o Hj. destruct (Hlk j o Hj) as (o0 & H0 & ->).
        rewrite Forall_lookup in Hb. specialize (Hb _ _ H0). simpl in *. lia.
      - intros j1 j2 o1 o2 H1 H2 Hlt.
        destruct (Hlk _ _ H1) as (o1' & H1' & ->).
        destruct (Hlk _ _ H2) as (o2' & H2' & ->). by eapply Hs.
      - rewrite length_insert, Hid. intros Hex j o Hj.
        destruct (Hlk _ _ Hj) as (o0 & H0 & ->). by apply He. }
    destruct (step_call P K polls c (self, snd st)) as [loss s'|e s'|]; [| |done];
      simpl in Hsame; destruct (Hstep s' Hsame) as [Hok' Hid']; apply IH in Hrun;
      try done; (destruct Hrun as [? Hc]; split; [done|]; rewrite Hc;
                 cbn [fst snd] in *; rewrite accepted_constructions_cons; simpl; lia).
  - simpl in Hrun. pose proof (load_op_effects P polls (snd st)) as Heff.
    assert (∀ w', loader_step (snd st) w' → ids_ok base (fst st, w')) as Hstep.
    { intros w' [_ _ Hid _]. destruct Hok as [Hle Hb Hs He].
      split; cbn [fst snd]; rewrite ?Hid; done. }
    destruct (load_op P polls (snd st)) as [h w'|e w'|]; [| |done]; simpl in Heff;
      destruct Heff as [Hls _]; pose proof (ls_id _ _ Hls) as Hid;
      apply IH in Hrun; try (by apply Hstep);
      (destruct Hrun as [? Hc]; split; [done|]; rewrite Hc; cbn [fst snd] in *;
       rewrite accepted_constructions_cons; simpl; lia).
Qed.

(** C5, as the code has it: the counter starts at 0 and every
    constructor call that the base class accepts takes the counter's value
    as the identifier of its instance and adds exactly 1 to it, whether the
    call then returns or raises in [load_op] or in [create_adam]; a call
    the base class refuses leaves the counter alone.  So the counter ends
    at the number of accepted constructor calls, an instance carries the
    number of accepted constructor calls made before its own, the
    instances of a program carry pairwise different identifiers below the
    counter, and as long as every accepted call has produced its instance,
    each instance carries the number of instances constructed before
    it. *)
Theorem opt_id_counts_constructions polls acts f t hp (ks : KState) st' :
  run_script P K polls acts ([], at_import f t hp ks) = Some st' →
  optimizer_id (snd st') = accepted_constructions acts ∧
  (∀ pre a post st1,
     acts = pre ++ Construct a :: post →
     run_script P K polls pre ([], at_import f t hp ks) = Some st1 →
     optimizer_id (snd st1) = accepted_constructions pre ∧
     match construct P K polls a (snd st1) with
     | Returns self w1 =>
         accepted (a_model_params a) = true ∧
         opt_id self = accepted_constructions pre ∧
         optimizer_id w1 = accepted_constructions pre + 1
     | Raises _ w1 =>
         optimizer_id w1
         = accepted_constructions pre + (if accepted (a_model_params a) then 1 else 0)
     | Blocked => True
     end) ∧
  (∀ i j oi oj, fst st' !! i = Some oi → fst st' !! j = Some oj → i ≠ j →
                opt_id oi ≠ opt_id oj) ∧
  (∀ i o, fst st' !! i = Some o → opt_id o < optimizer_id (snd st')) ∧
  (length (fst st') = accepted_constructions acts →
   ∀ i o, fst st' !! i = Some o → opt_id o = i).
Proof.
  intros Hrun.
  assert (ids_ok 0 (([] : list Optimizer), at_import f t hp ks)) as Hstart.
  { split; cbn [fst snd]; [simpl; lia|constructor|done|done]. }
  destruct (run_script_ids 0 polls acts ([], at_import f t hp ks) st' Hstart Hrun)
    as [[Hle Hb Hs He] Hc].
  cbn [snd] in Hc. simpl in Hc. split_and!.
  - done.
  - intros pre a post st1 -> Hpre.
    destruct (run_script_ids 0 polls pre _ st1 Hstart Hpre) as [_ Hc1].
    cbn [snd] in Hc1. simpl in Hc1. split; [done|].
    unfold construct.
    pose proof (init_effects P K polls (a_model_params a) (a_lr a) (a_betas a) (a_eps a)
                  (a_weight_decay a) (a_amsgrad a) (snd st1)) as Heff.
    pose proof (init_returns_accepted P K polls (a_model_params a) (a_lr a) (a_betas a)
                  (a_eps a) (a_weight_decay a) (a_amsgrad a) (snd st1)) as Hacc.
    destruct (init P K polls _ _ _ _ _ _ (snd st1)) as [self w1|e w1|]; [| |done];
      simpl in Heff.
    + destruct Heff as (-> & Hid & _). cbn [opt_id].
      split_and!; [by eapply Hacc|done|lia].
    + destruct Heff as (Hid & _). by rewrite Hid, Hc1.
  - intros i j oi oj Hi Hj Hij. destruct (decide (i < j)).
    + pose proof (Hs i j oi oj Hi Hj). lia.
    + pose proof (Hs j i oj oi Hj Hi). lia.
  - intros i o Hi. rewrite Forall_lookup in Hb. by apply (Hb i o).
  - intros Hlen i o Hi. rewrite (He ltac:(lia) i o Hi). done.
Qed.

(** C3: a call of [load_op] that finds the slot empty and returns has
    called the JIT loader once and left the handle it returns in the slot.
    From then on, whatever the program does, the slot keeps that handle,
    [load_op] returns it without any effect on the process, the build cache
    is not written, the loader is not called again, and every kernel call
    of every instance goes through that handle. *)
Theorem load_op_builds_once polls (w : WP) h w1 :
  ds_opt_adam w = None →
  load_op P polls w = Returns h w1 →
  ds_opt_adam w1 = Some h ∧
  compiler_calls (log w1) = S (compiler_calls (log w)) ∧
  (∀ w2 : WP, ds_opt_adam w2 = Some h → ∀ polls', load_op P polls' w2 = Returns h w2) ∧
  (∀ (w2 : WP) polls' acts insts st',
     ds_opt_adam w2 = Some h →
     run_script P K polls' acts (insts, w2) = Some st' →
     ds_opt_adam (snd st') = Some h ∧
     fs (snd st') = fs w2 ∧
     compiler_calls (log (snd st')) = compiler_calls (log w2) ∧
     ∃ l, log (snd st') = log w2 ++ l ∧ Forall (eq h) (handles_of l)) ∧
  (handles_of (log w) = [] →
   ∀ polls' acts insts st',
     run_script P K polls' acts (insts, w) = Some st' → one_handle (snd st')).
Proof.
  intros Hslot Hret.
  destruct (load_op_first_then_cached P polls w h w1 Hret) as (Hs1 & Hcc & _).
  split_and!; try done; [by apply Hcc|..].
  - intros w2 H2 polls'. by apply load_op_cached.
  - intros w2 polls' acts insts st' H2 Hrun.
    pose proof (run_script_keeps P K settled (fun n a => init_settled P K n _ _ _ _ _ _)
                  (step_call_settled P K)
                  (load_op_settled P) polls' acts _ _ Hrun h H2)
      as (Hs' & Hfs & _ & l & Hl & Hq & Hh).
    cbn [snd] in *. split_and!; try done.
    + rewrite Hl, compiler_calls_app, (quiet_events_no_build l Hq). lia.
    + by exists l.
  - intros Hnone polls' acts insts st' Hrun.
    pose proof (run_script_keeps P K hframe (fun n a => init_hframe P K n _ _ _ _ _ _)
                  (step_call_hframe P K)
                  (load_op_hframe P) polls' acts _ _ Hrun) as Hfr.
    eapply hframe_one_handle; [exact Hfr|]. unfold one_handle. cbn [snd].
    by rewrite Hslot.
Qed.

End Process.

(** ** Step counters over a sequence of calls *)

Section Steps.

Context (P : Platform) {KState : Type} (K : Kernel KState).

Abbreviation OWS := (Optimizer * World KState)%type.

Implicit Types s : OWS.

Lemma at_loop_entry_eq c s :
  at_loop_entry c s = after_closure (closure c) (with_heap s (backward c (heap (snd s)))).
Proof.
  unfold at_loop_entry, bind, caller, run_closure, after_closure, with_heap.
  by destruct (closure c).
Qed.

Lemma at_loop_entry_same c s :
  fst (at_loop_entry c s) = fst s ∧ log (snd (at_loop_entry c s)) = log (snd s).
Proof.
  rewrite at_loop_entry_eq. unfold after_closure, with_heap. by destruct (closure c).
Qed.

(** A whole call: the caller's changes, the closure, then the loop body
    at every position. *)
Lemma step_call_items polls c s :
  step_call P K polls c s =
  match run_items P K polls (fp16_param_groups c)
                  (enum_groups 0 (param_groups (fst s))) (at_loop_entry c s) with
  | Returns _ s' =>
      Returns (option_map (fun f => fst (f (backward c (heap (snd s))))) (closure c)) s'
  | Raises e s' => Raises e s'
  | Blocked => Blocked
  end.
Proof.
  rewrite at_loop_entry_eq. unfold step_call, bind, caller. by rewrite step_items.
Qed.

Lemma step_call_counts polls c s loss s' :
  step_call P K polls c s = Returns loss s' →
  param_groups (fst s') = param_groups (fst s) ∧
  ∀ q, let n := if has_grad (heap (snd (at_loop_entry c s)) q)
                then occurrences q (all_params (fst s)) else 0 in
       steps_of (fst s') q = steps_of (fst s) q + n ∧
       (state (fst s') !! q = None ↔ state (fst s) !! q = None ∧ n = 0) ∧
       updates_of q (log (snd s')) = updates_of q (log (snd s)) + n.
Proof.
  rewrite step_call_items. intros Hrun.
  destruct (run_items P K polls _ _ (at_loop_entry c s)) as [[] s1|e s1|] eqn:Hitems;
    [|done..].
  injection Hrun as _ <-.
  pose proof (run_items_frame P K polls (fp16_param_groups c)
                (enum_groups 0 (param_groups (fst s))) (at_loop_entry c s)) as Hfr.
  rewrite Hitems in Hfr. simpl in Hfr.
  destruct (run_items_counts P K _ _ _ _ _ Hitems) as (C1 & C2 & _ & C4).
  destruct (at_loop_entry_same c s) as [Hself Hlog].
  rewrite enum_groups_snd in C1, C2, C4. rewrite Hself in *. rewrite Hlog in *.
  split; [by rewrite (fr_groups _ _ Hfr), Hself|].
  intros q. cbv zeta. by rewrite C1, C2, C4.
Qed.

(** A call in which [p] has no gradient passes [p] by, however it ends. *)
Lemma step_call_idle polls c p s :
  has_grad (heap (snd (at_loop_entry c s)) p) = false →
  sat (step_call P K polls c s) (fun _ s' => idle p s s') (fun s' => idle p s s').
Proof.
  intros Hg. rewrite step_call_items.
  pose proof (run_items_idle P K polls (fp16_param_groups c)
                (enum_groups 0 (param_groups (fst s))) p (at_loop_entry c s)) as Hidle.
  destruct (at_loop_entry_same c s) as [Hself Hlog].
  unfold idle in *. rewrite Hself, Hlog in Hidle.
  assert (grad (heap (snd (at_loop_entry c s)) p) = None) as Hnone.
  { unfold has_grad in Hg. by destruct (grad _). }
  specialize (Hidle (or_intror Hnone)).
  by destruct (run_items P K polls _ _ (at_loop_entry c s)).
Qed.

Lemma run_steps_counts polls calls s losses s' :
  run_steps P K polls calls s = Returns losses s' →
  param_groups (fst s') = param_groups (fst s) ∧
  ∀ q, let n := occurrences q (all_params (fst s)) * grad_calls P K polls q calls s in
       steps_of (fst s') q = steps_of (fst s) q + n ∧
       (state (fst s') !! q = None ↔ state (fst s) !! q = None ∧ n = 0) ∧
       updates_of q (log (snd s')) = updates_of q (log (snd s)) + n.
Proof.
  revert s losses. induction calls as [|c calls IH]; intros s losses Hrun.
  { injection Hrun as _ <-. split; [done|]. intros q. cbn. rewrite Nat.mul_0_r.
    split_and!; try lia. naive_solver. }
  simpl in Hrun. unfold bind in Hrun.
  destruct (step_call P K polls c s) as [loss s1|e s1|] eqn:Hc; [|done..].
  destruct (run_steps P K polls calls s1) as [ls s2|e s2|] eqn:Hrest; [|done..].
  injection Hrun as _ <-.
  destruct (step_call_counts _ _ _ _ _ Hc) as [Hg1 Hc1].
  destruct (IH _ _ Hrest) as [Hg2 Hc2].
  split; [congruence|]. intros q. cbv zeta. simpl. rewrite Hc.
  specialize (Hc1 q). specialize (Hc2 q). cbv zeta in Hc1, Hc2.
  unfold all_params in *. rewrite Hg1 in Hc2.
  destruct Hc1 as (A1 & A2 & A3). destruct Hc2 as (B1 & B2 & B3).
  rewrite B1, B2, B3, A1, A2, A3.
  destruct (has_grad _); split_and!; try lia; split; intros; split_and?; try nia;
    naive_solver nia.
Qed.

End Steps.

(** ** The moment buffers *)

Section Buffers.

Context (P : Platform) {KState : Type} (K : Kernel KState).

Abbreviation OWU := (Optimizer * World KState)%type.

Implicit Types s : OWU.

Lemma all_zero_zeros_like t dev : all_zero (zeros_like t dev) = true.
Proof.
  unfold all_zero, zeros_like. simpl. induction (numel t) as [|n IH]; [done|].
  simpl. exact IH.
Qed.

#[global] Instance entry_kept_reflexive p : Reflexive (@entry_kept KState p).
Proof. intros s st Hst. exists st. by split_and!. Qed.

#[global] Instance entry_kept_transitive p : Transitive (@entry_kept KState p).
Proof.
  intros s1 s2 s3 H12 H23 st Hst. destruct (H12 st Hst) as (st2 & H2 & Ha & Hb).
  destruct (H23 st2 H2) as (st3 & H3 & Ha' & Hb'). exists st3. split_and!; congruence.
Qed.

Lemma frame_entry_kept p s s' : frame s s' → entry_kept p s s'.
Proof.
  intros Hfr st Hst. destruct (fr_entries _ _ Hfr p st Hst) as (st' & ? & ? & ? & _).
  by exists st'.
Qed.

Lemma step_call_entry_kept p polls c : keeps (entry_kept p) (step_call P K polls c).
Proof.
  apply step_call_keeps; try apply _.
  - intros s hp st Hst. exists st. by split_and!.
  - intros polls' fp16 its s. eapply sat_weaken; [apply (run_items_frame P K)|..];
      intros; by apply frame_entry_kept.
Qed.

Lemma run_steps_entry_kept p polls calls : keeps (entry_kept p) (run_steps P K polls calls).
Proof.
  induction calls as [|c calls IH]; simpl.
  - apply keeps_ret. apply _.
  - apply keeps_bind; try apply _; [apply step_call_entry_kept|]. intros loss.
    apply keeps_bind; try apply _; [apply IH|]. intros losses. apply keeps_ret. apply _.
Qed.

(** The last thing a returning body logs is its kernel call, which was
    handed the two buffers of the entry it worked on. *)
Lemma step_param_last_event polls fp16 group_id param_id p g s s' :
  grad (heap (snd s) p) = Some g →
  step_param P K polls fp16 group_id param_id p s = Returns tt s' →
  ∃ e m v, list.last (log (snd s')) = Some e ∧
    event_buffers e = Some (exp_avg (entry_of s p), exp_avg_sq (entry_of s p)) ∧
    state (fst s') !! p = Some (written (bumped (entry_of s p)) m v) ∧
    allocations (log (snd s'))
    = allocations (log (snd s)) + match state (fst s) !! p with Some _ => 0 | None => 2 end.
Proof.
  intros Hg Hrun.
  destruct (step_param_returns P K _ _ _ _ _ g _ _ Hg Hrun)
    as (h & l & ks' & d' & m' & v' & Hfl & _ & _ & Hself & _ & _ & Hrest).
  destruct (loader_events_silent l Hfl) as (_ & _ & Hal & _).
  destruct (init_events_sigs s group_id param_id p) as [_ Hai].
  assert (∃ e, log (snd s') = log (snd s) ++ init_events s group_id param_id p ++ l ++ [e] ∧
               event_buffers e = Some (exp_avg (entry_of s p), exp_avg_sq (entry_of s p)) ∧
               is_alloc e = false) as (e & Hlog & Hbuf & Hne).
  { destruct fp16 as [groups|].
    - destruct Hrest as (q & c' & _ & _ & _ & Hlog). by eexists.
    - destruct Hrest as (_ & _ & Hlog). by eexists. }
  exists e, m', v'. split_and!; try done.
  - rewrite Hlog, !app_assoc. apply list.last_snoc.
  - rewrite Hself. unfold set_state. cbn [state]. by rewrite lookup_insert_eq.
  - assert (allocations [e] = 0) as Hae.
    { unfold allocations. rewrite filter_cons_False; [done|].
      intros H. rewrite Hne in H. exact H. }
    rewrite Hlog, !allocations_app, Hai, Hal, Hae. lia.
Qed.

(** C6: a parameter with a gradient and without a state entry gets the
    entry [{step: 0, exp_avg: zeros, exp_avg_sq: zeros}], both buffers
    zero-filled with the parameter's shape and dtype on the CPU, by two
    allocations; with an entry, the body allocates nothing and hands the
    stored buffers to the kernel.  Either way the stored entry is the one
    worked on with its counter incremented and its buffers overwritten in
    place, and it stays, with the same buffer descriptors, through every
    later sequence of [step] calls. *)
Theorem state_allocated_once polls fp16 group_id param_id p g s s' :
  grad (heap (snd s) p) = Some g →
  step_param P K polls fp16 group_id param_id p s = Returns tt s' →
  (state (fst s) !! p = None →
   entry_of s p = {| step_count := 0;
                     exp_avg := zeros_like (data (heap (snd s) p)) cpu;
                     exp_avg_sq := zeros_like (data (heap (snd s) p)) cpu |} ∧
   all_zero (exp_avg (entry_of s p)) = true ∧
   all_zero (exp_avg_sq (entry_of s p)) = true ∧
   same_layout (exp_avg (entry_of s p)) (data (heap (snd s) p)) ∧
   same_layout (exp_avg_sq (entry_of s p)) (data (heap (snd s) p)) ∧
   device (exp_avg (entry_of s p)) = cpu ∧
   device (exp_avg_sq (entry_of s p)) = cpu ∧
   allocations (log (snd s')) = allocations (log (snd s)) + 2) ∧
  (∀ st, state (fst s) !! p = Some st →
         entry_of s p = st ∧
         allocations (log (snd s')) = allocations (log (snd s))) ∧
  (∃ e m v, list.last (log (snd s')) = Some e ∧
     event_buffers e = Some (exp_avg (entry_of s p), exp_avg_sq (entry_of s p)) ∧
     state (fst s') !! p = Some (written (bumped (entry_of s p)) m v)) ∧
  (∀ polls' calls,
     sat (run_steps P K polls' calls s')
         (fun _ s'' => entry_kept p s' s'') (fun s'' => entry_kept p s' s'')).
Proof.
  intros Hg Hrun.
  destruct (step_param_last_event _ _ _ _ _ _ _ _ Hg Hrun) as (e & m & v & He & Hb & Hst & Ha).
  split_and!.
  - intros Hnone. unfold entry_of. rewrite Hnone in *. simpl.
    split_and!; try done; apply all_zero_zeros_like.
  - intros st Hsome. unfold entry_of. rewrite Hsome in *. simpl. split; [done|lia].
  - by exists e, m, v.
  - intros polls' calls. apply run_steps_entry_kept.
Qed.

Lemma descr_same_layout a b c :
  descr a = descr b → same_layout b c → same_layout a c.
Proof. unfold descr, same_layout. intros [= -> -> _]. done. Qed.

Lemma same_layout_descr a b c :
  same_layout a b → descr c = descr b → same_layout a c.
Proof. unfold descr, same_layout. intros [-> ->] [= -> -> _]. done. Qed.

Lemma entry_of_congruent p s :
  congruent p s →
  same_layout (exp_avg (entry_of s p)) (data (heap (snd s) p)) ∧
  same_layout (exp_avg_sq (entry_of s p)) (data (heap (snd s) p)).
Proof.
  intros Hc. unfold entry_of. destruct (state (fst s) !! p) as [st|] eqn:Hst; simpl.
  - by apply Hc.
  - done.
Qed.

(** The body respects [congruent]. *)
Lemma step_param_congruent q polls fp16 group_id param_id p s :
  congruent q s →
  sat (step_param P K polls fp16 group_id param_id p s)
      (fun _ s' => congruent q s') (fun s' => congruent q s').
Proof.
  intros Hc. destruct (grad (heap (snd s) p)) as [g|] eqn:Hg.
  2: { by rewrite step_param_skip. }
  pose proof (step_param_frame P K polls fp16 group_id param_id p s) as Hfr.
  assert (∀ s' st0, frame s s' →
            fst s' = set_state (fst s) p st0 →
            descr (exp_avg st0) = descr (exp_avg (entry_of s p)) →
            descr (exp_avg_sq st0) = descr (exp_avg_sq (entry_of s p)) →
            congruent q s') as Hgen.
  { intros s' st0 [[_ Hd _ _ _] _ _ _] Hself Ha Hb st' Hst'.
    rewrite Hself in Hst'. unfold set_state in Hst'. cbn [state] in Hst'.
    destruct (decide (p = q)) as [<-|Hne].
    - rewrite lookup_insert_eq in Hst'. injection Hst' as <-.
      destruct (entry_of_congruent p s Hc) as [Ea Eb].
      split; (eapply same_layout_descr; [|apply Hd]); by eapply descr_same_layout.
    - rewrite lookup_insert_ne in Hst' by done.
      destruct (Hc st' Hst') as [Ea Eb].
      split; (eapply same_layout_descr; [|apply Hd]); done. }
  destruct (step_param P K polls fp16 group_id param_id p s) as [[] s'|e s'|] eqn:Hrun;
    simpl in *; [| |done].
  - destruct (step_param_returns P K _ _ _ _ _ g _ _ Hg Hrun)
      as (h & l & ks' & d' & m' & v' & _ & _ & _ & Hself & _).
    by eapply Hgen.
  - destruct (step_param_raises P K _ _ _ _ _ g _ _ _ Hg Hrun) as (Hself & _).
    by eapply Hgen.
Qed.

Lemma run_items_congruent q polls fp16 its s :
  congruent q s →
  sat (run_items P K polls fp16 its s)
      (fun _ s' => congruent q s') (fun s' => congruent q s').
Proof.
  revert s. induction its as [|it its IH]; intros s Hc; [done|].
  simpl. eapply sat_bind; [by apply step_param_congruent|].
  intros [] s1 H1. by apply IH.
Qed.

Lemma step_call_congruent q polls c s :
  keeps_layout c q → congruent q s →
  sat (step_call P K polls c s)
      (fun _ s' => congruent q s') (fun s' => congruent q s').
Proof.
  intros [Hb Hcl] Hc. rewrite step_call_items.
  assert (congruent q (at_loop_entry c s)) as H0.
  { rewrite at_loop_entry_eq. intros st Hst.
    assert (state (fst s) !! q = Some st) as Hst0.
    { unfold after_closure, with_heap in Hst. by destruct (closure c). }
    destruct (Hc st Hst0) as [Ea Eb].
    assert (same_layout
              (data (heap (snd (after_closure (closure c)
                                  (with_heap s (backward c (heap (snd s)))))) q))
              (data (heap (snd s) q))) as [Hs Hd].
    { unfold after_closure, with_heap. revert Hcl.
      destruct (closure c) as [f|]; intros Hcl; cbn [fst snd heap].
      - destruct (Hcl (backward c (heap (snd s)))) as [Hs1 Hd1].
        destruct (Hb (heap (snd s))) as [Hs2 Hd2]. split; congruence.
      - apply Hb. }
    unfold same_layout in *. rewrite Hs, Hd. done. }
  pose proof (run_items_congruent q polls (fp16_param_groups c)
                (enum_groups 0 (param_groups (fst s))) _ H0) as Hrun.
  by destruct (run_items _ _ _ _ _ _).
Qed.

Lemma run_steps_congruent q polls calls s :
  Forall (fun c => keeps_layout c q) calls → congruent q s →
  sat (run_steps P K polls calls s)
      (fun _ s' => congruent q s') (fun s' => congruent q s').
Proof.
  intros Hall. revert s. induction Hall as [|c calls Hc _ IH]; intros s H0; [done|].
  simpl. eapply sat_bind; [by apply step_call_congruent|].
  intros loss s1 H1. eapply sat_bind; [by apply IH|].
  intros losses s2 H2. done.
Qed.

(** C9, as the code has it: in the first tracked call the kernel is handed
    two all-zero buffers with the parameter's shape and dtype, and what the
    entry holds afterwards is what the kernel wrote into them; at every
    later call, as long as the caller's own code leaves the parameter's
    shape and dtype alone, the two buffers of the entry have the shape and
    dtype of the parameter. *)
Theorem moments_zero_at_first_kernel_call polls fp16 group_id param_id p g s s' :
  grad (heap (snd s) p) = Some g →
  state (fst s) !! p = None →
  step_param P K polls fp16 group_id param_id p s = Returns tt s' →
  (∃ e m v zm zv,
     list.last (log (snd s')) = Some e ∧
     event_buffers e = Some (zm, zv) ∧
     all_zero zm = true ∧ all_zero zv = true ∧
     same_layout zm (data (heap (snd s) p)) ∧
     same_layout zv (data (heap (snd s) p)) ∧
     state (fst s') !! p
     = Some {| step_count := 1; exp_avg := overwrite zm m; exp_avg_sq := overwrite zv v |}) ∧
  congruent p s' ∧
  (∀ polls' calls,
     Forall (fun c => keeps_layout c p) calls →
     sat (run_steps P K polls' calls s')
         (fun _ s'' => congruent p s'') (fun s'' => congruent p s'')).
Proof.
  intros Hg Hnone Hrun.
  destruct (step_param_last_event _ _ _ _ _ _ _ _ Hg Hrun) as (e & m & v & He & Hb & Hst & _).
  assert (congruent p s) as Hc0.
  { intros st Hst0. congruence. }
  assert (congruent p s') as Hc1.
  { pose proof (step_param_congruent p polls fp16 group_id param_id p s Hc0) as H.
    by rewrite Hrun in H. }
  split_and!; [|done|].
  - unfold entry_of in Hb, Hst. rewrite Hnone in Hb, Hst. simpl in Hb, Hst.
    exists e, m, v, (zeros_like (data (heap (snd s) p)) cpu),
           (zeros_like (data (heap (snd s) p)) cpu).
    split_and!; try done; apply all_zero_zeros_like.
  - intros polls' calls Hall. by apply run_steps_congruent.
Qed.

End Buffers.

(** ** Kernel calls of a whole [step] *)

Section KernelCalls.

Context (P : Platform) {KState : Type} (K : Kernel KState).

Abbreviation OWQ := (Optimizer * World KState)%type.

Implicit Types s : OWQ.





(** When it is the kernel that fails, the body raises [KernelError] with
    the counter incremented and the failing call logged. *)
Lemma step_param_kernel_error polls group_id param_id p g h s :
  grad (heap (snd s) p) = Some g →
  ds_opt_adam (snd s) = Some h →
  adam_update K h (kstate (snd s)) (opt_id (fst s)) (data (heap (snd s) p)) g
              (exp_avg (entry_of s p)) (exp_avg_sq (entry_of s p)) = None →
  step_param P K polls None group_id param_id p s =
  Raises KernelError
    (set_state (fst s) p (bumped (entry_of s p)),
     logged (snd s)
       (init_events s group_id param_id p ++
        [AdamUpdate h (opt_id (fst s)) p (data (heap (snd s) p)) g
                    (exp_avg (entry_of s p)) (exp_avg_sq (entry_of s p))])).
Proof.
  intros Hg Hslot Hk. rewrite (step_param_unfold P K _ _ _ _ _ g) by done.
  unfold bind at 1, in_world at 1. cbn [fst snd].
  rewrite (load_op_cached _ _ _ h) by done.
  unfold call_adam_update, bind, in_world, emit. cbn [fst snd kstate heap opt_id set_state].
  cbn [bumped exp_avg exp_avg_sq]. unfold logged.
  cbn [kstate heap log optimizer_id ds_opt_adam fs now]. rewrite Hk.
  by rewrite <- !app_assoc.
Qed.

(** C8: when the body raises at a position after the positions before it
    were processed, the call of [step] raises the same error and leaves
    the state the failing body left: the entries and the data of the
    parameters processed before are as the processing left them, with
    their counters incremented; the failing parameter's own counter is
    already incremented; the positions after it were not visited.  When
    what fails is the kernel call, the error is [KernelError] and the state
    left is the one before the call with the call logged. *)
Theorem step_is_not_atomic polls c s before group_id param_id p after s1 e s2 :
  enum_groups 0 (param_groups (fst s)) = before ++ (group_id, param_id, p) :: after →
  run_items P K polls (fp16_param_groups c) before (at_loop_entry c s) = Returns tt s1 →
  step_param P K polls (fp16_param_groups c) group_id param_id p s1 = Raises e s2 →
  step_call P K polls c s = Raises e s2 ∧
  (∀ q, q ≠ p → state (fst s2) !! q = state (fst s1) !! q) ∧
  heap (snd s2) = heap (snd s1) ∧
  kstate (snd s2) = kstate (snd s1) ∧
  (∃ l, log (snd s2) = log (snd s1) ++ l) ∧
  (∀ q, q ≠ p →
        steps_of (fst s2) q
        = steps_of (fst s) q
          + if has_grad (heap (snd (at_loop_entry c s)) q)
            then occurrences q (map snd before) else 0) ∧
  state (fst s2) !! p = Some (bumped (entry_of s1 p)) ∧
  (∀ q, q ∉ map snd before → q ≠ p → idle q s s2) ∧
  (∀ h g,
     fp16_param_groups c = None →
     ds_opt_adam (snd s1) = Some h →
     grad (heap (snd s1) p) = Some g →
     adam_update K h (kstate (snd s1)) (opt_id (fst s1)) (data (heap (snd s1) p)) g
                 (exp_avg (entry_of s1 p)) (exp_avg_sq (entry_of s1 p)) = None →
     e = KernelError ∧
     s2 = (set_state (fst s1) p (bumped (entry_of s1 p)),
           logged (snd s1)
             (init_events s1 group_id param_id p ++
              [AdamUpdate h (opt_id (fst s1)) p (data (heap (snd s1) p)) g
                          (exp_avg (entry_of s1 p)) (exp_avg_sq (entry_of s1 p))]))).
Proof.
  intros Henum Hbefore Hraise.
  destruct (grad (heap (snd s1) p)) as [g|] eqn:Hg.
  2: { by rewrite step_param_skip in Hraise. }
  destruct (step_param_raises P K _ _ _ _ _ g _ _ _ Hg Hraise)
    as (Hself & Hhp & Hks & _ & _ & l & Hlog & _).
  destruct (run_items_counts P K _ _ _ _ _ Hbefore) as (C1 & _).
  destruct (at_loop_entry_same c s) as [Hself0 Hlog0].
  assert (∀ q, q ≠ p → state (fst s2) !! q = state (fst s1) !! q) as Hother.
  { intros q Hq. rewrite Hself. unfold set_state. cbn [state].
    by rewrite lookup_insert_ne. }
  split_and!; try done.
  - rewrite step_call_items, Henum, run_items_app. unfold bind. rewrite Hbefore.
    simpl. unfold bind. cbn [fst snd]. by rewrite Hraise.
  - eexists. exact Hlog.
  - intros q Hq. unfold steps_of at 1. rewrite (Hother q Hq).
    fold (steps_of (fst s1) q). rewrite C1. by rewrite Hself0.
  - rewrite Hself. unfold set_state. cbn [state]. by rewrite lookup_insert_eq.
  - intros q Hq Hne.
    pose proof (run_items_idle P K polls (fp16_param_groups c) before q
                  (at_loop_entry c s) (or_introl Hq)) as H1.
    rewrite Hbefore in H1. simpl in H1.
    pose proof (step_param_idle P K polls (fp16_param_groups c) group_id param_id p q s1
                  (or_introl (not_eq_sym Hne))) as H2.
    rewrite Hraise in H2. simpl in H2.
    pose proof (idle_trans q _ _ _ H1 H2) as [H3 H4].
    split; [by rewrite H3, Hself0|by rewrite H4, Hlog0].
  - intros h g' Hplain Hslot Hg' Hfail. rewrite Hplain in Hraise.
    injection Hg' as <-.
    rewrite (step_param_kernel_error polls group_id param_id p g h s1 Hg Hslot Hfail)
      in Hraise.
    by injection Hraise as <- <-.
Qed.

End KernelCalls.

(** ** The AMSGrad flag *)

Section Amsgrad.

Context (P : Platform) {KState : Type} (K : Kernel KState).

Abbreviation OWA := (Optimizer * World KState)%type.

Implicit Types s : OWA.

Lemma flag_blind_ret {A} (a : A) : flag_blind (KState := KState) (ret a).
Proof. done. Qed.

Lemma flag_blind_raise {A} (e : Exn) : flag_blind (KState := KState) (A := A) (raise e).
Proof. done. Qed.

Lemma flag_blind_bind {A B} (c : M OWA A) (k : A → M OWA B) :
  flag_blind c → (∀ a, flag_blind (k a)) → flag_blind (bind c k).
Proof.
  intros Hc Hk s. unfold bind. rewrite Hc. destruct (c s) as [a s1|e s1|]; simpl; [|done..].
  apply Hk.
Qed.

Lemma flag_blind_in_world {A} (c : M (World KState) A) : flag_blind (in_world c).
Proof. intros s. unfold in_world. cbn [forget fst snd]. by destruct (c (snd s)). Qed.

Lemma flag_blind_state_of group_id param_id p :
  flag_blind (KState := KState) (state_of group_id param_id p).
Proof.
  intros s. unfold state_of. cbn [forget fst snd forget_amsgrad state].
  by destruct (state (fst s) !! p).
Qed.

Lemma flag_blind_bump p st : flag_blind (KState := KState) (bump p st).
Proof. done. Qed.

Lemma flag_blind_index2 groups group_id param_id :
  flag_blind (KState := KState) (index2 groups group_id param_id).
Proof.
  unfold index2. destruct (groups !! group_id) as [g|]; [|done].
  by destruct (g !! param_id).
Qed.

Lemma flag_blind_call_adam_update h p g st : flag_blind (call_adam_update K h p g st).
Proof.
  intros s. unfold call_adam_update, bind, in_world, emit.
  cbn [forget fst snd forget_amsgrad opt_id kstate heap].
  by destruct (adam_update K h _ _ _ _ _ _) as [[ks [[d m] v]]|].
Qed.

Lemma flag_blind_call_adam_update_copy h p g st q :
  flag_blind (call_adam_update_copy K h p g st q).
Proof.
  intros s. unfold call_adam_update_copy, bind, in_world, emit.
  cbn [forget fst snd forget_amsgrad opt_id kstate heap].
  by destruct (adam_update_copy K h _ _ _ _ _ _ _) as [[ks [[[d m] v] c]]|].
Qed.

Lemma flag_blind_step_param polls fp16 group_id param_id p :
  flag_blind (step_param P K polls fp16 group_id param_id p).
Proof.
  intros s. unfold step_param. cbn [forget snd].
  destruct (grad (heap (snd s) p)) as [g|]; [|done].
  revert s. change (flag_blind
    (do st0 <- state_of group_id param_id p ;
     do st <- bump p st0 ;
     do ds_opt_adam <- in_world (load_op P polls) ;
     match fp16 with
     | Some groups =>
         do p_fp16 <- index2 groups group_id param_id ;
         call_adam_update_copy K ds_opt_adam p g st p_fp16
     | None => call_adam_update K ds_opt_adam p g st
     end)).
  apply flag_blind_bind; [apply flag_blind_state_of|intros st0].
  apply flag_blind_bind; [apply flag_blind_bump|intros st].
  apply flag_blind_bind; [apply flag_blind_in_world|intros h].
  destruct fp16 as [groups|]; [|apply flag_blind_call_adam_update].
  apply flag_blind_bind; [apply flag_blind_index2|intros q].
  apply flag_blind_call_adam_update_copy.
Qed.

Lemma flag_blind_run_items polls fp16 its : flag_blind (run_items P K polls fp16 its).
Proof.
  induction its as [|it its IH]; [done|]. simpl.
  apply flag_blind_bind; [apply flag_blind_step_param|]. intros _. apply IH.
Qed.

Lemma enum_groups_forget group_id gs :
  enum_groups group_id (map forget_group gs) = enum_groups group_id gs.
Proof.
  revert group_id. induction gs as [|g gs IH]; intros group_id; [done|].
  simpl. by rewrite IH.
Qed.

Lemma flag_blind_step_call polls c : flag_blind (step_call P K polls c).
Proof.
  intros s. rewrite !step_call_items.
  cbn [forget fst snd forget_amsgrad param_groups]. rewrite enum_groups_forget.
  assert (at_loop_entry c (forget s) = forget (at_loop_entry c s)) as ->.
  { rewrite !at_loop_entry_eq. unfold after_closure, with_heap, forget.
    by destruct (closure c). }
  rewrite flag_blind_run_items. by destruct (run_items _ _ _ _ _ _).
Qed.

Lemma flag_blind_run_steps polls calls : flag_blind (run_steps P K polls calls).
Proof.
  induction calls as [|c calls IH]; [done|]. simpl.
  apply flag_blind_bind; [apply flag_blind_step_call|intros loss].
  apply flag_blind_bind; [apply IH|intros losses]. apply flag_blind_ret.
Qed.

(** C10: two constructions that differ in the [amsgrad] argument only end
    in the same way and leave the same process, hence the same
    [create_adam] call in its log, and instances that differ in the flag
    recorded in their groups only; and on two instances that differ in
    that flag only, every sequence of [step] calls ends in the same way
    and leaves the same process, hence the same kernel calls, and instances
    that again differ in the flag only. *)
Theorem amsgrad_reaches_no_kernel_call polls mp a bs e wd (w : World KState) ams1 ams2 :
  match init P K polls mp a bs e wd ams1 w, init P K polls mp a bs e wd ams2 w with
  | Returns o1 w1, Returns o2 w2 =>
      w1 = w2 ∧ forget_amsgrad o1 = forget_amsgrad o2 ∧
      Forall (fun g => amsgrad g = ams1) (param_groups o1) ∧
      Forall (fun g => amsgrad g = ams2) (param_groups o2) ∧
      ∀ polls' calls,
        blind (run_steps P K polls' calls (o1, w1))
        = blind (run_steps P K polls' calls (o2, w2))
  | Raises e1 w1, Raises e2 w2 => e1 = e2 ∧ w1 = w2
  | Blocked, Blocked => True
  | _, _ => False
  end.
Proof.
  rewrite !(init_cases P K). destruct (accepted mp); [|done].
  cbv zeta. unfold bind, next_optimizer_id.
  destruct (load_op P polls _) as [h w1|e1 w1|]; [|done..].
  destruct (call_create_adam K h _ _ _ _ _ _ w1) as [[] w2|e2 w2|]; [|done..].
  unfold ret. split_and!; try done.
  - unfold forget_amsgrad, groups_of. cbn. f_equal. rewrite !map_map. done.
  - unfold groups_of. cbn. induction mp; by constructor.
  - unfold groups_of. cbn. induction mp; by constructor.
  - intros polls' calls.
    rewrite <- !flag_blind_run_steps. unfold forget. cbn [fst snd]. f_equal. f_equal.
    unfold forget_amsgrad, groups_of. cbn. f_equal. rewrite !map_map. done.
Qed.

End Amsgrad.

(** ** The statements on a concrete process *)

Section DemoRuns.

Import Demo.

Abbreviation WD := (World RefKernel.KState).

Ltac by_evaluation := apply (bool_decide_unpack _); vm_compute; exact I.

Example join_relative : Path.join "/tmp/torch-extensions" ["ds_cpu_adam"; "done"]
                        = "/tmp/torch-extensions/ds_cpu_adam/done".
Proof. reflexivity. Qed.

Example join_trailing_slash : Path.join "/tmp/" ["x"] = "/tmp/x".
Proof. reflexivity. Qed.

Example join_absolute : Path.join "/tmp/torch-extensions" ["/opt/cache"; "started"]
                        = "/opt/cache/started".
Proof. reflexivity. Qed.

Example ext_dir_default : ext_dir platform = "/tmp/torch-extensions/ds_cpu_adam".
Proof. reflexivity. Qed.

Example ext_dir_from_environment :
  ext_dir {| environ := {["TORCH_EXTENSIONS_DIR" := "/scratch/ext"]};
             CUDA_HOME := None; module_dir := "/opt"; others := fun _ f => f;
             load := fun _ _ _ => None |}
  = "/scratch/ext/ds_cpu_adam".
Proof. vm_compute. reflexivity. Qed.

(** Without a CUDA installation the path arithmetic of [load_op] raises
    after the "started" marker is written. *)
Example load_op_without_cuda :
  match load_op {| environ := ∅; CUDA_HOME := None; module_dir := "/opt";
                   others := fun _ f => f; load := fun _ _ _ => Some 7 |}
                1 (fresh ∅) with
  | Raises TypeError w => elements (fs w) = ["/tmp/torch-extensions/ds_cpu_adam/started"]
  | _ => False
  end.
Proof. vm_compute. reflexivity. Qed.

(** One step of the reference kernel on object 1, from zero moments. *)
Example first_step_moments :
  match step_param platform RefKernel.kernel 1 None 0 0 1 (instance [[1]], loaded) with
  | Returns _ s =>
      (fun st => (step_count st, values (exp_avg st), values (exp_avg_sq st)))
        <$> state (fst s) !! 1
      = Some (1, [(1 # 100)%Q], [(1 # 100000)%Q])
  | _ => False
  end.
Proof. vm_compute. reflexivity. Qed.

Lemma stuck_sleep_fs t (w : WD) : fs (sleep stuck_platform t w) = fs w.
Proof.
  revert w. induction t as [|t IH]; intros w; [done|].
  rewrite sleep_S, IH. done.
Qed.

(** With a crashed builder's "started" marker the loader waits under
    every bound; in an empty cache the wait returns at once. *)
Lemma wait_if_build_started_blocks_iff_no_done_witness :
  (∀ polls, load_op stuck_platform polls (fresh started_only) = Blocked) ∧
  wait_if_build_started stuck_platform 1 (ext_dir stuck_platform) (fresh ∅)
  = Returns tt (fresh ∅).
Proof.
  destruct (wait_if_build_started_blocks_iff_no_done stuck_platform (fresh started_only))
    as [Hblock _].
  destruct (wait_if_build_started_blocks_iff_no_done stuck_platform (fresh ∅))
    as [_ Hfree].
  split.
  - intros polls. apply Hblock.
    + vm_compute. reflexivity.
    + intros t. rewrite stuck_sleep_fs. vm_compute. reflexivity.
    + reflexivity.
    + vm_compute. reflexivity.
  - apply Hfree. left. vm_compute. reflexivity.
Defined.

(** The waiting loader of the demo process is blocked for two polls at
    least and then builds. *)
Lemma load_op_waits_then_loads_witness :
  ∃ m, m ≤ 2 ∧ 0 < m ∧
       ∀ polls, polls ≤ m → load_op platform polls (fresh started_only) = Blocked.
Proof.
  destruct (load_op_waits_then_loads platform (fresh started_only) "/usr/local/cuda" 2)
    as (m & Hm & Hpos & Hblocked & _).
  - reflexivity.
  - vm_compute. reflexivity.
  - vm_compute. reflexivity.
  - reflexivity.
  - vm_compute. reflexivity.
  - exists m. split_and!; [exact Hm| |exact Hblocked].
    apply Hpos. vm_compute. reflexivity.
Defined.

(** C1 fails as stated: the call that waited for the "done" marker of
    another builder returns after calling the JIT loader itself. *)
Lemma load_op_loads_again_after_wait : ¬ reuses_prebuilt platform (fresh started_only).
Proof.
  intros H. destruct H as [_ H].
  - reflexivity.
  - vm_compute. reflexivity.
  - vm_compute. reflexivity.
  - exists 2. vm_compute. reflexivity.
  - destruct (load_op platform 3 (fresh started_only)) as [h w'|e w'|] eqn:E.
    + specialize (H 3 h w' E). vm_compute in E. injection E as <- <-.
      vm_compute in H. discriminate H.
    + vm_compute in E. discriminate E.
    + vm_compute in E. discriminate E.
Qed.

(** The first [load_op] of a fresh process builds; later calls find the
    handle. *)
Lemma load_op_builds_once_witness :
  ∃ h w1, load_op platform 1 (fresh ∅) = Returns h w1 ∧
          ds_opt_adam w1 = Some h ∧
          compiler_calls (log w1) = 1 ∧
          load_op platform 0 w1 = Returns h w1.
Proof.
  destruct (load_op platform 1 (fresh ∅)) as [h w1|e w1|] eqn:E.
  2, 3: (vm_compute in E; discriminate E).
  exists h, w1. split; [reflexivity|].
  destruct (load_op_builds_once platform RefKernel.kernel 1 (fresh ∅) h w1 eq_refl E)
    as (Hs & Hc & Hl & _).
  split_and!; [exact Hs|exact Hc|]. apply Hl. exact Hs.
Defined.

(** Three constructor calls in a fresh process, the second with an empty
    parameter list, and a step in between: the refused call takes no
    identifier. *)
Lemma opt_id_counts_constructions_witness :
  ∃ st', run_script platform RefKernel.kernel 1
                    [Construct (hyper [[1]]); Construct (hyper []);
                     StepOn 0 plain_call; Construct (hyper [[3]])]
                    ([], fresh ∅) = Some st' ∧
         optimizer_id (snd st') = 2 ∧
         ∀ i o, fst st' !! i = Some o → opt_id o = i.
Proof.
  destruct (run_script platform RefKernel.kernel 1
              [Construct (hyper [[1]]); Construct (hyper []);
               StepOn 0 plain_call; Construct (hyper [[3]])]
              ([], fresh ∅)) as [st'|] eqn:E.
  2: (vm_compute in E; discriminate E).
  exists st'. split; [reflexivity|].
  destruct (opt_id_counts_constructions platform RefKernel.kernel 1
              [Construct (hyper [[1]]); Construct (hyper []);
               StepOn 0 plain_call; Construct (hyper [[3]])]
              ∅ 0 objects ∅ st' E) as (Hc & _ & _ & _ & Hexact).
  split; [exact Hc|]. apply Hexact.
  vm_compute in E. injection E as <-. reflexivity.
Defined.

(** Object 1, seen for the first time. *)
Lemma state_allocated_once_witness :
  ∃ s', step_param platform RefKernel.kernel 1 None 0 0 1 (instance [[1; 3]], loaded)
        = Returns tt s' ∧
        allocations (log (snd s')) = 2 ∧
        ∃ e m v, list.last (log (snd s')) = Some e ∧
                 event_buffers e = Some (zeros_like (vec [1%Q]) cpu,
                                         zeros_like (vec [1%Q]) cpu) ∧
                 state (fst s') !! 1
                 = Some (written (bumped (init_state (vec [1%Q]))) m v).
Proof.
  destruct (step_param platform RefKernel.kernel 1 None 0 0 1 (instance [[1; 3]], loaded))
    as [[] s'|e s'|] eqn:E.
  2, 3: (vm_compute in E; discriminate E).
  exists s'. split; [reflexivity|].
  destruct (state_allocated_once platform RefKernel.kernel 1 None 0 0 1
              (vec [(1 # 10)%Q]) (instance [[1; 3]], loaded) s' eq_refl E)
    as (Hfirst & _ & Hlast & _).
  destruct (Hfirst eq_refl) as (_ & _ & _ & _ & _ & _ & _ & Ha).
  split; [exact Ha|]. exact Hlast.
Defined.


(** Objects 1, 2 and 3: the kernel refuses object 2, whose gradient has
    the wrong size, after object 1 was updated. *)
Lemma step_is_not_atomic_witness :
  ∃ s2, step_call platform RefKernel.kernel 1 plain_call (instance [[1; 2; 3]], loaded)
        = Raises KernelError s2 ∧
        steps_of (fst s2) 1 = 1 ∧ steps_of (fst s2) 2 = 1 ∧ state (fst s2) !! 3 = None.
Proof.
  assert (3 ∉ map snd [(0, 0, 1)]) as Hout by by_evaluation.
  destruct (run_items platform RefKernel.kernel 1 None [(0, 0, 1)]
              (at_loop_entry plain_call (instance [[1; 2; 3]], loaded)))
    as [[] s1|e s1|] eqn:E1.
  2, 3: (vm_compute in E1; discriminate E1).
  destruct (step_param platform RefKernel.kernel 1 None 0 1 2 s1) as [[] s2|e s2|] eqn:E2.
  1, 3: (vm_compute in E1; injection E1 as <-; vm_compute in E2; discriminate E2).
  assert (e = KernelError ∧ steps_of (fst s2) 2 = 1) as [-> H2].
  { vm_compute in E1. injection E1 as <-. vm_compute in E2. injection E2 as <- <-.
    split; reflexivity. }
  exists s2.
  destruct (step_is_not_atomic platform RefKernel.kernel 1 plain_call
              (instance [[1; 2; 3]], loaded) [(0, 0, 1)] 0 1 2 [(0, 2, 3)] s1
              KernelError s2 eq_refl E1 E2)
    as (Hraise & _ & _ & _ & _ & Hsteps & _ & Hidle & _).
  split; [exact Hraise|]. split_and!.
  - rewrite (Hsteps 1 ltac:(discriminate)). reflexivity.
  - exact H2.
  - destruct (Hidle 3 Hout ltac:(discriminate)) as [H3 _]. rewrite H3. reflexivity.
Defined.

(** Object 1 again: the kernel is handed zeros and leaves its own values. *)
Lemma moments_zero_at_first_kernel_call_witness :
  ∃ s', step_param platform RefKernel.kernel 1 None 0 0 1 (instance [[1; 3]], loaded)
        = Returns tt s' ∧ congruent 1 s'.
Proof.
  destruct (step_param platform RefKernel.kernel 1 None 0 0 1 (instance [[1; 3]], loaded))
    as [[] s'|e s'|] eqn:E.
  2, 3: (vm_compute in E; discriminate E).
  exists s'. split; [reflexivity|].
  destruct (moments_zero_at_first_kernel_call platform RefKernel.kernel 1 None 0 0 1
              (vec [(1 # 10)%Q]) (instance [[1; 3]], loaded) s' eq_refl eq_refl E)
    as (_ & Hc & _).
  exact Hc.
Defined.

(** C9 fails as stated: after the first tracked call the first moment of
    object 1 is 1/100. *)
Lemma moments_not_zero_after_first_step :
  ¬ zero_after_first_step platform RefKernel.kernel 1 plain_call
      (instance [[1; 3]], loaded) 1.
Proof.
  intros H.
  destruct (step_call platform RefKernel.kernel 1 plain_call (instance [[1; 3]], loaded))
    as [loss s'|e s'|] eqn:E.
  2, 3: (vm_compute in E; discriminate E).
  destruct (state (fst s') !! 1) as [st|] eqn:Hst.
  - destruct (H eq_refl loss s' st E Hst) as [Hz _].
    vm_compute in E. injection E as <- <-. vm_compute in Hst. injection Hst as <-.
    vm_compute in Hz. discriminate Hz.
  - vm_compute in E. injection E as <- <-. vm_compute in Hst. discriminate Hst.
Qed.

End DemoRuns.

(** ** More on the loader *)

Section LoaderOutcomes.

Context (P : Platform) {KState : Type}.

Implicit Types w : World KState.

Lemma sleep_logged n w l : sleep P n (logged w l) = logged (sleep P n w) l.
Proof.
  revert w. induction n as [|n IH]; intros w; [done|].
  rewrite !sleep_S, <- IH. done.
Qed.

Lemma sleep_fs_idle n w : (∀ t f, others P t f = f) → fs (sleep P n w) = fs w.
Proof.
  intros Hidle. revert w. induction n as [|n IH]; intros w; [done|].
  rewrite sleep_S, IH. simpl. apply Hidle.
Qed.

(** The wait never raises, and when it returns the process has slept a
    whole number of rounds of 1000 seconds. *)
Lemma wait_if_build_started_rounds polls ext_path w :
  match wait_if_build_started P polls ext_path w with
  | Returns _ w1 => ∃ m, w1 = sleep P (1000 * m) w
  | Raises _ _ => False
  | Blocked => True
  end.
Proof.
  unfold wait_if_build_started. destruct (isfile _ _); [|by exists 0].
  revert w. induction polls as [|k IH]; intros w; [done|].
  cbn [wait_done]. destruct (isfile _ _); cbn [negb]; [by exists 0|].
  specialize (IH (sleep P 1000 w)).
  destruct (wait_done P k ext_path (sleep P 1000 w)) as [[] w1|e w1|]; [|done..].
  destruct IH as [m ->]. exists (S m). rewrite sleep_add. f_equal. lia.
Qed.

Lemma wait_if_build_started_logged polls ext_path w l :
  wait_if_build_started P polls ext_path (logged w l) =
  match wait_if_build_started P polls ext_path w with
  | Returns a w1 => Returns a (logged w1 l)
  | Raises e w1 => Raises e (logged w1 l)
  | Blocked => Blocked
  end.
Proof.
  unfold wait_if_build_started. change (fs (logged w l)) with (fs w).
  destruct (isfile _ _); [|done].
  revert w. induction polls as [|k IH]; intros w; simpl; [done|].
  destruct (isfile _ _); simpl; [done|].
  rewrite sleep_logged. apply IH.
Qed.

(** [load_op] with an empty slot, outcome by outcome. *)
Lemma load_op_outcomes polls w :
  ds_opt_adam w = None →
  let mk slot f t l := mkWorld (optimizer_id w) slot f t (heap w) (kstate w) (log w ++ l) in
  match makedirs_error (fs w) (ext_dir P) with
  | Some e => load_op P polls w = Raises e (logged w [Makedirs (ext_dir P)])
  | None =>
    match wait_if_build_started P polls (ext_dir P) w with
    | Returns _ w1 =>
        (∃ m, w1 = sleep P (1000 * m) w) ∧
        let f := {[started_marker P]} ∪ fs w1 in
        load_op P polls w =
        match CUDA_HOME P with
        | None =>
            Raises TypeError
              (mk None f (now w1) [Makedirs (ext_dir P); Touch (started_marker P)])
        | Some home =>
            match load P (load_call P home) (now w1) f with
            | Some h =>
                Returns h
                  (mk (Some h) ({[done_marker P]} ∪ f) (now w1)
                      [Makedirs (ext_dir P); Touch (started_marker P);
                       JitLoad (load_call P home); Touch (done_marker P)])
            | None =>
                Raises BuildError
                  (mk None f (now w1)
                      [Makedirs (ext_dir P); Touch (started_marker P);
                       JitLoad (load_call P home)])
            end
        end
    | Raises _ _ => False
    | Blocked => load_op P polls w = Blocked
    end
  end.
Proof.
  intros Hslot. cbv zeta.
  assert (load_op P polls w =
    match makedirs_error (fs w) (ext_dir P) with
    | Some e => Raises e (logged w [Makedirs (ext_dir P)])
    | None =>
      bind (wait_if_build_started P polls (ext_dir P))
           (fun _ => touch (Path.join (ext_dir P) ["started"]);;
                     match CUDA_HOME P with
                     | Some home =>
                         do h <- jit_load P (load_call P home);
                         set_ds_opt_adam h;; touch (Path.join (ext_dir P) ["done"]);; ret h
                     | None => raise TypeError
                     end)
           (logged w [Makedirs (ext_dir P)])
    end) as ->.
  { unfold load_op. rewrite Hslot. unfold bind at 1. unfold makedirs, bind at 1, emit, logged.
    cbn [fs]. by destruct (makedirs_error (fs w) (ext_dir P)). }
  destruct (makedirs_error (fs w) (ext_dir P)); [done|].
  assert (∀ (k : unit → M (World KState) Handle) l,
    bind (wait_if_build_started P polls (ext_dir P)) k (logged w l) =
    match wait_if_build_started P polls (ext_dir P) w with
    | Returns a w1 => k a (logged w1 l)
    | Raises e w1 => Raises e (logged w1 l)
    | Blocked => Blocked
    end) as ->.
  { intros k l. unfold bind. rewrite wait_if_build_started_logged.
    by destruct (wait_if_build_started P polls (ext_dir P) w). }
  pose proof (wait_if_build_started_rounds polls (ext_dir P) w) as Hrounds.
  destruct (wait_if_build_started P polls (ext_dir P) w) as [[] w1|e w1|]; [|done..].
  split; [exact Hrounds|]. destruct Hrounds as [m ->].
  generalize (1000 * m). intros d.
  destruct (sleep_rest P d w) as (Hid & Hsl & Hhp & Hks & Hlog).
  unfold started_marker, done_marker.
  unfold touch, jit_load, set_ds_opt_adam, bind, emit, ret, raise, with_fs, logged. simpl.
  rewrite Hid, Hsl, Hhp, Hks, Hlog, Hslot.
  destruct (CUDA_HOME P) as [home|]; simpl.
  - destruct (load P (load_call P home) _ _) as [h|]; simpl; by rewrite <- !app_assoc.
  - by rewrite <- !app_assoc.
Qed.

(** X1: when a regular file stands at the path of the cache directory,
    [load_op] with an empty slot raises [FileExistsError] at once, whatever
    markers there are and under any bound on the polls: it has not waited,
    written no file, not called the JIT loader, and the slot is still
    empty. *)
Theorem load_op_file_in_the_way polls w :
  ds_opt_adam w = None →
  isfile (fs w) (ext_dir P) = true →
  ∃ w', load_op P polls w = Raises FileExistsError w' ∧
        fs w' = fs w ∧ now w' = now w ∧ ds_opt_adam w' = None ∧
        log w' = log w ++ [Makedirs (ext_dir P)].
Proof.
  intros Hslot Hfile. pose proof (load_op_outcomes polls w Hslot) as H.
  cbv zeta in H. unfold makedirs_error in H. rewrite Hfile in H.
  eexists. split; [exact H|]. by split_and!.
Qed.

(** X2: on a machine where torch found no CUDA installation, [load_op]
    with an empty slot never returns a handle.  When [os.makedirs] refuses
    the cache directory (a regular file stands at its path, or at the path
    of a directory above it), the call raises that refusal and has written
    nothing.  Otherwise, unless it is kept waiting, it raises [TypeError]
    after it has written the "started" marker.  In every case the JIT
    loader was not called, the slot is empty, and no "done" marker was
    written by the call. *)
Theorem load_op_needs_cuda polls w :
  ds_opt_adam w = None →
  CUDA_HOME P = None →
  match load_op P polls w with
  | Returns _ _ => False
  | Raises e w' =>
      ds_opt_adam w' = None ∧
      compiler_calls (log w') = compiler_calls (log w) ∧
      ((makedirs_error (fs w) (ext_dir P) = Some e ∧
        (e = FileExistsError ∧ isfile (fs w) (ext_dir P) = true ∨
         e = NotADirectoryError ∧ isfile (fs w) (ext_dir P) = false ∧
         file_on_path (fs w) (ext_dir P) = true) ∧
        fs w' = fs w ∧ now w' = now w ∧
        log w' = log w ++ [Makedirs (ext_dir P)]) ∨
       (makedirs_error (fs w) (ext_dir P) = None ∧
        e = TypeError ∧ isfile (fs w') (started_marker P) = true ∧
        ∃ m, fs w' = {[started_marker P]} ∪ fs (sleep P (1000 * m) w) ∧
             log w' = log w ++ [Makedirs (ext_dir P); Touch (started_marker P)]))
  | Blocked => makedirs_error (fs w) (ext_dir P) = None
  end.
Proof.
  intros Hslot Hcuda. pose proof (load_op_outcomes polls w Hslot) as H.
  cbv zeta in H. rewrite Hcuda in H.
  pose proof (makedirs_error_cases (fs w) (ext_dir P)) as Hcases.
  destruct (makedirs_error (fs w) (ext_dir P)) as [e0|] eqn:Herr.
  - rewrite H. simpl. split_and!; [done| |left].
    + rewrite compiler_calls_app. unfold compiler_calls at 2. simpl. lia.
    + split_and!; try done. unfold isfile.
      destruct Hcases as [[-> ?]|(-> & ? & _ & ?)]; [by left|by right].
  - destruct (wait_if_build_started P polls (ext_dir P) w) as [[] w1|e w1|]; [|done|].
    + destruct H as [[m ->] ->]. simpl. split_and!; [done| |right].
      * rewrite compiler_calls_app. unfold compiler_calls at 2. simpl. lia.
      * split_and!; [done|done| |].
        -- unfold isfile. apply bool_decide_eq_true. set_solver.
        -- by exists m.
    + by rewrite H.
Qed.

(** X3: a call of [load_op] that returns from an empty slot has run the
    whole build sequence: torch found a CUDA installation, the log gained
    exactly the directory creation, the "started" marker, one call of the
    JIT loader with the sources and flags, and the "done" marker, in that
    order; both markers are in the cache; the time that passed is a whole
    number of 1000-second sleeps of the wait; and the parameter objects,
    the kernel's state and the instance counter are untouched. *)
Theorem load_op_marks_done polls w h w' :
  ds_opt_adam w = None →
  load_op P polls w = Returns h w' →
  ∃ home m,
    CUDA_HOME P = Some home ∧
    log w' = log w ++ [Makedirs (ext_dir P); Touch (started_marker P);
                       JitLoad (load_call P home); Touch (done_marker P)] ∧
    isfile (fs w') (started_marker P) = true ∧
    isfile (fs w') (done_marker P) = true ∧
    fs w' = {[done_marker P]} ∪ ({[started_marker P]} ∪ fs (sleep P (1000 * m) w)) ∧
    now w' = now w + 1000 * m ∧
    load P (load_call P home) (now w') ({[started_marker P]} ∪ fs (sleep P (1000 * m) w))
      = Some h ∧
    ds_opt_adam w' = Some h ∧
    heap w' = heap w ∧ kstate w' = kstate w ∧ optimizer_id w' = optimizer_id w.
Proof.
  intros Hslot Hret. pose proof (load_op_outcomes polls w Hslot) as H.
  cbv zeta in H. destruct (makedirs_error (fs w) (ext_dir P)); [congruence|].
  destruct (wait_if_build_started P polls (ext_dir P) w) as [[] w1|e w1|];
    [|done|congruence].
  destruct H as [[m ->] H]. rewrite Hret in H.
  destruct (CUDA_HOME P) as [home|]; [|done].
  pose proof (sleep_now P (1000 * m) w) as Hnow.
  destruct (load P (load_call P home) _ _) as [h'|] eqn:Hload; [|done].
  injection H as -> ->. exists home, m. cbn [log fs now ds_opt_adam heap kstate optimizer_id].
  split_and!; try done;
    try (unfold isfile; apply bool_decide_eq_true; set_solver).
Qed.

(** X4: a build that fails leaves the cache marked as being built.  When
    [load_op] raises [TypeError] (no CUDA installation) or [BuildError]
    (the JIT loader failed), the directory was accepted, the slot is still
    empty and the "started" marker is in the cache; so unless something
    else writes a "done" marker, the next call of [load_op], in this or in
    any other process with an empty slot that sees this cache, waits under
    every bound on the polls.  A refusal of the directory by [os.makedirs]
    is no such failure: it leaves no marker. *)
Theorem failed_build_blocks_next_call polls w e w' :
  ds_opt_adam w = None →
  load_op P polls w = Raises e w' →
  (e = TypeError ∨ e = BuildError ↔ makedirs_error (fs w) (ext_dir P) = None) ∧
  (makedirs_error (fs w) (ext_dir P) ≠ None → fs w' = fs w) ∧
  (e = TypeError ∨ e = BuildError →
   ds_opt_adam w' = None ∧
   isfile (fs w') (started_marker P) = true ∧
   ∀ w2 : World KState,
     ds_opt_adam w2 = None →
     fs w2 = fs w' →
     isfile (fs w2) (ext_dir P) = false →
     (∀ n, isfile (fs (sleep P (1000 * n) w2)) (done_marker P) = false) →
     ∀ polls', load_op P polls' w2 = Blocked).
Proof.
  intros Hslot Hraise. pose proof (load_op_outcomes polls w Hslot) as H.
  cbv zeta in H.
  pose proof (makedirs_error_cases (fs w) (ext_dir P)) as Hcases.
  destruct (makedirs_error (fs w) (ext_dir P)) as [e0|] eqn:Herr.
  { rewrite Hraise in H. injection H as <- ->.
    assert (¬ (e = TypeError ∨ e = BuildError)) as Hno.
    { destruct Hcases as [[-> _]|[-> _]]; intros [|]; discriminate. }
    split_and!; [split; [done|discriminate]|done|done]. }
  destruct (wait_if_build_started P polls (ext_dir P) w) as [[] w1|e1 w1|];
    [|done|congruence].
  destruct H as [_ H]. rewrite Hraise in H.
  assert (ds_opt_adam w' = None ∧ fs w' = {[started_marker P]} ∪ fs w1 ∧
          (e = TypeError ∨ e = BuildError)) as (Hslot' & Hfs & He).
  { destruct (CUDA_HOME P) as [home|].
    - destruct (load P (load_call P home) _ _); [done|]. injection H as -> ->. eauto.
    - injection H as -> ->. eauto. }
  assert (isfile (fs w') (started_marker P) = true) as Hstarted.
  { unfold isfile. apply bool_decide_eq_true. rewrite Hfs. set_solver. }
  split_and!; [done|done|]. intros _. split_and!; try done.
  intros w2 Hslot2 Hfs2 Hdir Hnever polls'.
  pose proof (load_op_outcomes polls' w2 Hslot2) as H2. cbv zeta in H2.
  rewrite (makedirs_error_started P (fs w2)) in H2; [|exact Hdir|by rewrite Hfs2].
  assert (wait_if_build_started P polls' (ext_dir P) w2 = Blocked) as Hwait.
  { unfold wait_if_build_started. rewrite Hfs2. unfold started_marker in Hstarted.
    rewrite Hstarted. apply wait_done_never. exact Hnever. }
  by rewrite Hwait in H2.
Qed.

(** *** The first poll that finds the marker *)

Lemma wait_done_first ext_path n w :
  isfile (fs (sleep P (1000 * n) w)) (Path.join ext_path ["done"]) = true →
  ∃ m, m ≤ n ∧
       (∀ j, j < m →
             isfile (fs (sleep P (1000 * j) w)) (Path.join ext_path ["done"]) = false) ∧
       isfile (fs (sleep P (1000 * m) w)) (Path.join ext_path ["done"]) = true ∧
       ∀ polls, wait_done P polls ext_path w =
                if decide (polls ≤ m) then Blocked
                else Returns tt (sleep P (1000 * m) w).
Proof.
  revert w. induction n as [|n IH]; intros w Hseen.
  - exists 0. split; [done|]. split; [intros; lia|]. split; [done|].
    rewrite Nat.mul_0_r in Hseen. unfold sleep in Hseen.
    intros [|k]; [done|]. simpl. rewrite Hseen. simpl.
    repeat case_decide; try lia; reflexivity.
  - destruct (isfile (fs w) (Path.join ext_path ["done"])) eqn:Hnow.
    + exists 0. split; [lia|]. split; [intros; lia|]. split; [done|].
      intros [|k]; [done|]. simpl. rewrite Hnow. simpl.
      repeat case_decide; try lia; reflexivity.
    + destruct (IH (sleep P 1000 w)) as (m & Hm & Hbefore & Hat & Hwait).
      { rewrite sleep_add. by replace (1000 + 1000 * n) with (1000 * S n) by lia. }
      exists (S m). split; [lia|]. split_and!.
      * intros [|j] Hj; [done|]. specialize (Hbefore j ltac:(lia)).
        rewrite sleep_add in Hbefore.
        by replace (1000 + 1000 * j) with (1000 * S j) in Hbefore by lia.
      * rewrite sleep_add in Hat.
        by replace (1000 + 1000 * m) with (1000 * S m) in Hat by lia.
      * intros [|k]; [done|]. simpl. rewrite Hnow. simpl. rewrite Hwait.
        rewrite sleep_add. replace (1000 + 1000 * m) with (1000 * S m) by lia.
        repeat case_decide; done || lia.
Qed.

(** X5: with a "started" marker in the cache, [wait_if_build_started]
    looks for the "done" marker at the call and then every 1000 seconds,
    and at no other time: it returns at the first of these instants at
    which the marker is there, after exactly that many sleeps, and has
    changed nothing in the process but the clock; with fewer polls than
    that it is still waiting. *)
Theorem wait_returns_at_first_poll (w : World KState) n :
  isfile (fs w) (started_marker P) = true →
  isfile (fs (sleep P (1000 * n) w)) (done_marker P) = true →
  ∃ m, m ≤ n ∧
    (∀ j, j < m → isfile (fs (sleep P (1000 * j) w)) (done_marker P) = false) ∧
    isfile (fs (sleep P (1000 * m) w)) (done_marker P) = true ∧
    (∀ polls, polls ≤ m → wait_if_build_started P polls (ext_dir P) w = Blocked) ∧
    ∃ w', (∀ polls, m < polls →
                    wait_if_build_started P polls (ext_dir P) w = Returns tt w') ∧
          now w' = now w + 1000 * m ∧
          log w' = log w ∧ ds_opt_adam w' = ds_opt_adam w ∧ heap w' = heap w ∧
          kstate w' = kstate w ∧ optimizer_id w' = optimizer_id w.
Proof.
  unfold started_marker, done_marker. intros Hstarted Hseen.
  destruct (wait_done_first (ext_dir P) n w Hseen) as (m & Hm & Hbefore & Hat & Hwait).
  exists m. split_and!; try done.
  - intros polls Hle. unfold wait_if_build_started. rewrite Hstarted, Hwait.
    by rewrite decide_True.
  - exists (sleep P (1000 * m) w).
    destruct (sleep_rest P (1000 * m) w) as (? & ? & ? & ? & ?).
    split_and!; try done; [|apply sleep_now].
    intros polls Hlt. unfold wait_if_build_started. rewrite Hstarted, Hwait.
    by rewrite decide_False by lia.
Qed.

(** *** Nothing is removed from the cache *)

#[global] Instance files_kept_reflexive : Reflexive (@files_kept KState).
Proof. intros w. unfold files_kept. done. Qed.

#[global] Instance files_kept_transitive : Transitive (@files_kept KState).
Proof. intros w1 w2 w3. unfold files_kept. set_solver. Qed.

Lemma sleep_files_kept n w : others_keep_files P → files_kept w (sleep P n w).
Proof.
  intros Hkeep. revert w. induction n as [|n IH]; intros w; [done|].
  rewrite sleep_S. etransitivity; [|apply IH]. unfold files_kept. simpl. apply Hkeep.
Qed.

(** X6: [load_op] removes nothing from the build cache.  As long as the
    other processes remove nothing either, every file that is in the cache
    when [load_op] is called is still there when it returns or raises; in
    particular a "started" marker, once written, stays, also after a
    failed build. *)
Theorem load_op_keeps_files polls w :
  others_keep_files P →
  sat (load_op P polls w) (fun _ w' => files_kept w w') (fun w' => files_kept w w').
Proof.
  intros Hkeep. destruct (ds_opt_adam w) as [h|] eqn:Hslot.
  { rewrite (load_op_cached P polls w h Hslot). simpl. reflexivity. }
  pose proof (load_op_outcomes polls w Hslot) as H. cbv zeta in H.
  destruct (makedirs_error (fs w) (ext_dir P)).
  { rewrite H. simpl. unfold files_kept. done. }
  destruct (wait_if_build_started P polls (ext_dir P) w) as [[] w1|e w1|]; [|done|].
  2: { by rewrite H. }
  destruct H as [[m ->] ->].
  pose proof (sleep_files_kept (1000 * m) w Hkeep) as Hs. unfold files_kept in *.
  destruct (CUDA_HOME P) as [home|]; [destruct (load P _ _ _)|]; simpl; set_solver.
Qed.

End LoaderOutcomes.

(** ** Edges of [step] *)

Section StepEdges.

Context (P : Platform) {KState : Type} (K : Kernel KState).

Implicit Types s : Optimizer * World KState.

Lemma run_items_no_grad polls fp16 its s :
  (∀ it, it ∈ its → grad (heap (snd s) (snd it)) = None) →
  run_items P K polls fp16 its s = Returns tt s.
Proof.
  induction its as [|it its IH]; intros Hnone; [done|].
  simpl. unfold bind. rewrite step_param_skip by (apply Hnone; set_solver).
  apply IH. intros it' Hin. apply Hnone. set_solver.
Qed.

(** X7: a call of [step] in which no parameter of the instance carries a
    gradient (in particular on an instance without parameters) does
    nothing after the closure: it returns the closure's loss, with the
    instance, the log, the build cache and the kernel's state as the
    closure left them.  It does not even ask for the kernel module, so it
    cannot wait or fail on the build. *)
Theorem step_without_gradients polls c s :
  (∀ p, p ∈ all_params (fst s) → has_grad (heap (snd (at_loop_entry c s)) p) = false) →
  step_call P K polls c s =
  Returns (option_map (fun f => fst (f (backward c (heap (snd s))))) (closure c))
          (at_loop_entry c s).
Proof.
  intros Hnone. rewrite step_call_items, run_items_no_grad; [done|].
  intros it Hin. specialize (Hnone (snd it)). unfold has_grad in Hnone.
  destruct (grad _); [|done]. discriminate Hnone.
  unfold all_params. rewrite <- (enum_groups_snd 0). apply list_elem_of_fmap. eauto.
Qed.

(** When [fp16_param_groups] has no entry at the position, the body
    raises [IndexError] after the state entry was fetched and its counter
    incremented. *)
Lemma step_param_index_error polls groups group_id param_id p g h s :
  grad (heap (snd s) p) = Some g →
  ds_opt_adam (snd s) = Some h →
  groups !! group_id ≫= (.!! param_id) = None →
  step_param P K polls (Some groups) group_id param_id p s =
  Raises IndexError
    (set_state (fst s) p (bumped (entry_of s p)),
     logged (snd s) (init_events s group_id param_id p)).
Proof.
  intros Hg Hslot Hnone. rewrite (step_param_unfold P K _ _ _ _ _ g) by done.
  unfold bind at 1, in_world at 1. cbn [fst snd].
  rewrite (load_op_cached _ _ _ h) by done.
  unfold bind, index2. destruct (groups !! group_id) as [grp|]; [|done].
  simpl in Hnone. by rewrite Hnone.
Qed.

(** X8: a call of [step] with an [fp16_param_groups] that has no entry at
    the position of a parameter with a gradient raises [IndexError] at
    that position, after the positions before it were processed.  For the
    parameter at that position the state entry was created if it was
    missing and its step counter is already incremented, but no kernel
    call was made: the log gained no kernel call, and the parameter
    objects and the kernel's state are as the positions before left
    them. *)
Theorem step_short_fp16_groups polls c s groups before group_id param_id p after
    s1 g h :
  fp16_param_groups c = Some groups →
  enum_groups 0 (param_groups (fst s)) = before ++ (group_id, param_id, p) :: after →
  run_items P K polls (Some groups) before (at_loop_entry c s) = Returns tt s1 →
  grad (heap (snd s1) p) = Some g →
  ds_opt_adam (snd s1) = Some h →
  groups !! group_id ≫= (.!! param_id) = None →
  ∃ s2, step_call P K polls c s = Raises IndexError s2 ∧
        steps_of (fst s2) p = steps_of (fst s1) p + 1 ∧
        (∀ q, q ≠ p → state (fst s2) !! q = state (fst s1) !! q) ∧
        kernel_calls (log (snd s2)) = kernel_calls (log (snd s1)) ∧
        allocations (log (snd s2))
        = allocations (log (snd s1))
          + match state (fst s1) !! p with Some _ => 0 | None => 2 end ∧
        heap (snd s2) = heap (snd s1) ∧
        kstate (snd s2) = kstate (snd s1).
Proof.
  intros Hfp Henum Hbefore Hg Hslot Hnone.
  pose proof (step_param_index_error polls groups group_id param_id p g h s1 Hg Hslot Hnone)
    as Hraise.
  eexists. split_and!.
  - rewrite step_call_items, Hfp, Henum, run_items_app. unfold bind. rewrite Hbefore.
    simpl. unfold bind. cbn [fst snd]. by rewrite Hraise.
  - cbn [fst]. unfold steps_of, set_state. cbn [state]. rewrite lookup_insert_eq. cbn.
    rewrite entry_steps. done.
  - intros q Hq. cbn [fst]. unfold set_state. cbn [state]. by rewrite lookup_insert_ne.
  - cbn [snd]. unfold logged. cbn [log]. rewrite kernel_calls_app.
    unfold init_events. destruct (state (fst s1) !! p); cbn; by rewrite app_nil_r.
  - cbn [snd]. unfold logged. cbn [log]. rewrite allocations_app.
    by destruct (init_events_sigs s1 group_id param_id p) as [_ ->].
  - done.
  - done.
Qed.

(** *** Counters, whatever the outcome *)

Lemma steps_of_set_state self p st q :
  steps_of (set_state self p st) q
  = if decide (p = q) then step_count st else steps_of self q.
Proof.
  unfold steps_of, set_state. cbn [state]. destruct (decide (p = q)) as [->|Hne].
  - by rewrite lookup_insert_eq.
  - by rewrite lookup_insert_ne.
Qed.

Lemma step_param_steps polls fp16 group_id param_id p s :
  sat (step_param P K polls fp16 group_id param_id p s)
      (fun _ s' => steps_within (fun q => if decide (p = q) then 1 else 0) s s')
      (fun s' => steps_within (fun q => if decide (p = q) then 1 else 0) s s').
Proof.
  destruct (grad (heap (snd s) p)) as [g|] eqn:Hg.
  2: { rewrite step_param_skip by done. intros q. simpl. lia. }
  destruct (step_param P K polls fp16 group_id param_id p s) as [[] s'|e s'|] eqn:Hrun;
    simpl; [| |done].
  - destruct (step_param_returns P K _ _ _ _ _ g _ _ Hg Hrun)
      as (h & l & ks' & d' & m' & v' & _ & _ & _ & Hself & _).
    intros q. rewrite Hself, steps_of_set_state. cbn [written bumped step_count].
    rewrite entry_steps. destruct (decide (p = q)) as [->|]; lia.
  - destruct (step_param_raises P K _ _ _ _ _ g _ _ _ Hg Hrun) as (Hself & _).
    intros q. rewrite Hself, steps_of_set_state. cbn [bumped step_count].
    rewrite entry_steps. destruct (decide (p = q)) as [->|]; lia.
Qed.

Lemma run_items_steps polls fp16 its s :
  sat (run_items P K polls fp16 its s)
      (fun _ s' => steps_within (fun q => occurrences q (map snd its)) s s')
      (fun s' => steps_within (fun q => occurrences q (map snd its)) s s').
Proof.
  revert s. induction its as [|[[gid pid] p] its IH]; intros s.
  { intros q. simpl. lia. }
  simpl. eapply sat_bind.
  - eapply sat_weaken; [apply step_param_steps|intros a s1 H; exact H|].
    cbn [fst snd]. unfold steps_within. intros s1 H q. specialize (H q). cbn beta in H.
    rewrite occurrences_cons. destruct (decide (p = q)); lia.
  - cbn [fst snd]. unfold steps_within. intros [] s1 H1.
    eapply sat_weaken; [apply IH|..]; unfold steps_within.
    + intros [] s2 H2 q. specialize (H1 q). specialize (H2 q). cbn beta in H1, H2.
      rewrite occurrences_cons. destruct (decide (p = q)); lia.
    + intros s2 H2 q. specialize (H1 q). specialize (H2 q). cbn beta in H1, H2.
      rewrite occurrences_cons. destruct (decide (p = q)); lia.
Qed.

(** X9: however a call of [step] ends, by returning or by raising at
    some position, no step counter has gone down and none has grown by
    more than the number of positions its parameter stands at in the
    groups: by at most one for a parameter that is listed once, and not at
    all for an object that is no parameter of the instance. *)
Theorem step_counter_bounds polls c s :
  let within s' :=
    ∀ q, steps_of (fst s) q ≤ steps_of (fst s') q ∧
         steps_of (fst s') q ≤ steps_of (fst s) q + occurrences q (all_params (fst s)) in
  sat (step_call P K polls c s) (fun _ s' => within s') (fun s' => within s').
Proof.
  cbv zeta. rewrite step_call_items.
  pose proof (run_items_steps polls (fp16_param_groups c)
                (enum_groups 0 (param_groups (fst s))) (at_loop_entry c s)) as H.
  destruct (at_loop_entry_same c s) as [Hself _].
  rewrite enum_groups_snd in H. unfold steps_within in H. rewrite Hself in H.
  by destruct (run_items P K polls _ _ (at_loop_entry c s)).
Qed.

(** X10: [step] never clears or changes a gradient and never changes the
    shape, dtype or device of any object: however the call ends, every
    object carries the gradient and the descriptor it had when the loops
    started, after the closure.  The groups and the identifier of the
    instance and the instance counter of the class are as before the
    call. *)
Theorem step_leaves_gradients polls c s :
  let untouched s' :=
    (∀ q, grad (heap (snd s') q) = grad (heap (snd (at_loop_entry c s)) q)) ∧
    (∀ q, descr (data (heap (snd s') q))
          = descr (data (heap (snd (at_loop_entry c s)) q))) ∧
    param_groups (fst s') = param_groups (fst s) ∧
    opt_id (fst s') = opt_id (fst s) ∧
    optimizer_id (snd s') = optimizer_id (snd s) in
  sat (step_call P K polls c s) (fun _ s' => untouched s') (fun s' => untouched s').
Proof.
  cbv zeta. rewrite step_call_items.
  pose proof (run_items_frame P K polls (fp16_param_groups c)
                (enum_groups 0 (param_groups (fst s))) (at_loop_entry c s)) as H.
  destruct (at_loop_entry_same c s) as [Hself _].
  assert (optimizer_id (snd (at_loop_entry c s)) = optimizer_id (snd s)) as Hid.
  { rewrite at_loop_entry_eq. unfold after_closure, with_heap. by destruct (closure c). }
  destruct (run_items P K polls _ _ (at_loop_entry c s)) as [[] s'|e s'|]; simpl in *;
    [| |done]; destruct H as [[Hg Hd Hi _ _] Ho Hp _]; rewrite Hself in *;
    split_and!; try done; congruence.
Qed.

End StepEdges.

(** ** Step counters and the calls with a gradient *)

Section GradientCalls.

Context (P : Platform) {KState : Type} (K : Kernel KState).

Implicit Types s : Optimizer * World KState.

(** One call, however it ends: the groups stay, and the counter of [p]
    stays where it is when [p] has no gradient and otherwise grows by the
    number of positions of [p] at most. *)
Lemma step_call_gain polls c p s :
  let gain s' :=
    param_groups (fst s') = param_groups (fst s) ∧
    steps_of (fst s) p ≤ steps_of (fst s') p ∧
    steps_of (fst s') p
    ≤ steps_of (fst s) p
      + (if has_grad (heap (snd (at_loop_entry c s)) p)
         then occurrences p (all_params (fst s)) else 0) in
  sat (step_call P K polls c s) (fun _ s' => gain s') (fun s' => gain s').
Proof.
  cbv zeta.
  pose proof (step_call_idle P K polls c p s) as Hidle.
  rewrite step_call_items in *.
  pose proof (run_items_steps P K polls (fp16_param_groups c)
                (enum_groups 0 (param_groups (fst s))) (at_loop_entry c s)) as Hsteps.
  pose proof (run_items_frame P K polls (fp16_param_groups c)
                (enum_groups 0 (param_groups (fst s))) (at_loop_entry c s)) as Hfr.
  destruct (at_loop_entry_same c s) as [Hself _].
  rewrite enum_groups_snd in Hsteps. unfold steps_within in Hsteps. rewrite Hself in Hsteps.
  assert (∀ s', frame (at_loop_entry c s) s' →
            (∀ q, steps_of (fst s) q ≤ steps_of (fst s') q ∧
                  steps_of (fst s') q
                  ≤ steps_of (fst s) q + occurrences q (all_params (fst s))) →
            (has_grad (heap (snd (at_loop_entry c s)) p) = false → idle p s s') →
            param_groups (fst s') = param_groups (fst s) ∧
            steps_of (fst s) p ≤ steps_of (fst s') p ∧
            steps_of (fst s') p
            ≤ steps_of (fst s) p
              + (if has_grad (heap (snd (at_loop_entry c s)) p)
                 then occurrences p (all_params (fst s)) else 0)) as Hsum.
  { intros s' Hf Hb Hi. split; [by rewrite (fr_groups _ _ Hf), Hself|].
    destruct (has_grad _); [apply Hb|].
    destruct (Hi eq_refl) as [Hst _]. unfold steps_of. rewrite Hst. lia. }
  destruct (run_items P K polls _ _ (at_loop_entry c s)) as [[] s'|e s'|]; simpl in *;
    [| |done]; apply Hsum; try done; intros Hg; by apply Hidle.
Qed.

(** Over calls that all return the two ways of counting agree. *)
Lemma grad_calls_gradient_calls polls p calls s losses s' :
  run_steps P K polls calls s = Returns losses s' →
  grad_calls P K polls p calls s = gradient_calls P K polls p calls s ∧
  run_calls P K polls calls s = Some s'.
Proof.
  revert s losses. induction calls as [|c calls IH]; intros s losses Hrun.
  { by injection Hrun as _ <-. }
  simpl in *. unfold bind in Hrun.
  destruct (step_call P K polls c s) as [loss s1|e s1|]; [|done..].
  destruct (run_steps P K polls calls s1) as [ls s2|e s2|] eqn:Hrest; [|done..].
  injection Hrun as _ <-. destruct (IH _ _ Hrest) as [-> ->]. done.
Qed.

Lemma run_calls_gain polls p calls s s' :
  run_calls P K polls calls s = Some s' →
  param_groups (fst s') = param_groups (fst s) ∧
  steps_of (fst s) p ≤ steps_of (fst s') p ∧
  steps_of (fst s') p
  ≤ steps_of (fst s) p
    + occurrences p (all_params (fst s)) * gradient_calls P K polls p calls s.
Proof.
  revert s. induction calls as [|c calls IH]; intros s Hrun.
  { injection Hrun as <-. split_and!; try done. lia. }
  simpl in *. pose proof (step_call_gain polls c p s) as Hgain. cbv zeta in Hgain.
  assert (∀ s1, run_calls P K polls calls s1 = Some s' →
            param_groups (fst s1) = param_groups (fst s) ∧
            steps_of (fst s) p ≤ steps_of (fst s1) p ∧
            steps_of (fst s1) p
            ≤ steps_of (fst s) p
              + (if has_grad (heap (snd (at_loop_entry c s)) p)
                 then occurrences p (all_params (fst s)) else 0) →
            param_groups (fst s') = param_groups (fst s) ∧
            steps_of (fst s) p ≤ steps_of (fst s') p ∧
            steps_of (fst s') p
            ≤ steps_of (fst s) p
              + occurrences p (all_params (fst s))
                * ((if has_grad (heap (snd (at_loop_entry c s)) p) then 1 else 0)
                   + gradient_calls P K polls p calls s1)) as Hsum.
  { intros s1 H1 (Hg & Hlo & Hhi). destruct (IH s1 H1) as (Hg' & Hlo' & Hhi').
    unfold all_params in *. rewrite Hg in Hhi'.
    split_and!; [congruence|lia|]. destruct (has_grad _); nia. }
  destruct (step_call P K polls c s) as [loss s1|e s1|]; simpl in Hgain; [| |done];
    by apply Hsum.
Qed.

(** C2, as the code has it: over a sequence of [step] calls that all
    return, the step counter of a parameter grows by the number of calls
    in which it carried a gradient, once for every position the parameter
    stands at in the groups, and so does the number of kernel updates made
    for it; for a parameter that stands at one position the counter is
    exactly that number of calls.  When calls of the sequence raise and the
    caller goes on, the counter only lies between its value at the start
    and that number: a raising call leaves the parameters after the failing
    position uncounted.  A call in which the parameter has no gradient
    leaves its state entry and its number of kernel updates unchanged,
    however the call ends. *)
Theorem step_counts_gradient_calls polls calls s p :
  let k := occurrences p (all_params (fst s)) in
  (NoDup (all_params (fst s)) → p ∈ all_params (fst s) → k = 1) ∧
  (∀ losses s',
     run_steps P K polls calls s = Returns losses s' →
     let n := gradient_calls P K polls p calls s in
     run_calls P K polls calls s = Some s' ∧
     steps_of (fst s') p = steps_of (fst s) p + k * n ∧
     updates_of p (log (snd s')) = updates_of p (log (snd s)) + k * n ∧
     (state (fst s) !! p = None →
      match state (fst s') !! p with
      | Some st => step_count st = k * n ∧ 0 < k * n
      | None => k * n = 0
      end)) ∧
  (∀ s',
     run_calls P K polls calls s = Some s' →
     steps_of (fst s) p ≤ steps_of (fst s') p ∧
     steps_of (fst s') p
     ≤ steps_of (fst s) p + k * gradient_calls P K polls p calls s) ∧
  (∀ polls' c s0,
     has_grad (heap (snd (at_loop_entry c s0)) p) = false →
     sat (step_call P K polls' c s0) (fun _ s' => idle p s0 s') (fun s' => idle p s0 s')).
Proof.
  intros k. subst k. split_and!.
  - intros Hnd Hin. by apply occurrences_NoDup.
  - intros losses s' Hrun. cbv zeta.
    destruct (grad_calls_gradient_calls polls p calls s losses s' Hrun) as [<- Hcalls].
    destruct (run_steps_counts P K _ _ _ _ _ Hrun) as [_ Hc]. specialize (Hc p).
    cbv zeta in Hc. destruct Hc as (C1 & C2 & C3). split_and!; try done.
    intros Hnone. unfold steps_of in C1. rewrite Hnone in C1, C2. simpl in C1.
    destruct (state (fst s') !! p) as [st|] eqn:Hst; simpl in C1.
    + split; [done|].
      destruct (decide (occurrences p (all_params (fst s))
                        * grad_calls P K polls p calls s = 0)) as [Hn|]; [|lia].
      assert (Some st = None) by (apply C2; done). done.
    + by apply C2.
  - intros s' Hrun. by destruct (run_calls_gain polls p calls s s' Hrun) as (_ & ? & ?).
  - intros polls' c s0. apply step_call_idle.
Qed.

End GradientCalls.

(** ** The groups' hyperparameters *)

Section Groups.

Context (P : Platform) {KState : Type} (K : Kernel KState).
Context (f : Group → Group) (Hf : ∀ g, params (f g) = params g).

Abbreviation OWG := (Optimizer * World KState)%type.

Lemma groups_blind_bind {A B} (c : M OWG A) (k : A → M OWG B) :
  groups_blind f c → (∀ a, groups_blind f (k a)) → groups_blind f (bind c k).
Proof.
  intros Hc Hk s. unfold bind. rewrite Hc. destruct (c s) as [a s1|e s1|]; simpl; [|done..].
  apply Hk.
Qed.

Lemma groups_blind_in_world {A} (c : M (World KState) A) : groups_blind f (in_world c).
Proof. intros s. unfold in_world. cbn [fst snd]. by destruct (c (snd s)). Qed.

Lemma groups_blind_state_of group_id param_id p :
  groups_blind f (KState := KState) (state_of group_id param_id p).
Proof.
  intros s. unfold state_of. cbn [fst snd map_groups state].
  by destruct (state (fst s) !! p).
Qed.

Lemma groups_blind_bump p st : groups_blind f (KState := KState) (bump p st).
Proof. done. Qed.

Lemma groups_blind_index2 groups group_id param_id :
  groups_blind f (KState := KState) (index2 groups group_id param_id).
Proof.
  unfold index2. destruct (groups !! group_id) as [g|]; [|done].
  by destruct (g !! param_id).
Qed.

Lemma groups_blind_call_adam_update h p g st :
  groups_blind f (call_adam_update K h p g st).
Proof.
  intros s. unfold call_adam_update, bind, in_world, emit.
  cbn [fst snd map_groups opt_id kstate heap].
  by destruct (adam_update K h _ _ _ _ _ _) as [[ks [[d m] v]]|].
Qed.

Lemma groups_blind_call_adam_update_copy h p g st q :
  groups_blind f (call_adam_update_copy K h p g st q).
Proof.
  intros s. unfold call_adam_update_copy, bind, in_world, emit.
  cbn [fst snd map_groups opt_id kstate heap].
  by destruct (adam_update_copy K h _ _ _ _ _ _ _) as [[ks [[[d m] v] c]]|].
Qed.

Lemma groups_blind_step_param polls fp16 group_id param_id p :
  groups_blind f (step_param P K polls fp16 group_id param_id p).
Proof.
  intros s. unfold step_param. cbn [snd].
  destruct (grad (heap (snd s) p)) as [g|]; [|done].
  revert s. change (groups_blind f
    (do st0 <- state_of group_id param_id p ;
     do st <- bump p st0 ;
     do ds_opt_adam <- in_world (load_op P polls) ;
     match fp16 with
     | Some groups =>
         do p_fp16 <- index2 groups group_id param_id ;
         call_adam_update_copy K ds_opt_adam p g st p_fp16
     | None => call_adam_update K ds_opt_adam p g st
     end)).
  apply groups_blind_bind; [apply groups_blind_state_of|intros st0].
  apply groups_blind_bind; [apply groups_blind_bump|intros st].
  apply groups_blind_bind; [apply groups_blind_in_world|intros h].
  destruct fp16 as [groups|]; [|apply groups_blind_call_adam_update].
  apply groups_blind_bind; [apply groups_blind_index2|intros q].
  apply groups_blind_call_adam_update_copy.
Qed.

Lemma groups_blind_run_items polls fp16 its :
  groups_blind f (run_items P K polls fp16 its).
Proof.
  induction its as [|it its IH]; [done|]. simpl.
  apply groups_blind_bind; [apply groups_blind_step_param|]. intros _. apply IH.
Qed.

Lemma enum_groups_map group_id gs :
  enum_groups group_id (map f gs) = enum_groups group_id gs.
Proof.
  revert group_id. induction gs as [|g gs IH]; intros group_id; [done|].
  simpl. by rewrite IH, Hf.
Qed.

Lemma groups_blind_step_call polls c : groups_blind f (step_call P K polls c).
Proof.
  intros s. rewrite !step_call_items.
  cbn [fst snd map_groups param_groups]. rewrite enum_groups_map.
  assert (at_loop_entry c (map_groups f (fst s), snd s)
          = (map_groups f (fst (at_loop_entry c s)), snd (at_loop_entry c s))) as ->.
  { rewrite !at_loop_entry_eq. unfold after_closure, with_heap.
    by destruct (closure c). }
  rewrite groups_blind_run_items. by destruct (run_items _ _ _ _ _ _).
Qed.

Lemma groups_blind_run_steps polls calls : groups_blind f (run_steps P K polls calls).
Proof.
  induction calls as [|c calls IH]; [done|]. simpl.
  apply groups_blind_bind; [apply groups_blind_step_call|intros loss].
  apply groups_blind_bind; [apply IH|intros losses]. done.
Qed.

End Groups.

Section Hyperparameters.

Context (P : Platform) {KState : Type} (K : Kernel KState).

(** X11: [step] reads nothing of a group but its parameter list.  When
    the groups of an instance are rewritten in any way that keeps the
    parameter lists (a scheduler assigning a new learning rate, a change of
    betas, eps or weight decay), every sequence of [step] calls ends in the
    same way, with the same losses, and leaves the same process, hence the
    same kernel calls with the same arguments, the same parameter objects
    and the same kernel state; the instances left differ by the rewriting
    only. *)
Theorem step_ignores_group_hyperparameters (f : Group → Group) polls calls
    (self : Optimizer) (w : World KState) :
  (∀ g, params (f g) = params g) →
  run_steps P K polls calls (map_groups f self, w)
  = through f (run_steps P K polls calls (self, w)).
Proof.
  intros Hf. apply (groups_blind_run_steps P K f Hf polls calls (self, w)).
Qed.

(** X12: a constructor call that returns has registered its identifier
    with the kernel, through the handle in the slot, with the learning
    rate, the two betas, eps and the weight decay it was given: that call
    is the last event of the log and the kernel's state is what it
    returned.  Every group of the new instance records the same values,
    the groups are the parameter lists given, in order, the instance has
    no state entry yet, and no parameter object was touched. *)
Theorem construct_registers_hyperparameters polls a (w : World KState) self w' :
  construct P K polls a w = Returns self w' →
  ∃ h,
    ds_opt_adam w' = Some h ∧
    opt_id self = optimizer_id w ∧
    list.last (log w')
    = Some (CreateAdam h (opt_id self) (a_lr a) (fst (a_betas a)) (snd (a_betas a))
                       (a_eps a) (a_weight_decay a)) ∧
    create_adam K h (kstate w) (opt_id self) (a_lr a) (fst (a_betas a))
                (snd (a_betas a)) (a_eps a) (a_weight_decay a) = Some (kstate w') ∧
    Forall (fun g => lr g = a_lr a ∧ betas g = a_betas a ∧ eps g = a_eps a ∧
                     weight_decay g = a_weight_decay a ∧ amsgrad g = a_amsgrad a)
           (param_groups self) ∧
    map params (param_groups self) = a_model_params a ∧
    state self = ∅ ∧
    heap w' = heap w.
Proof.
  unfold construct. intros Hret.
  pose proof (init_effects P K polls (a_model_params a) (a_lr a) (a_betas a) (a_eps a)
                (a_weight_decay a) (a_amsgrad a) w) as Heff.
  rewrite Hret in Heff. simpl in Heff.
  destruct Heff as (-> & _ & Hhp & h & l & ks & Hslot & _ & Hk & Hks & Hlog & _).
  exists h. cbn [opt_id param_groups state]. split_and!; try done.
  - rewrite Hlog, app_assoc. apply list.last_snoc.
  - by rewrite Hks.
  - unfold groups_of. apply Forall_fmap. apply Forall_true. done.
  - unfold groups_of. rewrite <- list_fmap_compose. apply list_fmap_id.
Qed.

End Hyperparameters.

(** ** Registrations and updates along a program *)

Section Registrations.

Context (P : Platform) {KState : Type} (K : Kernel KState).

Abbreviation OWR := (Optimizer * World KState)%type.

Lemma create_ids_app l1 l2 : create_ids (l1 ++ l2) = create_ids l1 ++ create_ids l2.
Proof. apply omap_app. Qed.

Lemma update_ids_app l1 l2 : update_ids (l1 ++ l2) = update_ids l1 ++ update_ids l2.
Proof. apply omap_app. Qed.

Lemma loader_events_no_ids l :
  Forall (fun e => loader_event e = true) l → create_ids l = [] ∧ update_ids l = [].
Proof.
  induction 1 as [|e l He _ [IH1 IH2]]; [done|].
  destruct e; try discriminate He; by cbn.
Qed.

#[global] Instance own_calls_reflexive : Reflexive (@own_calls KState).
Proof. intros s. split; [done|]. exists []. rewrite app_nil_r. by split_and!. Qed.

#[global] Instance own_calls_transitive : Transitive (@own_calls KState).
Proof.
  intros s1 s2 s3 [Ho1 (l1 & Hl1 & Hc1 & Hu1)] [Ho2 (l2 & Hl2 & Hc2 & Hu2)].
  split; [congruence|]. exists (l1 ++ l2). split_and!.
  - rewrite app_assoc. congruence.
  - by rewrite create_ids_app, Hc1, Hc2.
  - rewrite update_ids_app. apply Forall_app. split; [done|]. by rewrite <- Ho1.
Qed.

Lemma own_calls_logged (s : OWR) self' w' l :
  opt_id self' = opt_id (fst s) →
  log w' = log (snd s) ++ l →
  create_ids l = [] →
  Forall (eq (opt_id (fst s))) (update_ids l) →
  own_calls s (self', w').
Proof. intros. split; [done|]. by exists l. Qed.

Lemma in_world_load_op_own_calls polls :
  keeps own_calls (in_world (KState := KState) (load_op P polls)).
Proof.
  intros s. unfold in_world.
  pose proof (load_op_effects P polls (snd s)) as Heff.
  destruct (load_op P polls (snd s)) as [h w'|e w'|]; simpl in *; [| |done].
  - destruct Heff as [[_ _ _ (l & Hl & Hfl)] _].
    destruct (loader_events_no_ids l Hfl) as [Hc Hu].
    eapply own_calls_logged; [done|exact Hl|done|]. rewrite Hu. constructor.
  - destruct Heff as [[_ _ _ (l & Hl & Hfl)] _].
    destruct (loader_events_no_ids l Hfl) as [Hc Hu].
    eapply own_calls_logged; [done|exact Hl|done|]. rewrite Hu. constructor.
Qed.

Lemma state_of_own_calls group_id param_id p :
  keeps own_calls (state_of (KState := KState) group_id param_id p).
Proof.
  intros s. rewrite state_of_eq. simpl.
  eapply own_calls_logged; [done|reflexivity|..];
    unfold init_events; destruct (state (fst s) !! p); cbn; done || constructor.
Qed.

Lemma bump_own_calls p st : keeps own_calls (bump (KState := KState) p st).
Proof.
  intros s. simpl. eapply (own_calls_logged _ _ _ []); cbn; try done.
  by rewrite app_nil_r.
Qed.

Lemma index2_own_calls groups group_id param_id :
  keeps own_calls (index2 (KState := KState) groups group_id param_id).
Proof.
  intros s. unfold index2. destruct (groups !! group_id) as [g|]; [|simpl; reflexivity].
  destruct (g !! param_id); simpl; reflexivity.
Qed.

Lemma call_adam_update_own_calls h p g st :
  keeps own_calls (call_adam_update K h p g st).
Proof.
  intros s. unfold call_adam_update, bind, in_world, emit. cbn [fst snd kstate heap].
  destruct (adam_update K h _ _ _ _ _ _) as [[ks [[d m] v]]|]; simpl;
    (eapply own_calls_logged; [done|reflexivity|done|]); cbn; by repeat constructor.
Qed.

Lemma call_adam_update_copy_own_calls h p g st q :
  keeps own_calls (call_adam_update_copy K h p g st q).
Proof.
  intros s. unfold call_adam_update_copy, bind, in_world, emit. cbn [fst snd kstate heap].
  destruct (adam_update_copy K h _ _ _ _ _ _ _) as [[ks [[[d m] v] c]]|]; simpl;
    (eapply own_calls_logged; [done|reflexivity|done|]); cbn; by repeat constructor.
Qed.

Lemma step_param_own_calls polls fp16 group_id param_id p :
  keeps own_calls (step_param P K polls fp16 group_id param_id p).
Proof.
  intros s. unfold step_param.
  destruct (grad (heap (snd s) p)) as [g|]; [|simpl; reflexivity].
  revert s. change (keeps own_calls
    (do st0 <- state_of group_id param_id p ;
     do st <- bump p st0 ;
     do ds_opt_adam <- in_world (load_op P polls) ;
     match fp16 with
     | Some groups =>
         do p_fp16 <- index2 groups group_id param_id ;
         call_adam_update_copy K ds_opt_adam p g st p_fp16
     | None => call_adam_update K ds_opt_adam p g st
     end)).
  apply keeps_bind; try apply _; [apply state_of_own_calls|intros st0].
  apply keeps_bind; try apply _; [apply bump_own_calls|intros st].
  apply keeps_bind; try apply _; [apply in_world_load_op_own_calls|intros h].
  destruct fp16 as [groups|]; [|apply call_adam_update_own_calls].
  apply keeps_bind; try apply _; [apply index2_own_calls|intros q].
  apply call_adam_update_copy_own_calls.
Qed.

Lemma run_items_own_calls polls fp16 its :
  keeps own_calls (run_items P K polls fp16 its).
Proof.
  induction its as [|it its IH]; simpl.
  - apply keeps_ret. apply _.
  - apply keeps_bind; try apply _; [apply step_param_own_calls|]. intros _. apply IH.
Qed.

Lemma step_call_own_calls polls c : keeps own_calls (step_call P K polls c).
Proof.
  apply step_call_keeps; try apply _; [|apply run_items_own_calls].
  intros s hp. split; [done|]. exists []. simpl. rewrite app_nil_r. by split_and!.
Qed.

(** What the constructor adds to the log: when it returns, the
    registration of its identifier and nothing else for the kernel; when
    it raises, that registration at most. *)
Lemma init_log polls mp a bs e wd ams (w : World KState) :
  sat (init P K polls mp a bs e wd ams w)
      (fun self w' =>
         opt_id self = optimizer_id w ∧ optimizer_id w' = optimizer_id w + 1 ∧
         ∃ l, log w' = log w ++ l ∧ create_ids l = [optimizer_id w] ∧ update_ids l = [])
      (fun w' =>
         w' = w ∨
         optimizer_id w' = optimizer_id w + 1 ∧
         ∃ l, log w' = log w ++ l ∧
              (create_ids l = [] ∨ create_ids l = [optimizer_id w]) ∧ update_ids l = []).
Proof.
  rewrite init_cases. destruct (accepted mp); [|by left].
  cbv zeta. unfold bind at 1, next_optimizer_id. unfold bind at 1.
  set (w0 := mkWorld (optimizer_id w + 1) (ds_opt_adam w) (fs w) (now w) (heap w)
                     (kstate w) (log w)).
  pose proof (load_op_effects P polls w0) as Heff.
  destruct (load_op P polls w0) as [h w1|e1 w1|]; [| |done].
  - destruct Heff as [[Hhp Hks Hid (l & Hl & Hfl)] Hs]. simpl in Hhp, Hks, Hid, Hl.
    destruct (loader_events_no_ids l Hfl) as [Hc Hu].
    unfold call_create_adam, bind, emit, ret. cbn [opt_id kstate].
    destruct (create_adam K h (kstate w1) _ _ _ _ _ _) as [ks|]; simpl.
    + split_and!; try done. eexists (l ++ [_]). split_and!.
      * rewrite Hl. by rewrite <- app_assoc.
      * by rewrite create_ids_app, Hc.
      * by rewrite update_ids_app, Hu.
    + right. split_and!; try done. eexists (l ++ [_]). split_and!.
      * rewrite Hl. by rewrite <- app_assoc.
      * right. by rewrite create_ids_app, Hc.
      * by rewrite update_ids_app, Hu.
  - destruct Heff as [[Hhp Hks Hid (l & Hl & Hfl)] Hs]. simpl in Hhp, Hks, Hid, Hl.
    destruct (loader_events_no_ids l Hfl) as [Hc Hu].
    simpl. right. split; [done|]. exists l. split_and!; [done|by left|done].
Qed.

Lemma created_before_app l1 l2 :
  created_before l1 →
  (∀ i, i ∈ update_ids l2 → i ∈ create_ids l1) →
  created_before (l1 ++ l2).
Proof.
  intros H1 H2 k1 e k2 i Heq Hu.
  apply app_eq_inv in Heq as [(k & Hl1 & Hk)|(k & -> & Hk)].
  - destruct k as [|e' k]; simpl in Hk.
    + rewrite app_nil_r in Hl1. subst k1. apply H2. subst l2.
      apply list_elem_of_omap. exists e. split; [set_solver|done].
    + injection Hk as <- ->. by eapply H1.
  - rewrite create_ids_app. apply elem_of_app. left. apply H2. subst l2.
    apply list_elem_of_omap. exists e. split; [set_solver|done].
Qed.

(** Appending events that register at most a new identifier and update
    nothing keeps a log in order. *)
Lemma registered_grow (insts : list Optimizer) (w w' : World KState) l :
  registered (insts, w) →
  log w' = log w ++ l →
  optimizer_id w' = optimizer_id w + 1 →
  create_ids l = [] ∨ create_ids l = [optimizer_id w] →
  update_ids l = [] →
  registered (insts, w') ∧
  (create_ids l = [optimizer_id w] → optimizer_id w ∈ create_ids (log w')).
Proof.
  intros [Hb Hn Hi Ho] Hl Hid Hc Hu. cbn [fst snd] in *. split.
  - split; cbn [fst snd]; rewrite Hl, ?create_ids_app.
    + rewrite Hid. apply Forall_app. split.
      * eapply list.Forall_impl; [exact Hb|]. simpl. lia.
      * destruct Hc as [->| ->]; repeat constructor. lia.
    + apply list.NoDup_app. split_and!; [done| |].
      * intros x Hx. rewrite list.Forall_forall in Hb. specialize (Hb x Hx). simpl in Hb.
        destruct Hc as [->| ->]; [set_solver|]. rewrite list_elem_of_singleton. lia.
      * destruct Hc as [->| ->]; [constructor|apply NoDup_singleton].
    + eapply list.Forall_impl; [exact Hi|]. simpl. intros o Hin.
      apply elem_of_app. by left.
    + apply created_before_app; [done|]. rewrite Hu. set_solver.
  - intros Hc'. rewrite Hl, create_ids_app, Hc'. set_solver.
Qed.

(** The registrations and updates along a program. *)
Lemma run_script_registered polls acts st st' :
  registered st →
  run_script P K polls acts st = Some st' →
  registered st'.
Proof.
  revert st. induction acts as [|[a|i c|] acts IH]; intros st Hreg Hrun.
  - by injection Hrun as <-.
  - simpl in Hrun. unfold construct in Hrun.
    pose proof (init_log polls (a_model_params a) (a_lr a) (a_betas a) (a_eps a)
                  (a_weight_decay a) (a_amsgrad a) (snd st)) as Hlog.
    destruct st as [insts w]. cbn [fst snd] in *.
    destruct (init P K polls _ _ _ _ _ _ w) as [self w'|e w'|]; [| |done];
      simpl in Hlog.
    + destruct Hlog as (Hself & Hid & l & Hl & Hc & Hu).
      destruct (registered_grow insts w w' l Hreg Hl Hid (or_intror Hc) Hu)
        as [[Hb Hn Hi Ho] Hin].
      apply IH in Hrun; [done|]. split; cbn [fst snd] in *; try done.
      apply Forall_app. split; [done|]. repeat constructor. rewrite Hself. by apply Hin.
    + destruct Hlog as [->|(Hid & l & Hl & Hc & Hu)]; [by apply IH in Hrun|].
      destruct (registered_grow insts w w' l Hreg Hl Hid Hc Hu) as [Hreg' _].
      by apply IH in Hrun.
  - simpl in Hrun. destruct (fst st !! i) as [self|] eqn:Hself; [|by eapply IH].
    pose proof (step_call_own_calls polls c (self, snd st)) as Hown.
    pose proof (step_call_same_ids P K polls c (self, snd st)) as Hsame.
    assert (∀ s', own_calls (self, snd st) s' → same_ids (self, snd st) s' →
              registered (<[i:=fst s']> (fst st), snd s')) as Hstep.
    { intros s' [Hoid (l & Hl & Hc & Hu)] [Hid _]. cbn [fst snd] in *.
      destruct Hreg as [Hb Hn Hi Ho].
      assert (opt_id self ∈ create_ids (log (snd st))) as Hreg_self.
      { rewrite Forall_lookup in Hi. by apply (Hi i self). }
      split; cbn [fst snd]; rewrite Hl, ?create_ids_app, ?Hc, ?app_nil_r, ?Hid; try done.
      - apply Forall_insert; [done|]. by rewrite Hoid.
      - apply created_before_app; [done|]. intros x Hx.
        rewrite list.Forall_forall in Hu. by rewrite <- (Hu x Hx). }
    destruct (step_call P K polls c (self, snd st)) as [loss s'|e s'|]; [| |done];
      simpl in Hown, Hsame; apply IH in Hrun; try done; by apply Hstep.
  - simpl in Hrun. pose proof (load_op_effects P polls (snd st)) as Heff.
    assert (∀ w', loader_step (snd st) w' → registered (fst st, w')) as Hstep.
    { intros w' [_ _ Hid (l & Hl & Hfl)]. destruct Hreg as [Hb Hn Hi Ho].
      destruct (loader_events_no_ids l Hfl) as [Hc Hu].
      split; cbn [fst snd]; rewrite Hl, ?create_ids_app, ?Hc, ?app_nil_r, ?Hid; try done.
      apply created_before_app; [done|]. rewrite Hu. set_solver. }
    destruct (load_op P polls (snd st)) as [h w'|e w'|]; [| |done]; simpl in Heff;
      destruct Heff as [Hls _]; apply IH in Hrun; try done; by apply Hstep.
Qed.

Lemma registered_at_import f t hp (ks : KState) : registered ([], at_import f t hp ks).
Proof.
  split; cbn; try constructor.
  intros l1 e l2 i Heq. by destruct l1.
Qed.

(** X13: in a program run from the import of the module, every kernel
    update call in the log comes after a [create_adam] call for the
    identifier it was made for; every instance the program holds has been
    registered; and the update calls a call of [step] makes carry the
    identifier of its own instance and of no other, also when the call
    raises. *)
Theorem updates_follow_registration polls acts f t hp (ks : KState) st' :
  run_script P K polls acts ([], at_import f t hp ks) = Some st' →
  created_before (log (snd st')) ∧
  (∀ i, i ∈ update_ids (log (snd st')) → i ∈ create_ids (log (snd st'))) ∧
  (∀ o, o ∈ fst st' → opt_id o ∈ create_ids (log (snd st'))) ∧
  (∀ polls' c s, sat (step_call P K polls' c s)
                     (fun _ s' => own_calls s s') (fun s' => own_calls s s')).
Proof.
  intros Hrun.
  destruct (run_script_registered polls acts _ _ (registered_at_import f t hp ks) Hrun)
    as [_ _ Hi Ho].
  split_and!.
  - exact Ho.
  - intros i Hin. apply list_elem_of_omap in Hin as (e & He & Hu).
    apply list_elem_of_split in He as (l1 & l2 & Hl).
    specialize (Ho l1 e l2 i Hl Hu). rewrite Hl, create_ids_app.
    apply elem_of_app. by left.
  - intros o Hin. rewrite list.Forall_forall in Hi. by apply Hi.
  - intros polls' c s. apply step_call_own_calls.
Qed.

(** X14: in a program run from the import of the module, no identifier is
    registered with the kernel twice, also when constructor calls fail in
    between: the identifiers of the [create_adam] calls in the log are
    pairwise different, all below the instance counter, and there are at
    most as many as the program made constructor calls. *)
Theorem registrations_never_repeat polls acts f t hp (ks : KState) st' :
  run_script P K polls acts ([], at_import f t hp ks) = Some st' →
  NoDup (create_ids (log (snd st'))) ∧
  Forall (fun i => i < optimizer_id (snd st')) (create_ids (log (snd st'))) ∧
  length (create_ids (log (snd st'))) ≤ constructions acts.
Proof.
  intros Hrun.
  destruct (run_script_registered polls acts _ _ (registered_at_import f t hp ks) Hrun)
    as [Hb Hn _ _].
  destruct (run_script_ids P K 0 polls acts ([], at_import f t hp ks) st') as [_ Hc];
    [|done|].
  { split; cbn [fst snd]; [simpl; lia|constructor|done|done]. }
  cbn in Hc. split_and!; [done..|].
  etransitivity; [|apply (accepted_constructions_le acts)]. rewrite <- Hc.
  assert (length (seq 0 (optimizer_id (snd st'))) = optimizer_id (snd st')) as <-
    by apply length_seq.
  apply submseteq_length, NoDup_submseteq; [done|].
  intros x Hx. rewrite list.Forall_forall in Hb. specialize (Hb x Hx). simpl in Hb.
  apply elem_of_seq. lia.
Qed.

End Registrations.

(** ** Restoring an instance from a pickle *)

Section SetState.

Context (P : Platform) {KState : Type} (K : Kernel KState).

Lemma forget_setdefault d1 d2 :
  same_but_amsgrad d1 d2 →
  forget_group (setdefault_amsgrad d1) = forget_group (setdefault_amsgrad d2).
Proof.
  intros (H1 & H2 & H3 & H4 & H5). unfold forget_group, setdefault_amsgrad. cbn.
  by rewrite H1, H2, H3, H4, H5.
Qed.

(** X15: [__setstate__] gives every group that lacks the ['amsgrad'] key
    the value [False] and leaves a flag that is there as it is; the groups
    keep their parameter lists, in order, and the instance keeps its
    identifier and takes the state entries of the dictionary.  Whether the
    key was there, and with which value, makes no difference afterwards:
    on two instances restored from dictionaries that differ in that key
    only, every sequence of [step] calls ends in the same way and leaves
    the same process, hence the same kernel calls. *)
Theorem setstate_fills_missing_flag (self : Optimizer) (st1 st2 : StateDict) :
  s_state st1 = s_state st2 →
  Forall2 same_but_amsgrad (s_param_groups st1) (s_param_groups st2) →
  (∀ i d, s_param_groups st1 !! i = Some d →
          ∃ g, param_groups (setstate self st1) !! i = Some g ∧
               params g = d_params d ∧
               amsgrad g = match d_amsgrad d with Some b => b | None => false end) ∧
  length (param_groups (setstate self st1)) = length (s_param_groups st1) ∧
  opt_id (setstate self st1) = opt_id self ∧
  state (setstate self st1) = s_state st1 ∧
  ∀ polls calls (w : World KState),
    blind (run_steps P K polls calls (setstate self st1, w))
    = blind (run_steps P K polls calls (setstate self st2, w)).
Proof.
  intros Hstate Hgroups. split_and!; try done.
  - intros i d Hd. exists (setdefault_amsgrad d). split_and!.
    + unfold setstate. cbn [param_groups]. by rewrite list_lookup_fmap, Hd.
    + done.
    + unfold setdefault_amsgrad. cbn. by destruct (d_amsgrad d).
  - unfold setstate. cbn [param_groups]. by rewrite length_map.
  - intros polls calls w. rewrite <- !(flag_blind_run_steps P K).
    unfold forget. cbn [fst snd]. f_equal. f_equal.
    unfold forget_amsgrad, setstate. cbn [opt_id param_groups state].
    rewrite Hstate. f_equal. rewrite !map_map.
    induction Hgroups as [|d1 d2 l1 l2 Hd _ IH]; [done|].
    cbn [map]. by rewrite (forget_setdefault d1 d2 Hd), IH.
Qed.

End SetState.

(** ** What [step] prints *)

Section Prints.

Context (P : Platform) {KState : Type} (K : Kernel KState).

Abbreviation OWN := (Optimizer * World KState)%type.

Lemma prints_app l1 l2 : prints (l1 ++ l2) = prints l1 + prints l2.
Proof. unfold prints. by rewrite list.filter_app, length_app. Qed.

Lemma loader_events_no_print l :
  Forall (fun e => loader_event e = true) l → prints l = 0.
Proof.
  induction 1 as [|e l He _ IH]; [done|].
  change (e :: l) with ([e] ++ l). rewrite prints_app, IH. by destruct e.
Qed.

#[global] Instance no_announcement_reflexive : Reflexive (@no_announcement KState).
Proof. intros w. exists []. rewrite app_nil_r. by split_and!. Qed.

#[global] Instance no_announcement_transitive : Transitive (@no_announcement KState).
Proof.
  intros w1 w2 w3 (l1 & Hl1 & Hp1 & Ha1) (l2 & Hl2 & Hp2 & Ha2). exists (l1 ++ l2).
  split_and!; [rewrite app_assoc; congruence|rewrite prints_app; lia|
               rewrite allocations_app; lia].
Qed.

#[global] Instance entries_announced_reflexive : Reflexive (@entries_announced KState).
Proof. intros s. exists []. rewrite app_nil_r. split_and!; try done; cbn; lia. Qed.

#[global] Instance entries_announced_transitive : Transitive (@entries_announced KState).
Proof.
  intros s1 s2 s3 (l1 & Hl1 & Hs1 & Ha1) (l2 & Hl2 & Hs2 & Ha2). exists (l1 ++ l2).
  split_and!; [rewrite app_assoc; congruence|rewrite prints_app; lia|
               rewrite allocations_app, prints_app; lia].
Qed.

Lemma in_world_keeps {A} (R : World KState → World KState → Prop)
    (c : M (World KState) A) :
  keeps R c → keeps (on_world R) (in_world c).
Proof.
  intros Hc s. unfold in_world, on_world. specialize (Hc (snd s)).
  by destruct (c (snd s)).
Qed.

Lemma load_op_no_announcement polls :
  keeps no_announcement (load_op P (KState := KState) polls).
Proof.
  intros w. pose proof (load_op_effects P polls w) as Heff.
  destruct (load_op P polls w) as [h w'|e w'|]; simpl in *; [| |done];
    destruct Heff as [[_ _ _ (l & Hl & Hfl)] _]; exists l;
    destruct (loader_events_silent l Hfl) as (_ & _ & Ha & _);
    by rewrite (loader_events_no_print l Hfl).
Qed.

Lemma index2_no_announcement groups group_id param_id :
  keeps (on_world no_announcement) (index2 (KState := KState) groups group_id param_id).
Proof.
  intros s. unfold index2. destruct (groups !! group_id) as [g|]; [|simpl; reflexivity].
  destruct (g !! param_id); simpl; reflexivity.
Qed.

Lemma call_adam_update_no_announcement h p g st :
  keeps (on_world no_announcement) (call_adam_update K h p g st).
Proof.
  intros s. unfold call_adam_update, bind, in_world, emit, on_world.
  cbn [fst snd kstate heap].
  destruct (adam_update K h _ _ _ _ _ _) as [[ks [[d m] v]]|]; simpl;
    eexists [_]; by split_and!.
Qed.

Lemma call_adam_update_copy_no_announcement h p g st q :
  keeps (on_world no_announcement) (call_adam_update_copy K h p g st q).
Proof.
  intros s. unfold call_adam_update_copy, bind, in_world, emit, on_world.
  cbn [fst snd kstate heap].
  destruct (adam_update_copy K h _ _ _ _ _ _ _) as [[ks [[[d m] v] c]]|]; simpl;
    eexists [_]; by split_and!.
Qed.

(** The body from the loader on: nothing is printed or allocated. *)
Lemma kernel_part_no_announcement polls fp16 group_id param_id p g st :
  keeps (on_world no_announcement)
    (do ds_opt_adam <- in_world (load_op P polls) ;
     match fp16 with
     | Some groups =>
         do p_fp16 <- index2 groups group_id param_id ;
         call_adam_update_copy K ds_opt_adam p g st p_fp16
     | None => call_adam_update K ds_opt_adam p g st
     end).
Proof.
  apply keeps_bind; try apply _;
    [apply in_world_keeps, load_op_no_announcement|intros h].
  destruct fp16 as [groups|]; [|apply call_adam_update_no_announcement].
  apply keeps_bind; try apply _; [apply index2_no_announcement|intros q].
  apply call_adam_update_copy_no_announcement.
Qed.

Lemma init_events_prints (s : OWN) group_id param_id p :
  prints (init_events s group_id param_id p)
  = match state (fst s) !! p with Some _ => 0 | None => 1 end.
Proof. unfold init_events. by destruct (state (fst s) !! p). Qed.

Lemma step_param_announces polls fp16 group_id param_id p :
  keeps entries_announced (step_param P K polls fp16 group_id param_id p).
Proof.
  intros s. destruct (grad (heap (snd s) p)) as [g|] eqn:Hg.
  2: { rewrite step_param_skip by done. simpl. reflexivity. }
  pose proof (kernel_part_no_announcement polls fp16 group_id param_id p g
                (bumped (entry_of s p))
                (set_state (fst s) p (bumped (entry_of s p)),
                 logged (snd s) (init_events s group_id param_id p))) as Hrest.
  rewrite <- (step_param_unfold P K polls fp16 group_id param_id p g s Hg) in Hrest.
  assert (∀ s' : OWN,
    (∃ st', fst s' = set_state (fst s) p st') →
    on_world no_announcement
      (set_state (fst s) p (bumped (entry_of s p)),
       logged (snd s) (init_events s group_id param_id p)) s' →
    entries_announced s s') as Hsum.
  { intros s' [st' Hself] (l & Hl & Hp & Ha). unfold logged in Hl. cbn [snd log] in Hl.
    exists (init_events s group_id param_id p ++ l). split_and!.
    - rewrite Hl. by rewrite <- app_assoc.
    - rewrite Hself, prints_app, Hp, init_events_prints. unfold set_state. cbn [state].
      rewrite map_size_insert. destruct (state (fst s) !! p); unfold id; lia.
    - destruct (init_events_sigs s group_id param_id p) as [_ Hai].
      rewrite allocations_app, prints_app, Hp, Ha, Hai, init_events_prints.
      destruct (state (fst s) !! p); lia. }
  destruct (step_param P K polls fp16 group_id param_id p s) as [[] s'|e s'|] eqn:Hrun;
    simpl in *; [| |done]; apply Hsum; try done.
  - destruct (step_param_returns P K _ _ _ _ _ g _ _ Hg Hrun)
      as (h & l & ks' & d' & m' & v' & _ & _ & _ & Hself & _). eauto.
  - destruct (step_param_raises P K _ _ _ _ _ g _ _ _ Hg Hrun) as (Hself & _). eauto.
Qed.

Lemma run_items_announces polls fp16 its :
  keeps entries_announced (run_items P K polls fp16 its).
Proof.
  induction its as [|it its IH]; simpl.
  - apply keeps_ret. apply _.
  - apply keeps_bind; try apply _; [apply step_param_announces|]. intros _. apply IH.
Qed.

(** X16: [step] prints exactly one line for every state entry it
    creates and allocates exactly two buffers for it: however the call
    ends, the number of entries of the instance has grown by the number of
    lines printed, and the number of buffers allocated is twice that. *)
Theorem one_print_per_new_entry polls c (s : OWN) :
  sat (step_call P K polls c s)
      (fun _ s' => entries_announced s s') (fun s' => entries_announced s s').
Proof.
  revert s. apply step_call_keeps; try apply _; [|apply run_items_announces].
  intros s hp. exists []. simpl. rewrite app_nil_r. split_and!; try done; cbn; lia.
Qed.

End Prints.

(** ** The further statements on concrete processes *)

Section MoreRuns.

Import Demo Cases.

(** A regular file at the cache path: the loader gives up without a
    single poll. *)
Lemma load_op_file_in_the_way_witness :
  ∃ w', load_op platform 0 (fresh file_in_the_way) = Raises FileExistsError w' ∧
        fs w' = fs (fresh file_in_the_way) ∧ ds_opt_adam w' = None.
Proof.
  destruct (load_op_file_in_the_way platform 0 (fresh file_in_the_way))
    as (w' & H & Hfs & _ & Hslot & _).
  - reflexivity.
  - vm_compute. reflexivity.
  - exists w'. split_and!; [exact H|exact Hfs|exact Hslot].
Defined.

(** Without CUDA the first call of a fresh process raises with the
    "started" marker written and the compiler not called; with a regular
    file where the parent of the cache directory should be, it is refused
    before anything is written. *)
Lemma load_op_needs_cuda_witness :
  (∃ w', load_op no_cuda 1 (fresh ∅) = Raises TypeError w' ∧
         isfile (fs w') (started_marker no_cuda) = true ∧
         ds_opt_adam w' = None ∧
         compiler_calls (log w') = 0) ∧
  (∃ w', load_op no_cuda 1 (fresh file_above) = Raises NotADirectoryError w' ∧
         fs w' = fs (fresh file_above)).
Proof.
  split.
  - pose proof (load_op_needs_cuda no_cuda 1 (fresh ∅) eq_refl eq_refl) as H.
    destruct (load_op no_cuda 1 (fresh ∅)) as [h w'|e w'|] eqn:E.
    1, 3: (vm_compute in E; discriminate E).
    destruct H as (Hslot & Hc & [(Herr & _)|(_ & -> & Hst & _)]).
    + vm_compute in Herr. discriminate Herr.
    + exists w'. split_and!; [reflexivity|exact Hst|exact Hslot|exact Hc].
  - pose proof (load_op_needs_cuda no_cuda 1 (fresh file_above) eq_refl eq_refl) as H.
    destruct (load_op no_cuda 1 (fresh file_above)) as [h w'|e w'|] eqn:E.
    1, 3: (vm_compute in E; discriminate E).
    destruct H as (_ & _ & [(Herr & _ & Hfs & _)|(Herr & _)]).
    + assert (e = NotADirectoryError) as ->.
      { vm_compute in Herr. injection Herr as <-. reflexivity. }
      exists w'. split; [reflexivity|exact Hfs].
    + vm_compute in Herr. discriminate Herr.
Defined.

(** The first call of a fresh process on the demo machine. *)
Lemma load_op_marks_done_witness :
  ∃ h w', load_op platform 1 (fresh ∅) = Returns h w' ∧
          isfile (fs w') (started_marker platform) = true ∧
          isfile (fs w') (done_marker platform) = true ∧
          heap w' = objects.
Proof.
  destruct (load_op platform 1 (fresh ∅)) as [h w'|e w'|] eqn:E.
  2, 3: (vm_compute in E; discriminate E).
  exists h, w'. split; [reflexivity|].
  destruct (load_op_marks_done platform 1 (fresh ∅) h w' eq_refl E)
    as (home & m & _ & _ & Hs & Hd & _ & _ & _ & _ & Hhp & _).
  split_and!; [exact Hs|exact Hd|exact Hhp].
Defined.

(** After the compiler failed once, the process that retries waits for
    its own "started" marker. *)
Lemma failed_build_blocks_next_call_witness :
  ∃ w', load_op broken_compiler 1 (fresh ∅) = Raises BuildError w' ∧
        ∀ polls', load_op broken_compiler polls' w' = Blocked.
Proof.
  destruct (load_op broken_compiler 1 (fresh ∅)) as [h w'|e w'|] eqn:E.
  1, 3: (vm_compute in E; discriminate E).
  assert (e = BuildError ∧
          isfile (fs w') (ext_dir broken_compiler) = false ∧
          isfile (fs w') (done_marker broken_compiler) = false) as (-> & Hdir & Hdone).
  { vm_compute in E. injection E as <- <-. split_and!; vm_compute; reflexivity. }
  exists w'. split; [reflexivity|].
  destruct (failed_build_blocks_next_call broken_compiler 1 (fresh ∅) BuildError w'
              eq_refl E) as (_ & _ & Hfailed).
  destruct (Hfailed (or_intror eq_refl)) as (Hslot & _ & Hblock).
  intros polls'. apply Hblock; [exact Hslot|reflexivity|exact Hdir|].
  intros n. rewrite sleep_fs_idle; [exact Hdone|]. intros t f. reflexivity.
Defined.

(** The marker of the demo machine appears after 1500 seconds: the wait
    sees it at its third look, 2000 seconds after the call. *)
Lemma wait_returns_at_first_poll_witness :
  ∃ w', wait_if_build_started platform 3 (ext_dir platform) (fresh started_only)
        = Returns tt w' ∧
        now w' = 2000 ∧
        wait_if_build_started platform 2 (ext_dir platform) (fresh started_only)
        = Blocked.
Proof.
  destruct (wait_returns_at_first_poll platform (fresh started_only) 2)
    as (m & Hm & Hbefore & Hat & Hblocked & w' & Hret & Hnow & _).
  - vm_compute. reflexivity.
  - vm_compute. reflexivity.
  - assert (m = 2) as ->.
    { destruct m as [|[|[|m]]]; [| |reflexivity|lia].
      - vm_compute in Hat. discriminate Hat.
      - vm_compute in Hat. discriminate Hat. }
    exists w'. split_and!; [apply Hret; lia|exact Hnow|apply Hblocked; lia].
Defined.

(** The waiting loader of the demo process keeps the "started" marker it
    found. *)
Lemma load_op_keeps_files_witness :
  sat (load_op platform 3 (fresh started_only))
      (fun _ w' => files_kept (fresh started_only) w')
      (fun w' => files_kept (fresh started_only) w').
Proof.
  apply load_op_keeps_files. intros t f. unfold platform. cbn [others].
  destruct (t =? 1500); set_solver.
Defined.

(** An instance over object 3, which has no gradient: the call returns
    the closure's loss, without a single poll. *)
Lemma step_without_gradients_witness :
  step_call platform RefKernel.kernel 0 closure_call (instance [[3]], loaded)
  = Returns (Some (1 # 2)%Q) (at_loop_entry closure_call (instance [[3]], loaded)).
Proof.
  apply (step_without_gradients platform RefKernel.kernel 0 closure_call
           (instance [[3]], loaded)).
  intros p Hp. change (p ∈ [3]) in Hp. apply list_elem_of_singleton in Hp as ->.
  reflexivity.
Defined.

(** Objects 3 and 1 with a half-precision group of one entry: object 1
    stands at index 1, where the group has nothing. *)
Lemma step_short_fp16_groups_witness :
  ∃ s2, step_call platform RefKernel.kernel 1 short_copy_call (instance [[3; 1]], loaded)
        = Raises IndexError s2 ∧
        steps_of (fst s2) 1 = 1 ∧
        kernel_calls (log (snd s2)) = [].
Proof.
  destruct (step_short_fp16_groups platform RefKernel.kernel 1 short_copy_call
              (instance [[3; 1]], loaded) [[4]] [(0, 0, 3)] 0 1 1 []
              (at_loop_entry short_copy_call (instance [[3; 1]], loaded))
              (vec [(1 # 10)%Q]) 7)
    as (s2 & H & Hsteps & _ & Hk & _).
  - reflexivity.
  - reflexivity.
  - vm_compute. reflexivity.
  - reflexivity.
  - reflexivity.
  - reflexivity.
  - exists s2. split_and!; [exact H|rewrite Hsteps; reflexivity|rewrite Hk; reflexivity].
Defined.

(** A scheduler halves the learning rate of the groups: the call does the
    same. *)
Lemma step_ignores_group_hyperparameters_witness :
  run_steps platform RefKernel.kernel 1 [plain_call]
            (map_groups halve_lr (instance [[1; 3]]), loaded)
  = through halve_lr
      (run_steps platform RefKernel.kernel 1 [plain_call] (instance [[1; 3]], loaded)).
Proof.
  apply step_ignores_group_hyperparameters. intros g. reflexivity.
Defined.

(** The first construction of a fresh process. *)
Lemma construct_registers_hyperparameters_witness :
  ∃ self w' h, construct platform RefKernel.kernel 1 (hyper [[1]]) (fresh ∅)
               = Returns self w' ∧
               ds_opt_adam w' = Some h ∧
               list.last (log w')
               = Some (CreateAdam h 0 (1 # 1000) (9 # 10) (999 # 1000) (1 # 100000000) 0) ∧
               state self = ∅.
Proof.
  destruct (construct platform RefKernel.kernel 1 (hyper [[1]]) (fresh ∅))
    as [self w'|e w'|] eqn:E.
  2, 3: (vm_compute in E; discriminate E).
  destruct (construct_registers_hyperparameters platform RefKernel.kernel 1 (hyper [[1]])
              (fresh ∅) self w' E) as (h & Hslot & Hid & Hlast & _ & _ & _ & Hst & _).
  exists self, w', h. split_and!; [reflexivity|exact Hslot| |exact Hst].
  rewrite Hlast, Hid. reflexivity.
Defined.

(** Two constructions with a step in between. *)
Lemma updates_follow_registration_witness :
  ∃ st', run_script platform RefKernel.kernel 1
                    [Construct (hyper [[1]]); StepOn 0 plain_call; Construct (hyper [[3]])]
                    ([], fresh ∅) = Some st' ∧
         created_before (log (snd st')) ∧
         ∀ o, o ∈ fst st' → opt_id o ∈ create_ids (log (snd st')).
Proof.
  destruct (run_script platform RefKernel.kernel 1
              [Construct (hyper [[1]]); StepOn 0 plain_call; Construct (hyper [[3]])]
              ([], fresh ∅)) as [st'|] eqn:E.
  2: (vm_compute in E; discriminate E).
  exists st'. split; [reflexivity|].
  destruct (updates_follow_registration platform RefKernel.kernel 1
              [Construct (hyper [[1]]); StepOn 0 plain_call; Construct (hyper [[3]])]
              ∅ 0 objects ∅ st' E) as (Ho & _ & Hi & _).
  split; [exact Ho|exact Hi].
Defined.

(** Three constructions. *)
Lemma registrations_never_repeat_witness :
  ∃ st', run_script platform RefKernel.kernel 1
                    [Construct (hyper [[1]]); Construct (hyper [[3]]); Construct (hyper [])]
                    ([], fresh ∅) = Some st' ∧
         NoDup (create_ids (log (snd st'))) ∧
         length (create_ids (log (snd st'))) ≤ 3.
Proof.
  destruct (run_script platform RefKernel.kernel 1
              [Construct (hyper [[1]]); Construct (hyper [[3]]); Construct (hyper [])]
              ([], fresh ∅)) as [st'|] eqn:E.
  2: (vm_compute in E; discriminate E).
  exists st'. split; [reflexivity|].
  destruct (registrations_never_repeat platform RefKernel.kernel 1
              [Construct (hyper [[1]]); Construct (hyper [[3]]); Construct (hyper [])]
              ∅ 0 objects ∅ st' E) as (Hn & _ & Hlen).
  split; [exact Hn|exact Hlen].
Defined.

(** A pickle from before the flag existed and one that carries it. *)
Lemma setstate_fills_missing_flag_witness :
  (∃ g, param_groups (setstate (instance [[1]]) old_pickle) !! 0 = Some g ∧
        amsgrad g = false) ∧
  ∀ polls calls (w : World RefKernel.KState),
    blind (run_steps platform RefKernel.kernel polls calls
             (setstate (instance [[1]]) old_pickle, w))
    = blind (run_steps platform RefKernel.kernel polls calls
               (setstate (instance [[1]]) new_pickle, w)).
Proof.
  destruct (setstate_fills_missing_flag platform RefKernel.kernel (instance [[1]])
              old_pickle new_pickle) as (Hfill & _ & _ & _ & Hblind).
  - reflexivity.
  - constructor; [|constructor]. unfold same_but_amsgrad. by split_and!.
  - split; [|exact Hblind].
    destruct (Hfill 0 _ eq_refl) as (g & Hg & _ & Ha). exists g. split; [exact Hg|exact Ha].
Defined.

(** Two returning calls on an instance over objects 1 and 3, of which
    object 1 carries a gradient in both; and one raising call on an
    instance over objects 1 and 2. *)
Lemma step_counts_gradient_calls_witness :
  (∃ losses s',
     run_steps platform RefKernel.kernel 1 [plain_call; plain_call]
               (instance [[1; 3]], loaded) = Returns losses s' ∧
     steps_of (fst s') 1 = 2 ∧ updates_of 1 (log (snd s')) = 2 ∧
     steps_of (fst s') 3 = 0) ∧
  (∃ s', run_calls platform RefKernel.kernel 1 [empty_copy_call]
                   (instance [[1; 2]], loaded) = Some s' ∧
         steps_of (fst s') 2 ≤ 1).
Proof.
  assert (NoDup (all_params (instance [[1; 3]]))) as Hnd
    by (apply (bool_decide_unpack _); vm_compute; exact I).
  assert (1 ∈ all_params (instance [[1; 3]])) as Hin1
    by (apply (bool_decide_unpack _); vm_compute; exact I).
  assert (3 ∈ all_params (instance [[1; 3]])) as Hin3
    by (apply (bool_decide_unpack _); vm_compute; exact I).
  assert (gradient_calls platform RefKernel.kernel 1 1 [plain_call; plain_call]
                         (instance [[1; 3]], loaded) = 2) as G1 by (vm_compute; reflexivity).
  assert (gradient_calls platform RefKernel.kernel 1 3 [plain_call; plain_call]
                         (instance [[1; 3]], loaded) = 0) as G3 by (vm_compute; reflexivity).
  assert (gradient_calls platform RefKernel.kernel 1 2 [empty_copy_call]
                         (instance [[1; 2]], loaded) = 1) as G2 by (vm_compute; reflexivity).
  assert (occurrences 2 (all_params (instance [[1; 2]])) = 1) as K2
    by (vm_compute; reflexivity).
  split.
  - destruct (run_steps platform RefKernel.kernel 1 [plain_call; plain_call]
                        (instance [[1; 3]], loaded)) as [losses s'|e s'|] eqn:E.
    2, 3: (vm_compute in E; discriminate E).
    exists losses, s'. split; [reflexivity|].
    destruct (step_counts_gradient_calls platform RefKernel.kernel 1
                [plain_call; plain_call] (instance [[1; 3]], loaded) 1)
      as (Hk1 & Hret1 & _ & _).
    destruct (step_counts_gradient_calls platform RefKernel.kernel 1
                [plain_call; plain_call] (instance [[1; 3]], loaded) 3)
      as (Hk3 & Hret3 & _ & _).
    destruct (Hret1 losses s' E) as (_ & H1 & H1' & _).
    destruct (Hret3 losses s' E) as (_ & H3 & _).
    cbn [fst snd] in *. rewrite (Hk1 Hnd Hin1), G1 in H1, H1'.
    rewrite (Hk3 Hnd Hin3), G3 in H3.
    split_and!; [exact H1|exact H1'|exact H3].
  - destruct (run_calls platform RefKernel.kernel 1 [empty_copy_call]
                        (instance [[1; 2]], loaded)) as [s'|] eqn:E.
    2: (vm_compute in E; discriminate E).
    exists s'. split; [reflexivity|].
    destruct (step_counts_gradient_calls platform RefKernel.kernel 1
                [empty_copy_call] (instance [[1; 2]], loaded) 2)
      as (_ & _ & Hany & _).
    destruct (Hany s' E) as [_ Hhi]. cbn [fst snd] in Hhi. rewrite K2, G2 in Hhi.
    exact Hhi.
Defined.

(** C2 fails as stated: the half-precision group has no entry for object
    1, so the call raises at the first position; object 2, which carried a
    gradient in that call, was never reached and its counter is 0. *)
Lemma step_misses_gradient_after_raise :
  ¬ counts_every_gradient_call platform registering_kernel 1 [empty_copy_call]
      (instance [[1; 2]], after_first) 2.
Proof.
  intros H.
  destruct (run_calls platform registering_kernel 1 [empty_copy_call]
                      (instance [[1; 2]], after_first)) as [s'|] eqn:E.
  2: (vm_compute in E; discriminate E).
  pose proof (H eq_refl s' E) as H1.
  vm_compute in E. injection E as <-. vm_compute in H1. discriminate H1.
Qed.

(** C5 fails as stated: the first constructor call of the process fails
    in the compiler after it has taken identifier 0; the second call,
    which waits for the other builder and then succeeds, makes the first
    instance of the process, and that instance carries identifier 1. *)
Lemma opt_id_is_not_instance_count :
  ¬ ids_count_instances flaky_compiler registering_kernel 3
      [Construct (hyper [[1]]); Construct (hyper [[1]])] at_start.
Proof.
  intros H.
  destruct (run_script flaky_compiler registering_kernel 3
              [Construct (hyper [[1]]); Construct (hyper [[1]])] ([], at_start))
    as [st'|] eqn:E.
  2: (vm_compute in E; discriminate E).
  pose proof (H st' E 0) as H1.
  vm_compute in E. injection E as <-.
  specialize (H1 _ eq_refl). vm_compute in H1. discriminate H1.
Qed.

End MoreRuns.
